(** * jest-auto-shard: sharding strategies and the auto-shard coordinator

    A shallow embedding of [sharding-strategy.ts] (the four implementations of
    [TestShardingStrategy]) and of [AutoShardCoordinator] from [auto-shard.ts],
    followed by the properties of the specification that concern them.

    Conventions of the embedding.
    - A JavaScript [number] that holds a count, an index, a size in bytes or a
      time in milliseconds is an integer of [Z]; [NaN] only arises from [%]
      by zero and from [parseInt], where it is the [None] of an [option Z].
    - A test path is a [string]: the sequence of bytes of its UTF-8 encoding,
      which is what [hash.update(path)] feeds to MD5.
    - A call that may raise is a [completion]: [Normal v] or [Throws e]. *)

From Stdlib Require Import ZArith List String Ascii Lia Permutation Sorted.
From stdpp Require Import gmap strings list.
Import ListNotations.
Local Open Scope Z_scope.

(** ** Completions and the JavaScript operators the strategies use *)

Inductive exn : Type := TypeError.

Inductive completion (A : Type) : Type :=
| Normal (a : A)
| Throws (e : exn).
Arguments Normal {A} a.
Arguments Throws {A} e.

Definition cbind {A B : Type} (c : completion A) (k : A -> completion B) : completion B :=
  match c with
  | Normal a => k a
  | Throws e => Throws e
  end.

Notation "'let*' x := c 'in' k" := (cbind c (fun x => k))
  (at level 10, x name, c at level 100, k at level 200).

(** [a % b] on integers: the remainder takes the sign of the dividend, and
    [% 0] is [NaN]. *)
Definition js_rem (a b : Z) : option Z :=
  if b =? 0 then None else Some (Z.rem a b).

(** [x === y] where [x] may be [NaN]: [NaN] equals nothing. *)
Definition strict_eq (x : option Z) (y : Z) : bool :=
  match x with
  | Some v => v =? y
  | None => false
  end.

(** [array.filter((element, index) => ...)], the index starting at [i]. *)
Fixpoint filter_from {A : Type} (pred : A -> Z -> bool) (i : Z) (l : list A) : list A :=
  match l with
  | [] => []
  | x :: l' =>
      if pred x i then x :: filter_from pred (i + 1) l'
      else filter_from pred (i + 1) l'
  end.

Definition js_filter {A : Type} (pred : A -> Z -> bool) (l : list A) : list A :=
  filter_from pred 0 l.

(** [interface ShardInfo { index: number; total: number }] *)
Record ShardInfo : Type := { index : Z; total : Z }.

(** [interface TestShardingStrategy]: one method, [distributeTests]. *)
Class TestShardingStrategy (S : Type) : Type :=
  distributeTests : S -> list string -> ShardInfo -> completion (list string).

(** ** MD5, as [crypto.createHash('md5').update(path).digest('hex')] computes it *)

Module MD5.

Definition mask32 (x : Z) : Z := Z.land x 0xFFFFFFFF.

Definition add32 (x y : Z) : Z := mask32 (x + y).

Definition not32 (x : Z) : Z := Z.lxor x 0xFFFFFFFF.

Definition rotl32 (x c : Z) : Z :=
  mask32 (Z.lor (Z.shiftl x c) (Z.shiftr x (32 - c))).

Definition shifts : list Z :=
  [ 7; 12; 17; 22; 7; 12; 17; 22; 7; 12; 17; 22; 7; 12; 17; 22;
    5; 9; 14; 20; 5; 9; 14; 20; 5; 9; 14; 20; 5; 9; 14; 20;
    4; 11; 16; 23; 4; 11; 16; 23; 4; 11; 16; 23; 4; 11; 16; 23;
    6; 10; 15; 21; 6; 10; 15; 21; 6; 10; 15; 21; 6; 10; 15; 21 ].

(** [floor (2^32 * abs (sin (i + 1)))] for [i] from 0 to 63. *)
Definition sines : list Z :=
  [ 0xd76aa478; 0xe8c7b756; 0x242070db; 0xc1bdceee;
    0xf57c0faf; 0x4787c62a; 0xa8304613; 0xfd469501;
    0x698098d8; 0x8b44f7af; 0xffff5bb1; 0x895cd7be;
    0x6b901122; 0xfd987193; 0xa679438e; 0x49b40821;
    0xf61e2562; 0xc040b340; 0x265e5a51; 0xe9b6c7aa;
    0xd62f105d; 0x02441453; 0xd8a1e681; 0xe7d3fbc8;
    0x21e1cde6; 0xc33707d6; 0xf4d50d87; 0x455a14ed;
    0xa9e3e905; 0xfcefa3f8; 0x676f02d9; 0x8d2a4c8a;
    0xfffa3942; 0x8771f681; 0x6d9d6122; 0xfde5380c;
    0xa4beea44; 0x4bdecfa9; 0xf6bb4b60; 0xbebfbc70;
    0x289b7ec6; 0xeaa127fa; 0xd4ef3085; 0x04881d05;
    0xd9d4d039; 0xe6db99e5; 0x1fa27cf8; 0xc4ac5665;
    0xf4292244; 0x432aff97; 0xab9423a7; 0xfc93a039;
    0x655b59c3; 0x8f0ccc92; 0xffeff47d; 0x85845dd1;
    0x6fa87e4f; 0xfe2ce6e0; 0xa3014314; 0x4e0811a1;
    0xf7537e82; 0xbd3af235; 0x2ad7d2bb; 0xeb86d391 ].

Record registers : Type := { rA : Z; rB : Z; rC : Z; rD : Z }.

Definition initial : registers :=
  {| rA := 0x67452301; rB := 0xefcdab89; rC := 0x98badcfe; rD := 0x10325476 |}.

Definition round (M : list Z) (r : registers) (i : nat) : registers :=
  let '(Build_registers a b c d) := r in
  let '(f, g) :=
    if (i <? 16)%nat then
      (Z.lor (Z.land b c) (Z.land (not32 b) d), i)
    else if (i <? 32)%nat then
      (Z.lor (Z.land d b) (Z.land (not32 d) c), ((5 * i + 1) mod 16)%nat)
    else if (i <? 48)%nat then
      (Z.lxor b (Z.lxor c d), ((3 * i + 5) mod 16)%nat)
    else
      (Z.lxor c (Z.lor b (not32 d)), ((7 * i) mod 16)%nat) in
  let f' := add32 (add32 (add32 f a) (nth i sines 0)) (nth g M 0) in
  {| rA := d; rB := add32 b (rotl32 f' (nth i shifts 0)); rC := b; rD := c |}.

Definition process_chunk (r : registers) (M : list Z) : registers :=
  let r' := fold_left (round M) (seq 0 64) r in
  {| rA := add32 (rA r) (rA r'); rB := add32 (rB r) (rB r');
     rC := add32 (rC r) (rC r'); rD := add32 (rD r) (rD r') |}.

(** The [n] low bytes of [x], least significant first. *)
Fixpoint le_bytes (n : nat) (x : Z) : list Z :=
  match n with
  | O => []
  | S n' => Z.land x 0xFF :: le_bytes n' (Z.shiftr x 8)
  end.

Fixpoint le_word (bs : list Z) : Z :=
  match bs with
  | [] => 0
  | b :: bs' => b + 256 * le_word bs'
  end.

Definition pad (msg : list Z) : list Z :=
  let len := Z.of_nat (length msg) in
  let zeros := Z.to_nat ((55 - len) mod 64) in
  msg ++ [0x80] ++ repeat 0 zeros ++ le_bytes 8 (8 * len).

Fixpoint chunks (fuel : nat) (k : nat) (bs : list Z) : list (list Z) :=
  match fuel with
  | O => []
  | S fuel' =>
      match bs with
      | [] => []
      | _ => firstn k bs :: chunks fuel' k (skipn k bs)
      end
  end.

Definition words_of_chunk (chunk : list Z) : list Z :=
  List.map le_word (chunks 16 4 chunk).

Definition bytes_of_string (s : string) : list Z :=
  List.map (fun a => Z.of_N (N_of_ascii a)) (list_ascii_of_string s).

Definition final (s : string) : registers :=
  let padded := pad (bytes_of_string s) in
  fold_left process_chunk
    (List.map words_of_chunk (chunks (length padded) 64 padded)) initial.

Definition digest (s : string) : list Z :=
  let r := final s in
  le_bytes 4 (rA r) ++ le_bytes 4 (rB r) ++ le_bytes 4 (rC r) ++ le_bytes 4 (rD r).

Definition hex_digit (n : Z) : ascii :=
  nth (Z.to_nat n) (list_ascii_of_string "0123456789abcdef") "0"%char.

Fixpoint hex_of_bytes (bs : list Z) : string :=
  match bs with
  | [] => EmptyString
  | b :: bs' =>
      String (hex_digit (Z.shiftr b 4))
        (String (hex_digit (Z.land b 0xF)) (hex_of_bytes bs'))
  end.

Definition hexdigest (s : string) : string := hex_of_bytes (digest s).

End MD5.

(** ** [parseInt(s, 16)]

    The value of the longest prefix of hexadecimal digits, [NaN] when that
    prefix is empty.  Leading white space, a sign and a [0x] prefix, which
    [parseInt] also accepts, cannot start a hexadecimal digest and are left
    out. *)

Definition hex_value (c : ascii) : option Z :=
  let n := Z.of_N (N_of_ascii c) in
  if (48 <=? n) && (n <=? 57) then Some (n - 48)
  else if (97 <=? n) && (n <=? 102) then Some (n - 87)
  else if (65 <=? n) && (n <=? 70) then Some (n - 55)
  else None.

Fixpoint parse_hex_digits (acc : Z) (s : string) : Z :=
  match s with
  | EmptyString => acc
  | String c s' =>
      match hex_value c with
      | Some d => parse_hex_digits (16 * acc + d) s'
      | None => acc
      end
  end.

Definition parseInt16 (s : string) : option Z :=
  match s with
  | EmptyString => None
  | String c _ =>
      match hex_value c with
      | Some _ => Some (parse_hex_digits 0 s)
      | None => None
      end
  end.

(** ** [class RoundRobinStrategy] *)

Inductive RoundRobinStrategy : Type := new_RoundRobinStrategy.

Definition RoundRobin_distributeTests
    (testPaths : list string) (shardInfo : ShardInfo) : list string :=
  js_filter
    (fun _ i => strict_eq (js_rem i (total shardInfo)) (index shardInfo - 1))
    testPaths.

#[global] Instance RoundRobin_strategy : TestShardingStrategy RoundRobinStrategy :=
  fun _ testPaths shardInfo => Normal (RoundRobin_distributeTests testPaths shardInfo).

(** ** [class HashBasedStrategy] *)

Inductive HashBasedStrategy : Type := new_HashBasedStrategy.

(** [parseInt(hash.substring(0, 8), 16)] *)
Definition hashNum (path : string) : option Z :=
  parseInt16 (substring 0 8 (MD5.hexdigest path)).

Definition hash_selects (shardInfo : ShardInfo) (path : string) : bool :=
  match hashNum path with
  | Some h => strict_eq (js_rem h (total shardInfo)) (index shardInfo - 1)
  | None => false
  end.

Definition HashBased_distributeTests
    (testPaths : list string) (shardInfo : ShardInfo) : list string :=
  List.filter (hash_selects shardInfo) testPaths.

#[global] Instance HashBased_strategy : TestShardingStrategy HashBasedStrategy :=
  fun _ testPaths shardInfo => Normal (HashBased_distributeTests testPaths shardInfo).

(** ** The greedy assignment shared by [FileSizeStrategy] and [SmartStrategy]

    The two classes run the same code on records [{path, size}] and
    [{path, duration}]; a record is a pair here, its second component the
    cost. *)

(** [sort((a, b) => b.size - a.size)]: [Array.prototype.sort] is stable, so
    with this comparator it returns the records by descending cost, records
    of equal cost in their original order.  Insertion from the right is one
    such sort; [sort_desc_perm], [sort_desc_sorted] and [sort_desc_stable]
    below pin its result down. *)
Fixpoint insert_desc (x : string * Z) (l : list (string * Z)) : list (string * Z) :=
  match l with
  | [] => [x]
  | y :: l' => if x.2 <? y.2 then y :: insert_desc x l' else x :: y :: l'
  end.

Definition sort_desc (l : list (string * Z)) : list (string * Z) :=
  foldr insert_desc [] l.

(** [{ paths: string[]; totalSize: number }] *)
Record shard : Type := { paths : list string; totalSize : Z }.

Definition empty_shard : shard := {| paths := []; totalSize := 0 |}.

#[global] Instance shard_inhabited : Inhabited shard := populate empty_shard.

(** [shards.reduce((min, shard, index) =>
       shard.totalSize < shards[min].totalSize ? index : min, 0)];
    [rest] is what remains to be visited, [index] the position of its head. *)
Fixpoint reduce_min (shards : list shard) (index : nat) (rest : list shard) (min : nat) : nat :=
  match rest with
  | [] => min
  | s :: rest' =>
      reduce_min shards (S index) rest'
        (if totalSize s <? totalSize (shards !!! min) then index else min)
  end.

Definition minShard (shards : list shard) : nat := reduce_min shards 0 shards 0.

(** [s.paths.push(file.path); s.totalSize += file.size] *)
Definition add_file (s : shard) (file : string * Z) : shard :=
  {| paths := paths s ++ [file.1]; totalSize := totalSize s + file.2 |}.

(** The body of the [for] loop: [shards[minShard]] is [undefined] when the
    array is empty, and reading [.paths] of it raises. *)
Definition place (shards : list shard) (file : string * Z) : completion (list shard) :=
  let m := minShard shards in
  match shards !! m with
  | Some s => Normal (<[m := add_file s file]> shards)
  | None => Throws TypeError
  end.

Fixpoint place_all (shards : list shard) (files : list (string * Z)) : completion (list shard) :=
  match files with
  | [] => Normal shards
  | file :: files' => let* shards' := place shards file in place_all shards' files'
  end.

(** [Array.from({ length: total }, () => ({ paths: [], totalSize: 0 }))]:
    a length that is not positive gives the empty array. *)
Definition fresh_shards (total : Z) : list shard :=
  replicate (Z.to_nat total) empty_shard.

(** [shards[i]] for an integer [i]: [undefined] outside the array. *)
Definition array_get {A : Type} (l : list A) (i : Z) : option A :=
  if i <? 0 then None else l !! Z.to_nat i.

Definition greedy (files : list (string * Z)) (shardInfo : ShardInfo) : completion (list string) :=
  let* shards := place_all (fresh_shards (total shardInfo)) (sort_desc files) in
  match array_get shards (index shardInfo - 1) with
  | Some s => Normal (paths s)
  | None => Throws TypeError
  end.

(** ** [class FileSizeStrategy]

    [stat_size] is the file system as [fs.statSync] sees it: the size in
    bytes of the file at a path, [None] where [statSync] raises. *)

Record FileSizeStrategy : Type := { stat_size : string -> option N }.

Definition getFileSize (self : FileSizeStrategy) (path : string) : Z :=
  match stat_size self path with
  | Some n => Z.of_N n
  | None => 0
  end.

Definition FileSize_distributeTests (self : FileSizeStrategy)
    (testPaths : list string) (shardInfo : ShardInfo) : completion (list string) :=
  greedy (List.map (fun path => (path, getFileSize self path)) testPaths) shardInfo.

#[global] Instance FileSize_strategy : TestShardingStrategy FileSizeStrategy :=
  FileSize_distributeTests.

(** ** [class SmartStrategy] *)

Record SmartStrategy : Type := { testHistory : gmap string Z }.

(** [this.testHistory.get(path) || 1000]: a missing entry and a recorded
    [0] are both falsy. *)
Definition duration (self : SmartStrategy) (path : string) : Z :=
  match testHistory self !! path with
  | Some d => if d =? 0 then 1000 else d
  | None => 1000
  end.

Definition Smart_distributeTests (self : SmartStrategy)
    (testPaths : list string) (shardInfo : ShardInfo) : completion (list string) :=
  greedy (List.map (fun path => (path, duration self path)) testPaths) shardInfo.

#[global] Instance Smart_strategy : TestShardingStrategy SmartStrategy :=
  Smart_distributeTests.

Definition updateTestDuration (self : SmartStrategy) (testPath : string) (d : Z) : SmartStrategy :=
  {| testHistory := <[testPath := d]> (testHistory self) |}.

(** ** What the properties are about *)

(** The shard indices [1 .. total]. *)
Definition indices (total : Z) : list Z :=
  List.map Z.of_nat (seq 1 (Z.to_nat total)).

(** One call of [distributeTests] per index. *)
Definition all_shards {S : Type} `{TestShardingStrategy S}
    (s : S) (testPaths : list string) (total : Z) : list (completion (list string)) :=
  List.map (fun i => distributeTests s testPaths {| index := i; total := total |})
    (indices total).

Definition disjoint_lists (a b : list string) : Prop :=
  forall x, In x a -> In x b -> False.

(** The calls all return, every occurrence of a test of the input is in
    exactly one of the results, and where the input names no test twice no
    two results share a test. *)
Definition is_partition (testPaths : list string) (total : Z)
    (outs : list (completion (list string))) : Prop :=
  exists subsets : list (list string),
    outs = List.map Normal subsets /\
    Z.of_nat (length subsets) = total /\
    Permutation (concat subsets) testPaths /\
    (NoDup testPaths ->
     forall i j a b, i <> j -> subsets !! i = Some a -> subsets !! j = Some b ->
                     disjoint_lists a b).

Definition sum_cost (cost : string -> Z) (l : list string) : Z :=
  foldr Z.add 0 (List.map cost l).

Definition max_cost (cost : string -> Z) (l : list string) : Z :=
  foldr Z.max 0 (List.map cost l).


(** The shard a path hashes to, by the test of [HashBasedStrategy]. *)
Definition shard_of (total : Z) (path : string) : option Z :=
  match hashNum path with
  | Some h => match js_rem h total with
              | Some r => Some (r + 1)
              | None => None
              end
  | None => None
  end.

(** Descending order of cost, and the records of one cost. *)
Definition desc (a b : string * Z) : Prop := b.2 <= a.2.

Definition of_cost (k : Z) (f : string * Z) : bool := f.2 =? k.

(** The invariants of the greedy loop: a record carries the cost of its
    path, a running total is the summed cost of the shard's paths, and no
    two running totals are further apart than [bound]. *)
Definition priced (cost : string -> Z) (f : string * Z) : Prop := f.2 = cost f.1.

Definition accounted (cost : string -> Z) (s : shard) : Prop :=
  totalSize s = sum_cost cost (paths s).

Definition balanced (bound : Z) (shards : list shard) : Prop :=
  forall s1 s2, s1 ∈ shards -> s2 ∈ shards -> totalSize s1 - totalSize s2 <= bound.

(** The scenario of the specification for the size-balanced strategy, which
    is also the mock of the repository's test of [FileSizeStrategy]. *)
Definition scenario_sizes : FileSizeStrategy :=
  {| stat_size := fun path =>
       if String.eqb path "a" then Some 1000%N
       else if String.eqb path "b" then Some 2000%N
       else if String.eqb path "c" then Some 1500%N
       else if String.eqb path "d" then Some 500%N
       else if String.eqb path "e" then Some 3000%N
       else if String.eqb path "f" then Some 800%N
       else None |}.

Definition scenario_tests : list string := ["a"; "b"; "c"; "d"; "e"; "f"]%string.

(** The history of the repository's test of [SmartStrategy]. *)
Definition scenario_history : SmartStrategy :=
  {| testHistory :=
       <["a"%string := 5000]> (<["b"%string := 1000]> (<["c"%string := 3000]>
       (<["d"%string := 2000]> (<["e"%string := 4000]> (<["f"%string := 1500]> ∅))))) |}.

(** ** [class AutoShardCoordinator]

    The coordination directory is shared by every process of a run; it and
    what a process can observe of its host are the [World].  A coordinator
    object only holds what its process knows of itself.  Of the file system
    errors, [EEXIST] on an exclusive create and [ENOENT] on reading or
    unlinking a missing file are modelled.  Every call of [fs] is one
    atomic access, [writeFileSync] with the flag [wx] included.  The clock
    does not move while a call runs alone, it moves by [Tick] between calls
    and by [Elapse] between the accesses of calls that interleave. *)

Module Coordinator.

(** ['pending' | 'running' | 'completed' | 'failed'] *)
Inductive Status : Type := pending | running | completed | failed.

#[global] Instance status_eq_dec : EqDecision Status.
Proof. solve_decision. Defined.

(** [interface ShardStatus] *)
Record ShardStatus : Type := {
  shardId : Z;
  status : Status;
  pid : option Z;
  startTime : option Z;
  endTime : option Z;
  exitCode : option Z
}.

(** What [JSON.parse] makes of [shard-<id>.lock]: the record written by
    [acquireShardLock], or an exception. *)
Record LockData : Type := { lock_pid : Z; timestamp : Z; hostname : string }.

Inductive LockFile : Type :=
| Parsed (d : LockData)
| Corrupted.

(** [shard-status.json] *)
Inductive StatusFile : Type :=
| NoStatusFile
| BadStatusFile
| StatusTable (t : gmap Z ShardStatus).

Record World : Type := {
  locks : gmap Z LockFile;      (* the lock files of the directory, by shard id *)
  statusFile : StatusFile;
  now : Z;                      (* Date.now() *)
  live : gset Z                 (* the pids for which process.kill(pid, 0) returns *)
}.

(** [this.config.totalShards], [process.pid], [os.hostname()] and
    [process.platform === 'win32'].  The field [shardStatuses] is written
    and never read; it is left out. *)
Record AutoShardCoordinator : Type := {
  totalShards : Z;
  process_pid : Z;
  os_hostname : string;
  win32 : bool
}.

Definition set_locks (w : World) (l : gmap Z LockFile) : World :=
  {| locks := l; statusFile := statusFile w; now := now w; live := live w |}.

Definition readStatus (w : World) : gmap Z ShardStatus :=
  match statusFile w with
  | StatusTable t => t
  | NoStatusFile | BadStatusFile => ∅
  end.

Definition writeStatus (w : World) (statuses : gmap Z ShardStatus) : World :=
  {| locks := locks w; statusFile := StatusTable statuses; now := now w; live := live w |}.

(** *** [acquireShardLock], one file system access at a time *)

Inductive pc : Type :=
| AtCreate                (* fs.writeFileSync(lockFile, ..., { flag: 'wx' }) *)
| AtRead                  (* JSON.parse(fs.readFileSync(lockFile)); the staleness test *)
| AtProbe (d : LockData)  (* process.kill(lockData.pid, 0) *)
| AtUnlinkStale           (* fs.unlinkSync at "Check if lock is stale" *)
| AtUnlinkDead            (* fs.unlinkSync at "Process doesn't exist" *)
| AtUnlinkCorrupt         (* fs.unlinkSync at "Corrupted lock file" *)
| Returned (b : bool).

(** A call in progress: where it stands, and how many recursive calls of
    [acquireShardLock] are below it on the stack. *)
Record call : Type := { at_pc : pc; depth : nat }.

Definition enter : call := {| at_pc := AtCreate; depth := 0 |}.

Definition goto (c : call) (p : pc) : call := {| at_pc := p; depth := depth c |}.

(** [return this.acquireShardLock(shardId)] *)
Definition recurse (c : call) : call := {| at_pc := AtCreate; depth := S (depth c) |}.

Definition own_lock (self : AutoShardCoordinator) (w : World) : LockFile :=
  Parsed {| lock_pid := process_pid self; timestamp := now w; hostname := os_hostname self |}.

Definition unlink_then (w : World) (shardId : Z) (c : call) (on_error : pc) : World * call :=
  match locks w !! shardId with
  | Some _ => (set_locks w (delete shardId (locks w)), recurse c)
  | None => (w, goto c on_error)
  end.

Definition acquire_step (self : AutoShardCoordinator) (shardId : Z)
    (w : World) (c : call) : World * call :=
  match at_pc c with
  | AtCreate =>
      match locks w !! shardId with
      | None => (set_locks w (<[shardId := own_lock self w]> (locks w)), goto c (Returned true))
      | Some _ => (w, goto c AtRead)
      end
  | AtRead =>
      match locks w !! shardId with
      | Some (Parsed lockData) =>
          if 300000 <? now w - timestamp lockData then (w, goto c AtUnlinkStale)
          else if negb (win32 self) then (w, goto c (AtProbe lockData))
          else (w, goto c (Returned false))
      | Some Corrupted | None => (w, goto c AtUnlinkCorrupt)
      end
  | AtProbe lockData =>
      if decide (lock_pid lockData ∈ live w) then (w, goto c (Returned false))
      else (w, goto c AtUnlinkDead)
  | AtUnlinkStale => unlink_then w shardId c AtUnlinkCorrupt
  | AtUnlinkDead => unlink_then w shardId c AtUnlinkCorrupt
  | AtUnlinkCorrupt => unlink_then w shardId c (Returned false)
  | Returned _ => (w, c)
  end.

Fixpoint run_call (self : AutoShardCoordinator) (shardId : Z)
    (fuel : nat) (w : World) (c : call) : World * call :=
  match fuel with
  | O => (w, c)
  | S fuel' =>
      match at_pc c with
      | Returned _ => (w, c)
      | _ => let '(w', c') := acquire_step self shardId w c in
             run_call self shardId fuel' w' c'
      end
  end.

(** A call that nothing interleaves with: five steps bring it to its
    [return] ([acquireShardLock_returns]). *)
Definition acquireShardLock (self : AutoShardCoordinator) (shardId : Z)
    (w : World) : option bool * World :=
  let '(w', c) := run_call self shardId 5 w enter in
  match at_pc c with
  | Returned b => (Some b, w')
  | _ => (None, w')
  end.

(** The world after a successful claim of [shardId]. *)
Definition relock (self : AutoShardCoordinator) (shardId : Z) (w : World) : World :=
  set_locks w (<[shardId := own_lock self w]> (locks w)).

(** What the lock file of [shardId] lets a call that runs alone do. *)
Definition lock_yields (self : AutoShardCoordinator) (shardId : Z) (w : World) : bool :=
  match locks w !! shardId with
  | None => true
  | Some (Parsed lockData) =>
      if 300000 <? now w - timestamp lockData then true
      else if win32 self then false
      else if decide (lock_pid lockData ∈ live w) then false
      else true
  | Some Corrupted => true
  end.

(** [fs.unlinkSync] in a [try] whose [catch] ignores the error. *)
Definition releaseShardLock (w : World) (shardId : Z) : World :=
  set_locks w (delete shardId (locks w)).

(** *** [determineNextAvailableShard] *)

Definition fresh_status (i : Z) : ShardStatus :=
  {| shardId := i; status := pending; pid := None; startTime := None;
     endTime := None; exitCode := None |}.

(** "Initialize status for all shards if needed" *)
Definition init_statuses (total : Z) (statuses : gmap Z ShardStatus) : gmap Z ShardStatus :=
  foldl (fun t i => match t !! i with
                    | Some _ => t
                    | None => <[i := fresh_status i]> t
                    end)
    statuses (indices total).

Definition claim (self : AutoShardCoordinator) (w : World) (st : ShardStatus) : ShardStatus :=
  {| shardId := shardId st; status := running; pid := Some (process_pid self);
     startTime := Some (now w); endTime := endTime st; exitCode := exitCode st |}.

Definition claimable_status (s : Status) : bool :=
  match s with
  | pending | failed => true
  | running | completed => false
  end.

(** "Find next available shard"; [statuses[i]] is defined for every [i]
    the loop visits ([init_statuses_lookup]). *)
Fixpoint scan (self : AutoShardCoordinator) (statuses : gmap Z ShardStatus)
    (ids : list Z) (w : World) : option Z * World :=
  match ids with
  | [] => (None, w)
  | i :: ids' =>
      match statuses !! i with
      | Some st =>
          if claimable_status (status st) then
            match acquireShardLock self i w with
            | (Some true, w') =>
                (Some i, writeStatus w' (<[i := claim self w' st]> statuses))
            | (_, w') => scan self statuses ids' w'
            end
          else scan self statuses ids' w
      | None => scan self statuses ids' w
      end
  end.

Definition determineNextAvailableShard (self : AutoShardCoordinator)
    (w : World) : option Z * World :=
  let statuses := init_statuses (totalShards self) (readStatus w) in
  scan self statuses (indices (totalShards self)) w.

(** *** [markShardComplete] *)

Definition complete (w : World) (exit_code : Z) (st : ShardStatus) : ShardStatus :=
  {| shardId := shardId st;
     status := if exit_code =? 0 then completed else failed;
     pid := pid st; startTime := startTime st;
     endTime := Some (now w); exitCode := Some exit_code |}.

Definition markShardComplete (w : World) (shard_id exit_code : Z) : World :=
  let statuses := readStatus w in
  match statuses !! shard_id with
  | Some st =>
      releaseShardLock
        (writeStatus w (<[shard_id := complete w exit_code st]> statuses)) shard_id
  | None => w
  end.

(** The status a coordinator sees for an id: records are created lazily,
    an id without one is [pending]. *)
Definition status_at (w : World) (i : Z) : Status :=
  match readStatus w !! i with
  | Some st => status st
  | None => pending
  end.

(** *** Sequences of operations on one coordination directory *)

Inductive op : Type :=
| DetermineNext (self : AutoShardCoordinator)
| MarkComplete (shard_id exit_code : Z)
| Tick (dt : Z)                (* the clock moves *)
| Exit (p : Z).                (* the process with pid [p] ends *)

Definition exec (w : World) (o : op) : option Z * World :=
  match o with
  | DetermineNext self => determineNextAvailableShard self w
  | MarkComplete i e => (None, markShardComplete w i e)
  | Tick dt =>
      (None, {| locks := locks w; statusFile := statusFile w;
                now := now w + dt; live := live w |})
  | Exit p =>
      (None, {| locks := locks w; statusFile := statusFile w;
                now := now w; live := live w ∖ {[p]} |})
  end.

(** The ids granted by the calls of a sequence, and the world it leaves. *)
Fixpoint run (w : World) (ops : list op) : list Z * World :=
  match ops with
  | [] => ([], w)
  | o :: ops' =>
      let '(r, w') := exec w o in
      let '(rs, w'') := run w' ops' in
      (match r with Some i => i :: rs | None => rs end, w'')
  end.

Definition marks (i : Z) (o : op) : Prop :=
  match o with
  | MarkComplete j _ => j = i
  | _ => False
  end.

(** The transitions the specification allows. *)
Definition allowed (a b : Status) : bool :=
  match a, b with
  | pending, running | running, completed | running, failed | failed, running => true
  | _, _ => false
  end.

(** A caller marks only a shard it runs. *)
Definition disciplined (w : World) (o : op) : Prop :=
  match o with
  | MarkComplete i _ => status_at w i = running
  | _ => True
  end.

Fixpoint disciplined_run (w : World) (ops : list op) : Prop :=
  match ops with
  | [] => True
  | o :: ops' => disciplined w o /\ disciplined_run (snd (exec w o)) ops'
  end.

(** The worlds a sequence of operations goes through, and the statuses an
    id has in them. *)
Fixpoint worlds (w : World) (ops : list op) : list World :=
  w :: match ops with
       | [] => []
       | o :: ops' => worlds (snd (exec w o)) ops'
       end.

Definition statuses_along (w : World) (ops : list op) (i : Z) : list Status :=
  (fun w' => status_at w' i) <$> worlds w ops.

(** An id is claimable when its status lets the scan try it and the claim
    protocol then succeeds. *)
Definition claimable (self : AutoShardCoordinator) (w : World) (i : Z) : bool :=
  claimable_status (status_at w i) &&
  match fst (acquireShardLock self i w) with
  | Some b => b
  | None => false
  end.

(** *** Calls of [acquireShardLock] that interleave

    Every process runs its call one access at a time; between two accesses
    other processes and the environment act. *)

Record thread : Type := {
  owner : AutoShardCoordinator;
  target : Z;
  frame : call
}.

Inductive event : Type :=
| Step (t : nat)                   (* thread [t] performs its next access *)
| PutLock (i : Z) (f : LockFile)   (* a process outside writes a lock file *)
| Elapse (dt : Z)
| Die (p : Z).

Record system : Type := { world : World; threads : list thread }.

Definition step_thread (w : World) (th : thread) : World * thread :=
  let '(w', c') := acquire_step (owner th) (target th) w (frame th) in
  (w', {| owner := owner th; target := target th; frame := c' |}).

Definition step_event (s : system) (e : event) : system :=
  match e with
  | Step t =>
      match threads s !! t with
      | Some th =>
          let '(w', th') := step_thread (world s) th in
          {| world := w'; threads := <[t := th']> (threads s) |}
      | None => s
      end
  | PutLock i f =>
      {| world := set_locks (world s) (<[i := f]> (locks (world s)));
         threads := threads s |}
  | Elapse dt => {| world := snd (exec (world s) (Tick dt)); threads := threads s |}
  | Die p => {| world := snd (exec (world s) (Exit p)); threads := threads s |}
  end.

Definition run_events (s : system) (es : list event) : system :=
  foldl step_event s es.

Definition spawn (self : AutoShardCoordinator) (i : Z) : thread :=
  {| owner := self; target := i; frame := enter |}.

Definition outcome (s : system) (t : nat) : option bool :=
  match threads s !! t with
  | Some th => match at_pc (frame th) with
               | Returned b => Some b
               | _ => None
               end
  | None => None
  end.


Definition is_step (e : event) : Prop :=
  match e with
  | Step _ => True
  | _ => False
  end.

(** *** Notions the proofs use *)

Definition at_unlink (p : pc) : Prop :=
  p = AtUnlinkStale \/ p = AtUnlinkDead \/ p = AtUnlinkCorrupt.

(** The test of the scan on one id, and the world a grant leaves. *)
Definition can_claim (self : AutoShardCoordinator) (statuses : gmap Z ShardStatus)
    (w : World) (i : Z) : bool :=
  match statuses !! i with
  | Some st => claimable_status (status st) && lock_yields self i w
  | None => false
  end.

Definition grant (self : AutoShardCoordinator) (statuses : gmap Z ShardStatus)
    (w : World) (i : Z) : World :=
  match statuses !! i with
  | Some st =>
      writeStatus (relock self i w) (<[i := claim self (relock self i w) st]> statuses)
  | None => w
  end.

Definition pc_of (s : system) (t : nat) : option pc :=
  at_pc ∘ frame <$> threads s !! t.

Definition returned (self : AutoShardCoordinator) (i : Z) (b : bool) (n : nat) : thread :=
  {| owner := self; target := i; frame := {| at_pc := Returned b; depth := n |} |}.

Definition lock_data (self : AutoShardCoordinator) (w : World) : LockData :=
  {| lock_pid := process_pid self; timestamp := now w; hostname := os_hostname self |}.

(** Where the call that lost a race can stand. *)
Definition loser_pc (d : LockData) (p : pc) : Prop :=
  p = AtCreate \/ p = AtRead \/ p = AtProbe d \/ p = Returned false.

(** How many accesses a call that meets a fresh lock is from its [return],
    and how many accesses a schedule gives a thread. *)
Definition rank (p : pc) : nat :=
  match p with
  | AtCreate => 3
  | AtRead => 2
  | AtProbe _ => 1
  | _ => 0
  end.

Definition rank_of (s : system) (t : nat) : nat :=
  match pc_of s t with
  | Some p => rank p
  | None => 0
  end.

Definition steps_of (t : nat) (es : list event) : nat :=
  length (List.filter (fun e => match e with
                               | Step t' => Nat.eqb t' t
                               | _ => false
                               end) es).

(** The states two calls on a free lock reach when nothing else acts. *)
Inductive race_inv (a b : AutoShardCoordinator) (i : Z) (w : World) : system -> Prop :=
| race_start :
    race_inv a b i w {| world := w; threads := [spawn a i; spawn b i] |}
| race_first (p : pc) :
    loser_pc (lock_data a w) p ->
    race_inv a b i w
      {| world := relock a i w;
         threads := [returned a i true 0;
                     {| owner := b; target := i;
                        frame := {| at_pc := p; depth := 0 |} |}] |}
| race_second (p : pc) :
    loser_pc (lock_data b w) p ->
    race_inv a b i w
      {| world := relock b i w;
         threads := [{| owner := a; target := i;
                        frame := {| at_pc := p; depth := 0 |} |};
                     returned b i true 0] |}.

(** *** Scenarios *)

Definition alice : AutoShardCoordinator :=
  {| totalShards := 2; process_pid := 101; os_hostname := "ci-1"; win32 := false |}.

Definition bob : AutoShardCoordinator :=
  {| totalShards := 2; process_pid := 202; os_hostname := "ci-1"; win32 := false |}.

(** A coordination directory just created. *)
Definition empty_dir : World :=
  {| locks := ∅; statusFile := NoStatusFile; now := 1000; live := {[101; 202]} |}.

(** The directory a crashed run left behind: the lock of shard 1 is more
    than five minutes old. *)
Definition stale_lock : LockFile :=
  Parsed {| lock_pid := 77; timestamp := 0; hostname := "ci-1" |}.

Definition stale_dir : World :=
  {| locks := {[1 := stale_lock]};
     statusFile := NoStatusFile; now := 400000; live := {[101; 202]} |}.

(** Both processes find the stale lock, both judge it stale, and each
    deletes what it finds before it creates its own. *)
Definition racing_schedule : list event :=
  [Step 0; Step 1; Step 0; Step 1; Step 0; Step 0; Step 1; Step 1]%nat.





(** A directory whose table lacks shard 3 while a live process holds its
    lock. *)
Definition held_dir : World :=
  {| locks := {[3 := Parsed {| lock_pid := 101; timestamp := 900; hostname := "ci-1" |}]};
     statusFile := StatusTable {[1 := fresh_status 1]};
     now := 1000; live := {[101; 202]} |}.

End Coordinator.

Import Coordinator.

(** ** The rest of [sharding-strategy.ts] *)

(** [.jest-shard-history.json], as [loadHistory] finds it: missing,
    unparsable, or the object that [saveHistory] wrote. *)
Inductive HistoryFile : Type :=
| NoHistoryFile
| BadHistoryFile
| HistoryTable (m : gmap string Z).

(** [loadHistory]: a missing file leaves the map empty, an exception is
    logged and leaves it empty too. *)
Definition loadHistory (file : HistoryFile) : gmap string Z :=
  match file with
  | HistoryTable m => m
  | NoHistoryFile | BadHistoryFile => ∅
  end.

(** [constructor(historyFile?)] *)
Definition new_SmartStrategy (file : HistoryFile) : SmartStrategy :=
  {| testHistory := loadHistory file |}.

(** [saveHistory]: the file is rewritten with the whole map; where the
    write raises, the exception is logged and the file stays as it is. *)
Definition saveHistory (self : SmartStrategy) (writable : bool) (file : HistoryFile)
    : HistoryFile :=
  if writable then HistoryTable (testHistory self) else file.

(** [updateTestDuration] with its call of [saveHistory]: the object and the
    file after the call. *)
Definition updateTestDuration_saved (self : SmartStrategy) (testPath : string) (d : Z)
    (writable : bool) (file : HistoryFile) : SmartStrategy * HistoryFile :=
  let self' := updateTestDuration self testPath d in
  (self', saveHistory self' writable file).

(** ** [class JestShardReporter]: the durations it records

    The fields that [onTestStart] and [onTestResult] use. *)
Record JestShardReporter : Type := {
  shardingStrategy : SmartStrategy;
  testDurations : gmap string Z
}.

(** [this.shardingStrategy = new SmartStrategy()] in the constructor. *)
Definition new_JestShardReporter (file : HistoryFile) : JestShardReporter :=
  {| shardingStrategy := new_SmartStrategy file; testDurations := ∅ |}.

(** [this.testDurations.set(test.path, Date.now())] *)
Definition onTestStart (self : JestShardReporter) (path : string) (clock : Z)
    : JestShardReporter :=
  {| shardingStrategy := shardingStrategy self;
     testDurations := <[path := clock]> (testDurations self) |}.

(** [Date.now() - (this.testDurations.get(test.path) || Date.now())]:
    [clock1] is the first reading of the clock, [clock2] the second one,
    taken when the map has no entry for the path or the entry is 0. *)
Definition measured (self : JestShardReporter) (path : string) (clock1 clock2 : Z) : Z :=
  clock1 - match testDurations self !! path with
           | Some t => if t =? 0 then clock2 else t
           | None => clock2
           end.

Definition onTestResult (self : JestShardReporter) (path : string) (clock1 clock2 : Z)
    (writable : bool) (file : HistoryFile) : JestShardReporter * HistoryFile :=
  let '(s, file') :=
    updateTestDuration_saved (shardingStrategy self) path
      (measured self path clock1 clock2) writable file in
  ({| shardingStrategy := s; testDurations := testDurations self |}, file').

(** The calls Jest makes on a reporter, with the readings of the clock. *)
Inductive reporter_call : Type :=
| TestStart (path : string) (clock : Z)
| TestResult (path : string) (clock1 clock2 : Z) (writable : bool).

Definition report (st : JestShardReporter * HistoryFile) (c : reporter_call)
    : JestShardReporter * HistoryFile :=
  match c with
  | TestStart path clock => (onTestStart (fst st) path clock, snd st)
  | TestResult path clock1 clock2 writable =>
      onTestResult (fst st) path clock1 clock2 writable (snd st)
  end.

Definition report_all (st : JestShardReporter * HistoryFile) (calls : list reporter_call)
    : JestShardReporter * HistoryFile :=
  foldl report st calls.

(** The clock does not go back and is positive, and a result is reported
    for a test that was started. *)
Fixpoint well_timed (clock : Z) (started : gset string) (calls : list reporter_call) : Prop :=
  match calls with
  | [] => True
  | TestStart path t :: calls' =>
      clock <= t /\ well_timed t ({[path]} ∪ started) calls'
  | TestResult path t1 t2 _ :: calls' =>
      clock <= t1 /\ t1 <= t2 /\ path ∈ started /\ well_timed t2 started calls'
  end.

Definition nonneg_history (m : gmap string Z) : Prop :=
  map_Forall (fun _ d => 0 <= d) m.

(** The tests that were started have a start time, which is positive and
    not after the clock. *)
Definition timed (clock : Z) (started : gset string) (self : JestShardReporter) : Prop :=
  forall p, p ∈ started -> exists t, testDurations self !! p = Some t /\ 0 < t <= clock.

(** The round-robin test on a position, for the shard at array index [j]. *)
Definition rr_selects (total j : Z) (p : Z) : bool :=
  strict_eq (js_rem p total) j.

(** The state of the greedy loop when every cost is [c]: shard [j] holds
    the processed tests at the positions [j], [j + total], ... *)
Definition uniform_shard (c total : Z) (processed : list string) (j : nat) : shard :=
  let got := filter_from (fun _ p => rr_selects total (Z.of_nat j) p) 0 processed in
  {| paths := got; totalSize := c * Z.of_nat (length got) |}.

Definition uniform_shards (c total : Z) (processed : list string) : list shard :=
  uniform_shard c total processed <$> seq 0 (Z.to_nat total).

(** The state of the greedy loop when every cost is 0: the first shard
    holds all the processed tests. *)
Definition first_shard_only (total : Z) (processed : list string) : list shard :=
  {| paths := processed; totalSize := 0 |} :: replicate (Z.to_nat total - 1) empty_shard.

(** The cost of the paths of a shard, in the order of the list. *)
Definition by_cost_desc (cost : string -> Z) (a b : string) : Prop := cost b <= cost a.

(** ** The rest of [auto-shard.ts] *)

(** *** [getShardStatus] *)

Record StatusCounts : Type := {
  count_completed : Z;
  count_running : Z;
  count_pending : Z;
  count_failed : Z
}.

Definition no_counts : StatusCounts :=
  {| count_completed := 0; count_running := 0; count_pending := 0; count_failed := 0 |}.

(** [result[status.status]++] *)
Definition tally (result : StatusCounts) (st : ShardStatus) : StatusCounts :=
  match status st with
  | completed =>
      {| count_completed := count_completed result + 1; count_running := count_running result;
         count_pending := count_pending result; count_failed := count_failed result |}
  | running =>
      {| count_completed := count_completed result; count_running := count_running result + 1;
         count_pending := count_pending result; count_failed := count_failed result |}
  | pending =>
      {| count_completed := count_completed result; count_running := count_running result;
         count_pending := count_pending result + 1; count_failed := count_failed result |}
  | failed =>
      {| count_completed := count_completed result; count_running := count_running result;
         count_pending := count_pending result; count_failed := count_failed result + 1 |}
  end.

(** [for (const status of Object.values(statuses))] *)
Definition getShardStatus (w : World) : StatusCounts :=
  foldl tally no_counts (snd <$> map_to_list (readStatus w)).

Definition count_of (c : StatusCounts) (s : Status) : Z :=
  match s with
  | completed => count_completed c
  | running => count_running c
  | pending => count_pending c
  | failed => count_failed c
  end.

(** The records of a table that have the status [s]. *)
Definition with_status (s : Status) (t : gmap Z ShardStatus) : gmap Z ShardStatus :=
  filter (fun kv => status kv.2 = s) t.

(** *** [cleanup], and [ensureLockDir] after it

    [runAllShards] calls the two in a row: every file of the directory is
    unlinked, the directory removed and made again.  This is the run in
    which no [unlinkSync] raises; [cleanup] alone leaves no directory, which
    a [World] does not describe. *)
Definition cleanup_ensureLockDir (w : World) : World :=
  {| locks := ∅; statusFile := NoStatusFile; now := now w; live := live w |}.

(** *** [AutoShardRunner] *)

(** A number that may be [undefined] or [NaN]. *)
Inductive jsnum : Type :=
| Undefined
| NaN
| Num (z : Z).

(** [x || y] where [y] is a number: [undefined], [NaN] and [0] are falsy. *)
Definition js_or (x : jsnum) (y : Z) : Z :=
  match x with
  | Num z => if z =? 0 then y else z
  | Undefined | NaN => y
  end.

(** [Math.min(cpuCount, Math.max(1, Math.floor(testCount / 10)), 8)] *)
Definition detectOptimalShardCount (cpuCount testCount : Z) : Z :=
  Z.min (Z.min cpuCount (Z.max 1 (testCount / 10))) 8.

(** [estimateTestCount]: the number of lines of [jest --listTests] that are
    not blank, 40 where the command fails. *)
Definition estimateTestCount (listed : option Z) : Z :=
  match listed with
  | Some n => n
  | None => 40
  end.

(** [config.totalShards || this.detectOptimalShardCount()] *)
Definition runner_totalShards (config_totalShards : jsnum) (cpuCount : Z)
    (listed : option Z) : Z :=
  js_or config_totalShards (detectOptimalShardCount cpuCount (estimateTestCount listed)).

(** [runSingleShard]: the id, or 0 when no shard is granted. *)
Definition runSingleShard (self : AutoShardCoordinator) (w : World) : Z * World :=
  match determineNextAvailableShard self w with
  | (Some shardId, w') => (shardId, w')
  | (None, w') => (0, w')
  end.

(** *** [runAllShards]

    The promise and its callbacks, as a machine: [runAllShards] runs
    [checkAndStartShards] once; afterwards a child exits, or a callback
    that [setImmediate] queued runs, or the clock moves. *)

Module Runner.

Record RunEnv : Type := {
  options_maxParallel : jsnum;    (* options.maxParallel *)
  config_maxParallel : jsnum;     (* this.config.maxParallel *)
  cpus : Z;                       (* os.cpus().length *)
  child_pid : Z -> option Z       (* child.pid of the child spawned for a shard *)
}.

(** [options.maxParallel || this.config.maxParallel || os.cpus().length] *)
Definition maxParallel (env : RunEnv) : Z :=
  js_or (options_maxParallel env) (js_or (config_maxParallel env) (cpus env)).

Record RunState : Type := {
  dir : World;
  runningShards : gmap Z (option Z);   (* shard id to the pid of its child *)
  resolved : bool;                     (* resolve() was called *)
  immediates : nat;                    (* callbacks queued by setImmediate *)
  started : list Z;                    (* the shards spawned, in order *)
  reported : list (Z * Z)              (* the calls of onShardComplete *)
}.

(** [!statuses[i] || statuses[i].status === 'pending'] *)
Definition startable (statuses : gmap Z ShardStatus) (i : Z) : bool :=
  match statuses !! i with
  | None => true
  | Some st => bool_decide (status st = pending)
  end.

(** "Find next pending shard" *)
Fixpoint find_pending (self : AutoShardCoordinator) (statuses : gmap Z ShardStatus)
    (ids : list Z) (w : World) : option Z * World :=
  match ids with
  | [] => (None, w)
  | i :: ids' =>
      if startable statuses i then
        match acquireShardLock self i w with
        | (Some true, w') => (Some i, w')
        | (_, w') => find_pending self statuses ids' w'
        end
      else find_pending self statuses ids' w
  end.

Definition running_status (env : RunEnv) (w : World) (i : Z) : ShardStatus :=
  {| shardId := i; status := running; pid := child_pid env i;
     startTime := Some (now w); endTime := None; exitCode := None |}.

(** "Start shard" and "Update status" *)
Definition start_shard (env : RunEnv) (i : Z) (w : World) (r : RunState) : RunState :=
  {| dir := writeStatus w (<[i := running_status env w i]> (readStatus w));
     runningShards := <[i := child_pid env i]> (runningShards r);
     resolved := resolved r;
     immediates := immediates r;
     started := started r ++ [i];
     reported := reported r |}.

(** "Check if all shards are complete" *)
Definition finish (w : World) (r : RunState) : RunState :=
  let all_done :=
    bool_decide (size (runningShards r) = 0%nat) &&
    (count_pending (getShardStatus w) =? 0) && (count_running (getShardStatus w) =? 0) in
  {| dir := w;
     runningShards := runningShards r;
     resolved := resolved r || all_done;
     immediates := immediates r;
     started := started r;
     reported := reported r |}.

(** The [while] loop of [checkAndStartShards]; [None] when [fuel]
    iterations do not end it. *)
Fixpoint check_loop (fuel : nat) (self : AutoShardCoordinator) (env : RunEnv)
    (r : RunState) : option RunState :=
  match fuel with
  | O => None
  | S fuel' =>
      if Z.of_nat (size (runningShards r)) <? maxParallel env then
        match find_pending self (readStatus (dir r))
                (indices (totalShards self)) (dir r) with
        | (Some nextShard, w) => check_loop fuel' self env (start_shard env nextShard w r)
        | (None, w) => Some (finish w r)
        end
      else Some r
  end.

(** One more iteration than there are shards ends the loop
    ([checkAndStartShards_returns]). *)
Definition checkAndStartShards (self : AutoShardCoordinator) (env : RunEnv)
    (r : RunState) : option RunState :=
  check_loop (S (Z.to_nat (totalShards self))) self env r.

(** [code || 0]: the code is [null] for a child that a signal ended. *)
Definition exit_code (code : option Z) : Z :=
  match code with
  | Some c => c
  | None => 0
  end.

(** [child.on('exit', ...)] *)
Definition on_exit (i : Z) (code : option Z) (r : RunState) : RunState :=
  {| dir := releaseShardLock (markShardComplete (dir r) i (exit_code code)) i;
     runningShards := delete i (runningShards r);
     resolved := resolved r;
     immediates := S (immediates r);
     started := started r;
     reported := reported r ++ [(i, exit_code code)] |}.

Inductive run_event : Type :=
| ChildExit (shard : Z) (code : option Z)
| Immediate
| Clock (dt : Z).

Definition dequeue (r : RunState) (n : nat) : RunState :=
  {| dir := dir r; runningShards := runningShards r; resolved := resolved r;
     immediates := n; started := started r; reported := reported r |}.

Definition elapse (r : RunState) (dt : Z) : RunState :=
  {| dir := snd (exec (dir r) (Tick dt)); runningShards := runningShards r;
     resolved := resolved r; immediates := immediates r; started := started r;
     reported := reported r |}.

(** An event that cannot happen in the state gives [None]: only a running
    child exits, only a queued callback runs. *)
Definition run_step (self : AutoShardCoordinator) (env : RunEnv)
    (r : RunState) (e : run_event) : option RunState :=
  match e with
  | ChildExit i code =>
      match runningShards r !! i with
      | Some _ => Some (on_exit i code r)
      | None => None
      end
  | Immediate =>
      match immediates r with
      | S n => checkAndStartShards self env (dequeue r n)
      | O => None
      end
  | Clock dt => Some (elapse r dt)
  end.

Fixpoint run_steps (self : AutoShardCoordinator) (env : RunEnv)
    (r : RunState) (es : list run_event) : option RunState :=
  match es with
  | [] => Some r
  | e :: es' =>
      match run_step self env r e with
      | Some r' => run_steps self env r' es'
      | None => None
      end
  end.

Definition initial (w : World) : RunState :=
  {| dir := cleanup_ensureLockDir w; runningShards := ∅; resolved := false;
     immediates := 0; started := []; reported := [] |}.

(** [runAllShards], up to the return of its first [checkAndStartShards]. *)
Definition runAllShards (self : AutoShardCoordinator) (env : RunEnv) (w : World)
    : option RunState :=
  checkAndStartShards self env (initial w).

(** [runAllShards] and the events after it. *)
Definition run_from (self : AutoShardCoordinator) (env : RunEnv) (w : World)
    (es : list run_event) : option RunState :=
  match runAllShards self env w with
  | Some r0 => run_steps self env r0 es
  | None => None
  end.

(** The states of a run. *)
Definition reachable (self : AutoShardCoordinator) (env : RunEnv) (w : World)
    (r : RunState) : Prop :=
  exists es, run_from self env w es = Some r.

Definition is_exit (e : run_event) : bool :=
  match e with
  | ChildExit _ _ => true
  | _ => false
  end.

Definition is_immediate (e : run_event) : bool :=
  match e with
  | Immediate => true
  | _ => false
  end.

(** How many children exit and how many callbacks run in a sequence of
    events. *)
Definition exits (es : list run_event) : nat := length (List.filter is_exit es).

Definition callbacks (es : list run_event) : nat := length (List.filter is_immediate es).

(** How many shards the scan of [checkAndStartShards] still considers. *)
Definition open_shards (self : AutoShardCoordinator) (w : World) : nat :=
  length (List.filter (startable (readStatus w)) (indices (totalShards self))).

(** What holds in every state of a run. *)
Record run_inv (self : AutoShardCoordinator) (env : RunEnv) (r : RunState) : Prop := {
  inv_started :
    exists k : nat, (k <= Z.to_nat (totalShards self))%nat /\
                    started r = Z.of_nat <$> seq 1 k;
  inv_record :
    forall i, i ∈ started r ->
      exists st, readStatus (dir r) !! i = Some st /\ status st <> pending /\
                 (status st = running <-> is_Some (runningShards r !! i));
  inv_fresh :
    forall i, i ∉ started r ->
      readStatus (dir r) !! i = None /\ locks (dir r) !! i = None;
  inv_running :
    forall i, is_Some (runningShards r !! i) -> i ∈ started r;
  inv_locks :
    forall i, is_Some (locks (dir r) !! i) -> is_Some (runningShards r !! i);
  inv_size :
    Z.of_nat (size (runningShards r)) <= Z.max 0 (maxParallel env);
  inv_reported_nodup : NoDup (reported r).*1;
  inv_reported :
    forall i, i ∈ (reported r).*1 <-> i ∈ started r /\ runningShards r !! i = None;
  inv_exit :
    forall i c, (i, c) ∈ reported r ->
      exists st, readStatus (dir r) !! i = Some st /\
                 status st = (if c =? 0 then completed else failed) /\
                 exitCode st = Some c
}.

(** No child runs and no callback is queued. *)
Definition quiescent (r : RunState) : Prop :=
  runningShards r = ∅ /\ immediates r = 0%nat.

(** A state in which nothing will happen is one where the promise is
    resolved and every shard was started. *)
Definition settled (self : AutoShardCoordinator) (r : RunState) : Prop :=
  quiescent r ->
  resolved r = true /\ length (started r) = Z.to_nat (totalShards self).

Definition resolves_when_idle (self : AutoShardCoordinator) (env : RunEnv)
    (r : RunState) : Prop :=
  1 <= maxParallel env -> settled self r.

(** Three shards, at most two at a time: shards 1 and 2 start, shard 2
    fails, shard 3 starts, shard 1 is ended by a signal, shard 3 passes. *)
Definition three_shards : AutoShardCoordinator :=
  {| totalShards := 3; process_pid := 101; os_hostname := "ci-1"; win32 := false |}.

Definition two_at_a_time : RunEnv :=
  {| options_maxParallel := Num 2; config_maxParallel := Undefined; cpus := 8;
     child_pid := fun i => Some (500 + i) |}.

Definition three_shard_run : list run_event :=
  [Clock 10; ChildExit 2 (Some 1); Immediate; Clock 5; ChildExit 1 None;
   ChildExit 3 (Some 0); Immediate; Immediate].

Definition state_after (self : AutoShardCoordinator) (env : RunEnv) (w : World)
    (es : list run_event) : RunState :=
  default (initial w) (run_from self env w es).

End Runner.

(** ** [cli.ts]: the [run] command *)

Definition isNaN (x : jsnum) : bool :=
  match x with
  | Num _ => false
  | Undefined | NaN => true
  end.

Definition truthy (x : jsnum) : bool :=
  match x with
  | Num z => negb (z =? 0)
  | Undefined | NaN => false
  end.

(** [x < y]: false where [x] is [NaN] or [undefined]. *)
Definition js_lt (x : jsnum) (y : Z) : bool :=
  match x with
  | Num z => z <? y
  | Undefined | NaN => false
  end.

(** [x && (isNaN(x) || x < 1)], the test of "Validate inputs". *)
Definition invalid_count (x : jsnum) : bool :=
  truthy x && (isNaN x || js_lt x 1).

(** The action of [run], up to the call of [runAllShards].  [shards] and
    [parallel] are what [parseInt] makes of the two options, [Undefined]
    for an option that is not given.  [None] is [process.exit(1)];
    otherwise the shard count that the coordinator is made with and the
    environment in which its [runAllShards] runs. *)
Definition run_command (shards parallel : jsnum) (cpuCount : Z) (listed : option Z)
    (pids : Z -> option Z) : option (Z * Runner.RunEnv) :=
  let totalShards := shards in
  let maxParallel := match parallel with
                     | Undefined => Num cpuCount
                     | _ => parallel
                     end in
  if invalid_count totalShards then None
  else if invalid_count maxParallel then None
  else Some (runner_totalShards totalShards cpuCount listed,
             {| Runner.options_maxParallel := maxParallel;
                Runner.config_maxParallel := maxParallel;
                Runner.cpus := cpuCount;
                Runner.child_pid := pids |}).

(** ** [class CoverageCollector], and [handleCoverage] of the reporter

    The directory of the shard coverage files is a map: what [glob] finds
    for [coverage-shard-*.json], by the shard index in the name, with the
    JSON of the file. *)

Definition collectShardCoverage {Cov : Type} (files : gmap Z Cov) (shardIndex : Z)
    (coverageData : Cov) : gmap Z Cov :=
  <[shardIndex := coverageData]> files.

Definition getShardCount {Cov : Type} (files : gmap Z Cov) : Z :=
  Z.of_nat (size files).

Definition isAllShardsComplete {Cov : Type} (files : gmap Z Cov) (expectedShards : Z) : bool :=
  getShardCount files =? expectedShards.

Definition cleanupShardFiles {Cov : Type} (files : gmap Z Cov) : gmap Z Cov := ∅.

(** [mergeCoverage]: the files that go into the merge and the directory
    afterwards; [None] is the [Error] for a directory without shard files. *)
Definition mergeCoverage {Cov : Type} (files : gmap Z Cov) (cleanup : bool)
    : option (gmap Z Cov * gmap Z Cov) :=
  if decide (size files = 0%nat) then None
  else Some (files, if cleanup then cleanupShardFiles files else files).

Record CoverageOptions : Type := {
  mergeCoverageOnComplete : bool;
  option_cleanupShardFiles : bool;
  JEST_MERGE_COVERAGE : bool      (* process.env.JEST_MERGE_COVERAGE === 'true' *)
}.

(** [handleCoverage]: [coverageFile] is the parsed [coverage-final.json]
    of the shard, [None] where it is missing or unreadable.  The result is
    the directory afterwards and the files that were merged, if a merge
    took place. *)
Definition handleCoverage {Cov : Type} (opts : CoverageOptions) (shardInfo : ShardInfo)
    (coverageFile : option Cov) (files : gmap Z Cov) : gmap Z Cov * option (gmap Z Cov) :=
  match coverageFile with
  | Some coverageData =>
      let files1 := collectShardCoverage files (index shardInfo) coverageData in
      if mergeCoverageOnComplete opts then
        if isAllShardsComplete files1 (total shardInfo) || JEST_MERGE_COVERAGE opts then
          match mergeCoverage files1 (option_cleanupShardFiles opts) with
          | Some (merged, files2) => (files2, Some merged)
          | None => (files1, None)
          end
        else (files1, None)
      else (files1, None)
  | None => (files, None)
  end.

(** The shards of a run end one after the other, each with its coverage. *)
Fixpoint handle_all {Cov : Type} (opts : CoverageOptions) (total : Z)
    (ended : list (Z * Cov)) (files : gmap Z Cov) : list (option (gmap Z Cov)) :=
  match ended with
  | [] => []
  | (i, c) :: ended' =>
      let '(files', merged) :=
        handleCoverage opts {| index := i; total := total |} (Some c) files in
      merged :: handle_all opts total ended' files'
  end.

(** The options of the repository's [jest.config.js]. *)
Definition default_options : CoverageOptions :=
  {| mergeCoverageOnComplete := true; option_cleanupShardFiles := false;
     JEST_MERGE_COVERAGE := false |}.

(** The directory after the shards of a list have written their files. *)
Definition collected {Cov : Type} (files : gmap Z Cov) (ended : list (Z * Cov)) : gmap Z Cov :=
  foldl (fun f ic => collectShardCoverage f ic.1 ic.2) files ended.

(** An operation that is not a call of [markShardComplete]. *)
Definition not_a_mark (o : op) : Prop :=
  match o with
  | MarkComplete _ _ => False
  | _ => True
  end.

Definition count_sum (c : StatusCounts) : Z :=
  count_completed c + count_running c + count_pending c + count_failed c.

(** ** [cli.ts]: the [analyze] command *)

(** [Math.ceil(a / b)] for a divisor that is positive. *)
Definition ceil_div (a b : Z) : Z := - ((- a) / b).

(** [Math.min(cpuCount, Math.max(1, Math.ceil(testFiles.length / 20)))] *)
Definition recommendedShards (cpuCount n : Z) : Z :=
  Z.min cpuCount (Z.max 1 (ceil_div n 20)).

(** The number printed for shard [i] by "Distribution preview". *)
Definition preview_count (n recommended i : Z) : Z :=
  let testsPerShard := ceil_div n recommended in
  let start := (i - 1) * testsPerShard in
  let end_ := Z.min (i * testsPerShard) n in
  end_ - start.

Definition distribution_preview (cpuCount n : Z) : list Z :=
  List.map (preview_count n (recommendedShards cpuCount n))
    (indices (recommendedShards cpuCount n)).

(** ** Notions for the order within a shard and for held locks *)

(** The records of the loop, sorted. *)
Definition sorted_records (cost : string -> Z) (tests : list string) : list (string * Z) :=
  sort_desc (List.map (fun p => (p, cost p)) tests).

(** The directory [dt] milliseconds later. *)
Definition later (w : World) (dt : Z) : World := snd (exec w (Tick dt)).

Import Runner.

(** ** Facts on lists *)

Lemma filter_from_const {A : Type} (f : A -> bool) (l : list A) (k : Z) :
  filter_from (fun x _ => f x) k l = List.filter f l.
Proof.
  revert k; induction l as [|x l IH]; intros k; simpl; [reflexivity|].
  rewrite IH. reflexivity.
Qed.

Lemma concat_map_app {A B : Type} (h g : A -> list B) (l : list A) :
  Permutation (concat (List.map (fun i => h i ++ g i) l))
              (concat (List.map h l) ++ concat (List.map g l)).
Proof.
  induction l as [|a l IH]; simpl; [constructor|].
  rewrite IH. rewrite <- !app_assoc. apply Permutation_app_head.
  rewrite !app_assoc. apply Permutation_app_tail. apply Permutation_app_comm.
Qed.

Lemma concat_map_nil {A B : Type} (h : A -> list B) (l : list A) :
  (forall i, In i l -> h i = []) -> concat (List.map h l) = [].
Proof.
  induction l as [|a l IH]; simpl; intros H; [reflexivity|].
  rewrite (H a) by auto. rewrite IH; auto.
Qed.

Lemma concat_map_single {B : Type} (sel : Z -> bool) (x : B) (j : Z) (l : list Z) :
  NoDup l -> In j l ->
  (forall i, In i l -> sel i = true <-> i = j) ->
  concat (List.map (fun i => if sel i then [x] else []) l) = [x].
Proof.
  induction l as [|a l IH]; simpl; intros Hnd Hin Hsel; [contradiction|].
  apply NoDup_cons in Hnd as [Hna Hnd]. rewrite list_elem_of_In in Hna.
  destruct (decide (a = j)) as [->|Hne].
  - assert (sel j = true) as -> by (apply Hsel; auto).
    simpl. f_equal. apply concat_map_nil. intros i Hi.
    destruct (sel i) eqn:E; [|reflexivity].
    assert (i = j) by (apply Hsel; auto). subst. contradiction.
  - destruct Hin as [?|Hin]; [contradiction|].
    destruct (sel a) eqn:E.
    + assert (a = j) by (apply Hsel; auto). contradiction.
    + simpl. apply IH; auto.
Qed.

(** Filtering a list once per class, where every position belongs to one
    class of [idxs], deals the list out. *)
Lemma filter_classes {A : Type} (pred : Z -> A -> Z -> bool) (idxs : list Z)
    (l : list A) (k : Z) :
  NoDup idxs ->
  (forall x p, k <= p -> exists j, In j idxs /\
      forall i, In i idxs -> pred i x p = true <-> i = j) ->
  Permutation (concat (List.map (fun i => filter_from (pred i) k l) idxs)) l.
Proof.
  intros Hnd. revert k. induction l as [|x l IH]; intros k Hcl.
  - simpl. rewrite concat_map_nil; auto.
  - assert (Hmap : List.map (fun i => filter_from (pred i) k (x :: l)) idxs =
                   List.map (fun i => (if pred i x k then [x] else []) ++
                                      filter_from (pred i) (k + 1) l) idxs).
    { apply map_ext. intros i. simpl. destruct (pred i x k); reflexivity. }
    rewrite Hmap, concat_map_app.
    destruct (Hcl x k ltac:(lia)) as (j & Hj & Hsel).
    rewrite (concat_map_single (fun i => pred i x k) x j idxs Hnd Hj Hsel).
    simpl. constructor. apply IH. intros y p Hp. apply Hcl. lia.
Qed.

Lemma NoDup_concat_disjoint (subsets : list (list string)) :
  NoDup (concat subsets) ->
  forall i j a b, i <> j -> subsets !! i = Some a -> subsets !! j = Some b ->
                  disjoint_lists a b.
Proof.
  induction subsets as [|s subsets IH]; intros Hnd i j a b Hij Ha Hb.
  - discriminate.
  - simpl in Hnd. apply NoDup_app in Hnd as (Hs & Hdis & Hrest).
    assert (Hin : forall k c, subsets !! k = Some c -> forall x, In x c -> x ∈ concat subsets).
    { intros k c Hk x Hx. apply list_elem_of_In, in_concat. exists c. split; [|assumption].
      apply list_elem_of_In. eapply list_elem_of_lookup_2; eauto. }
    destruct i as [|i], j as [|j]; simpl in *.
    + congruence.
    + inversion Ha; subst. intros x Hx Hx'.
      apply (Hdis x); [apply list_elem_of_In; assumption|]. eapply Hin; eauto.
    + inversion Hb; subst. intros x Hx Hx'.
      apply (Hdis x); [apply list_elem_of_In; assumption|]. eapply Hin; eauto.
    + eapply (IH Hrest i j); eauto.
Qed.

Lemma indices_NoDup (n : Z) : NoDup (indices n).
Proof.
  unfold indices. apply NoDup_fmap_2; [intros a b; lia|]. apply NoDup_seq.
Qed.

Lemma in_indices (n i : Z) : In i (indices n) <-> 1 <= i <= n.
Proof.
  unfold indices. rewrite in_map_iff. split.
  - intros (k & <- & Hk). apply in_seq in Hk. lia.
  - intros H. exists (Z.to_nat i). split; [lia|]. apply in_seq. lia.
Qed.

Lemma indices_length (n : Z) : 0 <= n -> Z.of_nat (length (indices n)) = n.
Proof. intros H. unfold indices. rewrite length_map, length_seq. lia. Qed.

Lemma partition_of_perm (tests : list string) (total : Z) (f : Z -> list string) :
  0 <= total ->
  Permutation (concat (List.map f (indices total))) tests ->
  is_partition tests total (List.map (fun i => Normal (f i)) (indices total)).
Proof.
  intros Ht Hp. exists (List.map f (indices total)). repeat split.
  - rewrite List.map_map. reflexivity.
  - rewrite length_map. apply indices_length; assumption.
  - assumption.
  - intros Hnd. apply NoDup_concat_disjoint.
    rewrite Hp. assumption.
Qed.

(** ** Round-robin *)

Lemma js_rem_class (p total i : Z) :
  0 <= p -> 1 <= total ->
  strict_eq (js_rem p total) (i - 1) = true <-> i = Z.rem p total + 1.
Proof.
  intros Hp Ht. unfold js_rem.
  destruct (Z.eqb_spec total 0) as [?|_]; [lia|]. simpl.
  rewrite Z.eqb_eq. lia.
Qed.

Lemma rem_class_in_indices (p total : Z) :
  0 <= p -> 1 <= total -> In (Z.rem p total + 1) (indices total).
Proof.
  intros Hp Ht. apply in_indices.
  pose proof (Z.rem_bound_pos p total Hp ltac:(lia)). lia.
Qed.

Lemma RoundRobin_partition (tests : list string) (total : Z) :
  1 <= total ->
  is_partition tests total (all_shards new_RoundRobinStrategy tests total).
Proof.
  intros Ht. unfold all_shards, distributeTests, RoundRobin_strategy.
  apply partition_of_perm; [lia|].
  unfold RoundRobin_distributeTests, js_filter. simpl.
  apply (filter_classes (fun i (_ : string) p => strict_eq (js_rem p total) (i - 1))).
  - apply indices_NoDup.
  - intros x p Hp. exists (Z.rem p total + 1). split.
    + apply rem_class_in_indices; lia.
    + intros i _. apply js_rem_class; lia.
Qed.

(** ** Hash-based *)

Lemma hex_value_digit (n : Z) :
  0 <= n < 16 -> hex_value (MD5.hex_digit n) = Some n.
Proof.
  intros H. rewrite <- (Z2Nat.id n) by lia.
  assert (Hn : (Z.to_nat n < 16)%nat) by lia.
  generalize dependent (Z.to_nat n). clear. intros k Hk.
  do 16 (destruct k as [|k]; [reflexivity|]). lia.
Qed.

Lemma hex_prefix (b0 b1 b2 b3 : Z) (rest : list Z) :
  substring 0 8 (MD5.hex_of_bytes (b0 :: b1 :: b2 :: b3 :: rest)) =
  String (MD5.hex_digit (Z.shiftr b0 4)) (String (MD5.hex_digit (Z.land b0 0xF))
  (String (MD5.hex_digit (Z.shiftr b1 4)) (String (MD5.hex_digit (Z.land b1 0xF))
  (String (MD5.hex_digit (Z.shiftr b2 4)) (String (MD5.hex_digit (Z.land b2 0xF))
  (String (MD5.hex_digit (Z.shiftr b3 4)) (String (MD5.hex_digit (Z.land b3 0xF))
  EmptyString))))))).
Proof. simpl. destruct (MD5.hex_of_bytes rest); reflexivity. Qed.

Lemma parse_hex_digit_cons (acc n : Z) (s : string) :
  0 <= n < 16 ->
  parse_hex_digits acc (String (MD5.hex_digit n) s) = parse_hex_digits (16 * acc + n) s.
Proof. intros H. simpl. rewrite hex_value_digit by assumption. reflexivity. Qed.

Lemma byte_nibbles (x : Z) :
  let b := Z.land x 0xFF in
  0 <= Z.shiftr b 4 < 16 /\ 0 <= Z.land b 0xF < 16.
Proof.
  intros b.
  assert (Hb : 0 <= b < 256).
  { unfold b. change 0xFF with (Z.ones 8). rewrite Z.land_ones by lia.
    apply Z.mod_pos_bound. lia. }
  split.
  - rewrite Z.shiftr_div_pow2 by lia. change (2 ^ 4) with 16.
    split; [apply Z.div_pos; lia|apply Z.div_lt_upper_bound; lia].
  - change 0xF with (Z.ones 4). rewrite Z.land_ones by lia.
    apply Z.mod_pos_bound. lia.
Qed.

(** The first eight hexadecimal digits of a digest always parse, to a
    32-bit number. *)
Lemma hashNum_bounds (path : string) :
  exists h, hashNum path = Some h /\ 0 <= h < 2 ^ 32.
Proof.
  unfold hashNum, MD5.hexdigest, MD5.digest.
  generalize (MD5.final path). intros r.
  change (MD5.le_bytes 4 (MD5.rA r)) with
    [Z.land (MD5.rA r) 0xFF; Z.land (Z.shiftr (MD5.rA r) 8) 0xFF;
     Z.land (Z.shiftr (Z.shiftr (MD5.rA r) 8) 8) 0xFF;
     Z.land (Z.shiftr (Z.shiftr (Z.shiftr (MD5.rA r) 8) 8) 8) 0xFF].
  cbn [app]. rewrite hex_prefix.
  destruct (byte_nibbles (MD5.rA r)) as [H1 H2].
  destruct (byte_nibbles (Z.shiftr (MD5.rA r) 8)) as [H3 H4].
  destruct (byte_nibbles (Z.shiftr (Z.shiftr (MD5.rA r) 8) 8)) as [H5 H6].
  destruct (byte_nibbles (Z.shiftr (Z.shiftr (Z.shiftr (MD5.rA r) 8) 8) 8)) as [H7 H8].
  cbv zeta in *.
  unfold parseInt16. rewrite hex_value_digit by assumption.
  rewrite !parse_hex_digit_cons by assumption.
  simpl parse_hex_digits. eexists; split; [reflexivity|]. lia.
Qed.

Lemma hash_selects_class (path : string) (total : Z) :
  1 <= total ->
  exists j, In j (indices total) /\
    forall i, hash_selects {| index := i; total := total |} path = true <-> i = j.
Proof.
  intros Ht. destruct (hashNum_bounds path) as (h & Hh & Hb).
  exists (Z.rem h total + 1). split.
  - apply rem_class_in_indices; lia.
  - intros i. unfold hash_selects. rewrite Hh. simpl. apply js_rem_class; lia.
Qed.

Lemma HashBased_partition (tests : list string) (total : Z) :
  1 <= total ->
  is_partition tests total (all_shards new_HashBasedStrategy tests total).
Proof.
  intros Ht. unfold all_shards, distributeTests, HashBased_strategy.
  apply partition_of_perm; [lia|].
  unfold HashBased_distributeTests.
  rewrite (map_ext _ (fun i => filter_from
             (fun x (_ : Z) => hash_selects {| index := i; total := total |} x) 0 tests)).
  2:{ intros i. rewrite filter_from_const. reflexivity. }
  apply (filter_classes (fun i x (_ : Z) => hash_selects {| index := i; total := total |} x)).
  - apply indices_NoDup.
  - intros x p _. destruct (hash_selects_class x total Ht) as (j & Hj & Hsel).
    exists j. split; [assumption|]. intros i _. apply Hsel.
Qed.

(** ** The sort *)

Lemma insert_desc_perm (x : string * Z) (l : list (string * Z)) :
  Permutation (insert_desc x l) (x :: l).
Proof.
  induction l as [|y l IH]; simpl; [reflexivity|].
  destruct (x.2 <? y.2); [|reflexivity].
  rewrite IH. apply perm_swap.
Qed.

Lemma sort_desc_perm (l : list (string * Z)) : Permutation (sort_desc l) l.
Proof.
  induction l as [|x l IH]; simpl; [reflexivity|].
  rewrite insert_desc_perm. constructor. exact IH.
Qed.

Lemma insert_desc_sorted (x : string * Z) (l : list (string * Z)) :
  StronglySorted desc l -> StronglySorted desc (insert_desc x l).
Proof.
  induction 1 as [|y l Hs IH Hy]; simpl.
  - repeat constructor.
  - destruct (Z.ltb_spec x.2 y.2) as [Hlt|Hge].
    + constructor; [exact IH|].
      rewrite (insert_desc_perm x l). constructor; [unfold desc; lia|exact Hy].
    + constructor; [constructor; assumption|].
      constructor; [exact Hge|].
      rewrite List.Forall_forall in Hy |- *. intros z Hz.
      specialize (Hy z Hz). unfold desc in *. lia.
Qed.

Lemma sort_desc_sorted (l : list (string * Z)) : StronglySorted desc (sort_desc l).
Proof.
  induction l as [|x l IH]; simpl; [constructor|].
  apply insert_desc_sorted, IH.
Qed.

Lemma insert_desc_stable (k : Z) (x : string * Z) (l : list (string * Z)) :
  StronglySorted desc l ->
  List.filter (of_cost k) (insert_desc x l) = List.filter (of_cost k) (x :: l).
Proof.
  induction 1 as [|y l Hs IH Hy]; [reflexivity|].
  simpl insert_desc. destruct (Z.ltb_spec x.2 y.2) as [Hlt|Hge]; [|reflexivity].
  simpl in *. rewrite IH. unfold of_cost.
  destruct (Z.eqb_spec x.2 k), (Z.eqb_spec y.2 k); try reflexivity. lia.
Qed.

(** Records of equal cost keep their order: the sort is stable. *)
Lemma sort_desc_stable (k : Z) (l : list (string * Z)) :
  List.filter (of_cost k) (sort_desc l) = List.filter (of_cost k) l.
Proof.
  induction l as [|x l IH]; [reflexivity|].
  simpl sort_desc. rewrite insert_desc_stable by apply sort_desc_sorted.
  simpl. rewrite IH. reflexivity.
Qed.

(** ** The least loaded shard *)

Lemma reduce_min_spec (shards rest : list shard) (idx min : nat) :
  drop idx shards = rest ->
  (min < length shards)%nat ->
  (forall j s, (j < idx)%nat -> shards !! j = Some s ->
               totalSize (shards !!! min) <= totalSize s) ->
  (forall j s, (j < min)%nat -> shards !! j = Some s ->
               totalSize (shards !!! min) < totalSize s) ->
  let r := reduce_min shards idx rest min in
  (r < length shards)%nat /\
  (forall j s, shards !! j = Some s -> totalSize (shards !!! r) <= totalSize s) /\
  (forall j s, (j < r)%nat -> shards !! j = Some s ->
               totalSize (shards !!! r) < totalSize s).
Proof.
  revert idx min. induction rest as [|s rest IH]; intros idx min Hdrop Hmin Hle Hlt; simpl.
  - repeat split; [assumption| |assumption].
    intros j s Hj. apply (Hle j); [|assumption].
    apply lookup_lt_Some in Hj.
    assert (length (drop idx shards) = 0%nat) by (rewrite Hdrop; reflexivity).
    rewrite length_drop in H. lia.
  - assert (Hs : shards !! idx = Some s).
    { rewrite <- (Nat.add_0_r idx), <- lookup_drop, Hdrop. reflexivity. }
    assert (Hdrop' : drop (S idx) shards = rest).
    { erewrite drop_S in Hdrop by eassumption. congruence. }
    pose proof (lookup_lt_Some _ _ _ Hs) as Hidx.
    apply IH; [assumption| | |].
    + destruct (totalSize s <? totalSize (shards !!! min)); assumption.
    + intros j s' Hj Hj'. destruct (Z.ltb_spec (totalSize s) (totalSize (shards !!! min))).
      * rewrite (list_lookup_total_correct _ _ _ Hs).
        destruct (decide (j = idx)) as [->|].
        { assert (s' = s) by congruence. subst. lia. }
        specialize (Hle j s' ltac:(lia) Hj'). lia.
      * destruct (decide (j = idx)) as [->|].
        { assert (s' = s) by congruence. subst. lia. }
        apply (Hle j); [lia|assumption].
    + intros j s' Hj Hj'. destruct (Z.ltb_spec (totalSize s) (totalSize (shards !!! min))).
      * rewrite (list_lookup_total_correct _ _ _ Hs).
        specialize (Hle j s' Hj Hj'). lia.
      * apply (Hlt j); assumption.
Qed.

(** [minShard] is the first shard of least running total. *)
Lemma minShard_spec (shards : list shard) :
  shards <> [] ->
  exists s, shards !! minShard shards = Some s /\
    (forall j s', shards !! j = Some s' -> totalSize s <= totalSize s') /\
    (forall j s', (j < minShard shards)%nat -> shards !! j = Some s' ->
                  totalSize s < totalSize s').
Proof.
  intros Hne. unfold minShard.
  destruct (reduce_min_spec shards shards 0 0) as (Hr & Hle & Hlt).
  - reflexivity.
  - destruct shards; [congruence|simpl; lia].
  - intros j s Hj; lia.
  - intros j s Hj; lia.
  - destruct (lookup_lt_is_Some_2 _ _ Hr) as [s Hs].
    exists s. rewrite (list_lookup_total_correct _ _ _ Hs) in Hle, Hlt.
    repeat split; assumption.
Qed.

Lemma place_spec (shards : list shard) (file : string * Z) :
  shards <> [] ->
  exists m s, shards !! m = Some s /\
    (forall j s', shards !! j = Some s' -> totalSize s <= totalSize s') /\
    place shards file = Normal (<[m := add_file s file]> shards).
Proof.
  intros Hne. destruct (minShard_spec shards Hne) as (s & Hs & Hle & _).
  exists (minShard shards), s. repeat split; [assumption..|].
  unfold place. rewrite Hs. reflexivity.
Qed.

Lemma insert_nonempty {A : Type} (l : list A) (i : nat) (x : A) :
  l <> [] -> <[i := x]> l <> [].
Proof.
  intros H E. apply (f_equal length) in E. rewrite length_insert in E.
  destruct l; [congruence|discriminate].
Qed.

Lemma elem_of_insert_inv {A : Type} (l : list A) (i : nat) (x y : A) :
  y ∈ <[i := x]> l -> y = x \/ y ∈ l.
Proof.
  intros H. apply list_elem_of_lookup_1 in H as [j Hj].
  destruct (decide (i = j)) as [->|Hne].
  - left. pose proof (lookup_lt_Some _ _ _ Hj) as Hlt.
    rewrite length_insert in Hlt.
    rewrite list_lookup_insert_eq in Hj by assumption. congruence.
  - right. rewrite list_lookup_insert_ne in Hj by assumption.
    eapply list_elem_of_lookup_2; eassumption.
Qed.

Lemma concat_paths_insert (shards : list shard) (m : nat) (s : shard) (file : string * Z) :
  shards !! m = Some s ->
  Permutation (concat (List.map paths (<[m := add_file s file]> shards)))
              (file.1 :: concat (List.map paths shards)).
Proof.
  intros Hs. pose proof (lookup_lt_Some _ _ _ Hs) as Hm.
  rewrite insert_take_drop by assumption.
  rewrite <- (take_drop_middle shards m s Hs) at 3.
  generalize (take m shards) (drop (S m) shards). intros l1 l2.
  rewrite !List.map_app, !concat_app. simpl.
  generalize (concat (List.map paths l1)) (concat (List.map paths l2)). intros A C.
  rewrite Permutation_middle. apply Permutation_app_head.
  rewrite <- app_assoc. simpl. symmetry. apply Permutation_middle.
Qed.

(** The loop never raises on a non-empty array of shards, and deals every
    file to one shard. *)
Lemma place_all_perm (files : list (string * Z)) (shards : list shard) :
  shards <> [] ->
  exists shards', place_all shards files = Normal shards' /\
    length shards' = length shards /\
    Permutation (concat (List.map paths shards'))
                (concat (List.map paths shards) ++ List.map fst files).
Proof.
  revert shards. induction files as [|f files IH]; intros shards Hne; simpl.
  - exists shards. rewrite app_nil_r. auto.
  - destruct (place_spec shards f Hne) as (m & s & Hs & _ & ->). simpl.
    destruct (IH (<[m := add_file s f]> shards)) as (sh' & -> & Hlen & Hp).
    { apply insert_nonempty; assumption. }
    exists sh'. repeat split.
    + rewrite Hlen. apply length_insert.
    + rewrite Hp, (concat_paths_insert _ _ _ _ Hs).
      simpl. apply Permutation_middle.
Qed.

Section Loads.
Variable cost : string -> Z.
Variable bound : Z.

Lemma sum_cost_app (l1 l2 : list string) :
  sum_cost cost (l1 ++ l2) = sum_cost cost l1 + sum_cost cost l2.
Proof.
  unfold sum_cost. induction l1 as [|x l1 IH]; simpl; [lia|].
  rewrite IH. lia.
Qed.

Lemma add_file_accounted (s : shard) (f : string * Z) :
  accounted cost s -> priced cost f -> accounted cost (add_file s f).
Proof.
  unfold accounted, priced, add_file. simpl. intros -> ->.
  rewrite sum_cost_app. unfold sum_cost. simpl. lia.
Qed.

(** The running totals are the summed costs of the paths, and no two of
    them differ by more than the largest cost. *)
Lemma place_all_loads (files : list (string * Z)) (shards shards' : list shard) :
  shards <> [] ->
  Forall (priced cost) files ->
  Forall (fun f => 0 <= f.2 <= bound) files ->
  Forall (accounted cost) shards ->
  balanced bound shards ->
  place_all shards files = Normal shards' ->
  Forall (accounted cost) shards' /\ balanced bound shards'.
Proof.
  revert shards. induction files as [|f files IH];
    intros shards Hne Hpr Hb Hacc Hbal Hrun; simpl in Hrun.
  - inversion Hrun; subst. auto.
  - destruct (place_spec shards f Hne) as (m & s & Hs & Hmin & Hpl).
    rewrite Hpl in Hrun. simpl in Hrun.
    apply Forall_cons in Hpr as [Hpf Hpr]. apply Forall_cons in Hb as [Hbf Hb].
    assert (Hin : s ∈ shards) by (eapply list_elem_of_lookup_2; eassumption).
    apply (IH (<[m := add_file s f]> shards)); try assumption.
    + apply insert_nonempty; assumption.
    + apply Forall_insert; [assumption|].
      apply add_file_accounted; [|assumption].
      rewrite Forall_forall in Hacc. apply Hacc. assumption.
    + intros s1 s2 H1 H2.
      apply elem_of_insert_inv in H1, H2.
      destruct H1 as [->|H1], H2 as [->|H2]; simpl.
      * lia.
      * apply list_elem_of_lookup_1 in H2 as [j Hj].
        specialize (Hmin j s2 Hj). lia.
      * specialize (Hbal s1 s H1 Hin). lia.
      * apply Hbal; assumption.
Qed.
End Loads.

(** ** The greedy assignment as a whole *)

Lemma fresh_shards_nonempty (total : Z) : 1 <= total -> fresh_shards total <> [].
Proof.
  intros H E. apply (f_equal length) in E. unfold fresh_shards in E.
  rewrite length_replicate in E. simpl in E. lia.
Qed.

Lemma fresh_shards_paths (total : Z) :
  concat (List.map paths (fresh_shards total)) = [].
Proof.
  unfold fresh_shards. induction (Z.to_nat total) as [|n IH]; simpl; auto.
Qed.

Lemma greedy_shards (files : list (string * Z)) (total : Z) :
  1 <= total ->
  exists shards, place_all (fresh_shards total) (sort_desc files) = Normal shards /\
    length shards = Z.to_nat total /\
    Permutation (concat (List.map paths shards)) (List.map fst files).
Proof.
  intros Ht.
  destruct (place_all_perm (sort_desc files) (fresh_shards total)
              (fresh_shards_nonempty total Ht)) as (shards & Hrun & Hlen & Hp).
  exists shards. repeat split; [assumption| |].
  - rewrite Hlen. unfold fresh_shards. apply length_replicate.
  - rewrite Hp, fresh_shards_paths. simpl.
    apply Permutation_map, sort_desc_perm.
Qed.

Lemma greedy_at (files : list (string * Z)) (total : Z) (shards : list shard)
    (k : nat) (s : shard) :
  place_all (fresh_shards total) (sort_desc files) = Normal shards ->
  shards !! k = Some s ->
  greedy files {| index := Z.of_nat (S k); total := total |} = Normal (paths s).
Proof.
  intros Hrun Hs. unfold greedy. simpl. rewrite Hrun. simpl.
  unfold array_get. destruct (Z.ltb_spec (Z.of_nat (S k) - 1) 0); [lia|].
  replace (Z.to_nat (Z.of_nat (S k) - 1)) with k by lia.
  rewrite Hs. reflexivity.
Qed.

Lemma map_seq_lookup {A B : Type} (g : nat -> B) (h : A -> B) (l : list A) (off : nat) :
  (forall k x, l !! k = Some x -> g (off + k)%nat = h x) ->
  List.map g (seq off (length l)) = List.map h l.
Proof.
  revert off. induction l as [|a l IH]; intros off H; simpl; [reflexivity|].
  f_equal.
  - rewrite <- (H 0%nat a eq_refl). f_equal. lia.
  - apply IH. intros k x Hk. rewrite <- (H (S k) x Hk). f_equal. lia.
Qed.

Lemma greedy_all (files : list (string * Z)) (total : Z) (shards : list shard) :
  place_all (fresh_shards total) (sort_desc files) = Normal shards ->
  length shards = Z.to_nat total ->
  List.map (fun i => greedy files {| index := i; total := total |}) (indices total) =
  List.map Normal (List.map paths shards).
Proof.
  intros Hrun Hlen. unfold indices. rewrite !List.map_map, <- Hlen.
  apply map_seq_lookup. intros k s Hs.
  apply (greedy_at files total shards k s Hrun Hs).
Qed.

Lemma greedy_partition (cost : string -> Z) (tests : list string) (total : Z) :
  1 <= total ->
  is_partition tests total
    (List.map (fun i => greedy (List.map (fun p => (p, cost p)) tests)
                          {| index := i; total := total |}) (indices total)).
Proof.
  intros Ht. set (files := List.map (fun p => (p, cost p)) tests).
  destruct (greedy_shards files total Ht) as (shards & Hrun & Hlen & Hp).
  assert (Hfst : List.map fst files = tests).
  { unfold files. rewrite List.map_map. simpl. apply map_id. }
  rewrite Hfst in Hp.
  exists (List.map paths shards). repeat split.
  - apply greedy_all; assumption.
  - rewrite length_map, Hlen. lia.
  - assumption.
  - intros Hnd. apply NoDup_concat_disjoint. rewrite Hp. assumption.
Qed.

Lemma max_cost_nonneg (cost : string -> Z) (l : list string) : 0 <= max_cost cost l.
Proof. unfold max_cost. induction l; simpl; lia. Qed.

Lemma max_cost_bound (cost : string -> Z) (l : list string) (p : string) :
  In p l -> cost p <= max_cost cost l.
Proof.
  unfold max_cost. induction l as [|x l IH]; simpl; [contradiction|].
  intros [->|H]; [lia|]. specialize (IH H). lia.
Qed.


Lemma getFileSize_nonneg (self : FileSizeStrategy) (p : string) : 0 <= getFileSize self p.
Proof. unfold getFileSize. destruct (stat_size self p); lia. Qed.

Lemma duration_nonneg (self : SmartStrategy) (p : string) :
  (forall q d, testHistory self !! q = Some d -> 0 <= d) -> 0 <= duration self p.
Proof.
  intros H. unfold duration. destruct (testHistory self !! p) as [d|] eqn:E; [|lia].
  specialize (H p d E). destruct (d =? 0); lia.
Qed.


(** ** Checks of the embedding against known values *)

Example md5_empty : MD5.hexdigest "" = "d41d8cd98f00b204e9800998ecf8427e"%string.
Proof. vm_compute. reflexivity. Qed.

Example md5_abc : MD5.hexdigest "abc" = "900150983cd24fb0d6963f7d28e17f72"%string.
Proof. vm_compute. reflexivity. Qed.

Example md5_two_blocks :
  MD5.hexdigest
    "12345678901234567890123456789012345678901234567890123456789012345678901234567890" =
  "57edf4a22be3c955ac49da2e2107b67a"%string.
Proof. vm_compute. reflexivity. Qed.

Example hashNum_test1 : hashNum "/tests/test1.spec.ts" = Some 0x203d6f23.
Proof. vm_compute. reflexivity. Qed.

(** The round-robin scenario of the specification and of the repository's
    test: six tests over three shards. *)
Example RoundRobin_scenario :
  List.map (fun i => RoundRobin_distributeTests scenario_tests {| index := i; total := 3 |})
    [1; 2; 3; 4] =
  [["a"; "d"]; ["b"; "e"]; ["c"; "f"]; []]%string.
Proof. vm_compute. reflexivity. Qed.

(** The partition is one of a fixed history.  [updateTestDuration] between
    the call for shard 1 and the call for shard 2 changes the order of the
    sort, and the two results no longer partition the input: "a" is in both
    and "b" in neither. *)
Example history_update_between_calls :
  let before := {| testHistory := ∅ |} in
  let after := updateTestDuration before "b" 5000 in
  distributeTests before ["a"; "b"]%string {| index := 1; total := 2 |} =
    Normal ["a"]%string /\
  distributeTests after ["a"; "b"]%string {| index := 2; total := 2 |} =
    Normal ["a"]%string.
Proof. split; vm_compute; reflexivity. Qed.

(** ** The sort does not depend on the order of its input when the costs
    are distinct *)

Lemma sorted_perm_eq (l1 l2 : list (string * Z)) :
  StronglySorted desc l1 -> StronglySorted desc l2 ->
  Permutation l1 l2 -> NoDup (List.map snd l1) -> l1 = l2.
Proof.
  intros H1. revert l2. induction H1 as [|x l1 Hs1 IH Hx]; intros l2 H2 Hp Hnd.
  - apply Permutation_nil in Hp. congruence.
  - destruct H2 as [|y l2 Hs2 Hy].
    + symmetry in Hp. apply Permutation_nil in Hp. discriminate.
    + simpl in Hnd. apply NoDup_cons in Hnd as [Hnx Hnd].
      assert (x = y) as <-.
      { destruct (decide (x = y)) as [|Hne]; [assumption|]. exfalso.
        assert (Hxin : In x l2).
        { assert (In x (y :: l2)) as [?|?] by (eapply Permutation_in; [exact Hp|left; reflexivity]);
            [congruence|assumption]. }
        assert (Hyin : In y l1).
        { assert (In y (x :: l1)) as [?|?]
            by (eapply Permutation_in; [symmetry; exact Hp|left; reflexivity]);
            [congruence|assumption]. }
        rewrite List.Forall_forall in Hx, Hy.
        specialize (Hx y Hyin). specialize (Hy x Hxin). unfold desc in *.
        apply Hnx. apply list_elem_of_In. apply in_map_iff.
        exists y. split; [lia|assumption]. }
      f_equal. apply IH; [assumption| |assumption].
      eapply Permutation_cons_inv. exact Hp.
Qed.

Lemma sort_desc_perm_eq (l1 l2 : list (string * Z)) :
  Permutation l1 l2 -> NoDup (List.map snd l1) -> sort_desc l1 = sort_desc l2.
Proof.
  intros Hp Hnd. apply sorted_perm_eq.
  - apply sort_desc_sorted.
  - apply sort_desc_sorted.
  - rewrite !sort_desc_perm. assumption.
  - rewrite (Permutation_map snd (sort_desc_perm l1)). assumption.
Qed.

Lemma greedy_perm (files1 files2 : list (string * Z)) (info : ShardInfo) :
  Permutation files1 files2 -> NoDup (List.map snd files1) ->
  greedy files1 info = greedy files2 info.
Proof.
  intros Hp Hnd. unfold greedy. rewrite (sort_desc_perm_eq files1 files2 Hp Hnd).
  reflexivity.
Qed.

(** ** Calls outside the partition *)

Lemma filter_from_false {A : Type} (pred : A -> Z -> bool) (l : list A) (k : Z) :
  (forall x p, k <= p -> pred x p = false) -> filter_from pred k l = [].
Proof.
  revert k. induction l as [|x l IH]; intros k H; simpl; [reflexivity|].
  rewrite H by lia. apply IH. intros y p Hp. apply H. lia.
Qed.

Lemma RoundRobin_out_of_range (tests : list string) (info : ShardInfo) :
  1 <= total info -> ~ (1 <= index info <= total info) ->
  RoundRobin_distributeTests tests info = [].
Proof.
  intros Ht Hi. unfold RoundRobin_distributeTests, js_filter.
  apply filter_from_false. intros _ p Hp.
  destruct (strict_eq _ _) eqn:E; [|reflexivity].
  apply js_rem_class in E; [|lia..].
  pose proof (Z.rem_bound_pos p (total info) Hp ltac:(lia)). lia.
Qed.

Lemma HashBased_out_of_range (tests : list string) (info : ShardInfo) :
  1 <= total info -> ~ (1 <= index info <= total info) ->
  HashBased_distributeTests tests info = [].
Proof.
  intros Ht Hi. unfold HashBased_distributeTests.
  induction tests as [|x l IH]; simpl; [reflexivity|].
  destruct (hash_selects info x) eqn:E; [|exact IH].
  destruct (hash_selects_class x (total info) Ht) as (j & Hj & Hsel).
  apply in_indices in Hj. destruct info as [i t]. simpl in *.
  apply Hsel in E. lia.
Qed.

Lemma place_length (shards shards' : list shard) (file : string * Z) :
  place shards file = Normal shards' -> length shards' = length shards.
Proof.
  unfold place. destruct (shards !! minShard shards); [|discriminate].
  intros [= <-]. apply length_insert.
Qed.

Lemma place_all_length (files : list (string * Z)) (shards shards' : list shard) :
  place_all shards files = Normal shards' -> length shards' = length shards.
Proof.
  revert shards. induction files as [|f files IH]; intros shards; simpl.
  - intros [= <-]. reflexivity.
  - destruct (place shards f) as [sh|e] eqn:E; simpl; [|discriminate].
    intros H. rewrite (IH _ H). eapply place_length; eassumption.
Qed.

(** The greedy strategies read [shards[index - 1].paths] unguarded: an
    index outside [1 .. total] raises. *)
Lemma greedy_out_of_range (files : list (string * Z)) (info : ShardInfo) :
  ~ (1 <= index info <= total info) -> greedy files info = Throws TypeError.
Proof.
  intros Hi. unfold greedy.
  destruct (place_all _ _) as [shards|[]] eqn:E; simpl; [|reflexivity].
  apply place_all_length in E. unfold fresh_shards in E.
  rewrite length_replicate in E.
  unfold array_get. destruct (Z.ltb_spec (index info - 1) 0); [reflexivity|].
  rewrite lookup_ge_None_2 by lia. reflexivity.
Qed.

Lemma greedy_empty (info : ShardInfo) :
  1 <= index info <= total info -> greedy [] info = Normal [].
Proof.
  intros Hi. unfold greedy. simpl. unfold array_get.
  destruct (Z.ltb_spec (index info - 1) 0); [lia|].
  unfold fresh_shards. rewrite lookup_replicate_2 by lia. reflexivity.
Qed.

(** ** The properties of the strategies *)

(** C1. For each of the four strategies, every [total >= 1] and every test
    list, the calls of [distributeTests] for the indices [1 .. total] all
    return, and their results deal the input out: together they hold every
    occurrence of every test exactly once, and no two of them share a test
    when the input names no test twice. *)
Theorem C1_strategies_partition (total : Z) (tests : list string)
    (fs : FileSizeStrategy) (sm : SmartStrategy) :
  1 <= total ->
  is_partition tests total (all_shards new_RoundRobinStrategy tests total) /\
  is_partition tests total (all_shards new_HashBasedStrategy tests total) /\
  is_partition tests total (all_shards fs tests total) /\
  is_partition tests total (all_shards sm tests total).
Proof.
  intros Ht. repeat split.
  - apply RoundRobin_partition; assumption.
  - apply HashBased_partition; assumption.
  - apply (greedy_partition (getFileSize fs)); assumption.
  - apply (greedy_partition (duration sm)); assumption.
Qed.

Lemma C1_strategies_partition_witness :
  is_partition scenario_tests 3 (all_shards new_RoundRobinStrategy scenario_tests 3) /\
  is_partition scenario_tests 3 (all_shards new_HashBasedStrategy scenario_tests 3) /\
  is_partition scenario_tests 3 (all_shards scenario_sizes scenario_tests 3) /\
  is_partition scenario_tests 3 (all_shards scenario_history scenario_tests 3).
Proof.
  apply (C1_strategies_partition 3 scenario_tests scenario_sizes scenario_history). lia.
Defined.

Lemma empty_tests_in_range (fs : FileSizeStrategy) (sm : SmartStrategy) (info : ShardInfo) :
  1 <= index info <= total info ->
  distributeTests new_RoundRobinStrategy [] info = Normal [] /\
  distributeTests new_HashBasedStrategy [] info = Normal [] /\
  distributeTests fs [] info = Normal [] /\
  distributeTests sm [] info = Normal [].
Proof.
  intros Hi. repeat split; try reflexivity; apply greedy_empty; assumption.
Qed.

(** C3, where the code departs from it.  For an index outside
    [1 .. total], [RoundRobinStrategy] and [HashBasedStrategy] return the
    empty list, as the repository's test of the former expects;
    [FileSizeStrategy] and [SmartStrategy] raise a [TypeError] instead, for
    every file system and history and on every test list, the empty one
    included. *)
Theorem C3_out_of_range_index (fs : FileSizeStrategy) (sm : SmartStrategy)
    (tests : list string) (info : ShardInfo) :
  1 <= total info ->
  ~ (1 <= index info <= total info) ->
  distributeTests new_RoundRobinStrategy tests info = Normal [] /\
  distributeTests new_HashBasedStrategy tests info = Normal [] /\
  distributeTests fs tests info = Throws TypeError /\
  distributeTests sm tests info = Throws TypeError.
Proof.
  intros Ht Hi.
  unfold distributeTests, RoundRobin_strategy, HashBased_strategy,
    FileSize_strategy, Smart_strategy, FileSize_distributeTests, Smart_distributeTests.
  split; [|split; [|split]].
  - f_equal. apply RoundRobin_out_of_range; assumption.
  - f_equal. apply HashBased_out_of_range; assumption.
  - apply greedy_out_of_range; assumption.
  - apply greedy_out_of_range; assumption.
Qed.

Lemma C3_out_of_range_index_witness :
  distributeTests new_RoundRobinStrategy scenario_tests {| index := 4; total := 3 |} =
    Normal [] /\
  distributeTests new_HashBasedStrategy scenario_tests {| index := 4; total := 3 |} =
    Normal [] /\
  distributeTests scenario_sizes scenario_tests {| index := 4; total := 3 |} =
    Throws TypeError /\
  distributeTests scenario_history scenario_tests {| index := 4; total := 3 |} =
    Throws TypeError.
Proof.
  apply (C3_out_of_range_index scenario_sizes scenario_history scenario_tests
           {| index := 4; total := 3 |}); simpl; lia.
Defined.



(** C7. On the costs a:1000, b:2000, c:1500, d:500, e:3000, f:800 and
    [total = 2], in whatever order the six tests are listed,
    [FileSizeStrategy] sorts them into e, b, c, a, f, d, and returns e, a, d
    (summed cost 4500) for shard 1 and b, c, f (summed cost 4300) for
    shard 2.  That every item goes to the first shard of least running
    total is [minShard_spec]. *)
Theorem C7_size_balanced_scenario (tests : list string) :
  Permutation tests scenario_tests ->
  List.map fst (sort_desc (List.map (fun p => (p, getFileSize scenario_sizes p)) tests)) =
    ["e"; "b"; "c"; "a"; "f"; "d"]%string /\
  distributeTests scenario_sizes tests {| index := 1; total := 2 |} =
    Normal ["e"; "a"; "d"]%string /\
  distributeTests scenario_sizes tests {| index := 2; total := 2 |} =
    Normal ["b"; "c"; "f"]%string /\
  sum_cost (getFileSize scenario_sizes) ["e"; "a"; "d"]%string = 4500 /\
  sum_cost (getFileSize scenario_sizes) ["b"; "c"; "f"]%string = 4300.
Proof.
  intros Hp.
  set (price := fun p : string => (p, getFileSize scenario_sizes p)).
  assert (Hfiles : Permutation (List.map price tests) (List.map price scenario_tests))
    by (apply Permutation_map; assumption).
  assert (Hnd : NoDup (List.map snd (List.map price tests))).
  { rewrite Hfiles. apply (bool_decide_unpack _). vm_compute. reflexivity. }
  unfold distributeTests, FileSize_strategy, FileSize_distributeTests.
  fold price. rewrite !(greedy_perm _ _ _ Hfiles Hnd).
  rewrite (sort_desc_perm_eq _ _ Hfiles Hnd).
  repeat split; vm_compute; reflexivity.
Qed.

Lemma C7_size_balanced_scenario_witness :
  List.map fst (sort_desc (List.map (fun p => (p, getFileSize scenario_sizes p))
                             (rev scenario_tests))) =
    ["e"; "b"; "c"; "a"; "f"; "d"]%string /\
  distributeTests scenario_sizes (rev scenario_tests) {| index := 1; total := 2 |} =
    Normal ["e"; "a"; "d"]%string /\
  distributeTests scenario_sizes (rev scenario_tests) {| index := 2; total := 2 |} =
    Normal ["b"; "c"; "f"]%string /\
  sum_cost (getFileSize scenario_sizes) ["e"; "a"; "d"]%string = 4500 /\
  sum_cost (getFileSize scenario_sizes) ["b"; "c"; "f"]%string = 4300.
Proof.
  apply (C7_size_balanced_scenario (rev scenario_tests)).
  symmetry. apply Permutation_rev.
Defined.

(** C9. [HashBasedStrategy.distributeTests] is a function of its arguments
    alone, and a path is in the subset of shard [i] exactly when it is in
    the input and hashes to [i]: the shard of a path depends on the path and
    on [total] only, and for [total >= 1] it is one index of [1 .. total]. *)
Theorem C9_hash_deterministic (total : Z) (path : string) :
  1 <= total ->
  (forall (s1 s2 : HashBasedStrategy) tests i,
     distributeTests s1 tests {| index := i; total := total |} =
     distributeTests s2 tests {| index := i; total := total |}) /\
  exists j, 1 <= j <= total /\ shard_of total path = Some j /\
    forall (s : HashBasedStrategy) tests i,
      exists subset,
        distributeTests s tests {| index := i; total := total |} = Normal subset /\
        (In path subset <-> In path tests /\ i = j).
Proof.
  intros Ht. split; [reflexivity|].
  destruct (hash_selects_class path total Ht) as (j & Hj & Hsel).
  apply in_indices in Hj. exists j. split; [assumption|]. split.
  - specialize (Hsel j). destruct Hsel as [_ Hsel]. specialize (Hsel eq_refl).
    unfold shard_of, hash_selects in *. simpl in Hsel.
    destruct (hashNum path) as [h|]; [|discriminate].
    destruct (js_rem h total) as [r|]; [|discriminate].
    simpl in Hsel. apply Z.eqb_eq in Hsel. f_equal. lia.
  - intros s tests i. eexists. split; [reflexivity|].
    unfold HashBased_distributeTests. rewrite filter_In, Hsel. reflexivity.
Qed.

Lemma C9_hash_deterministic_witness :
  exists j, 1 <= j <= 2 /\ shard_of 2 "/tests/test1.spec.ts" = Some j /\
    forall (s : HashBasedStrategy) tests i,
      exists subset,
        distributeTests s tests {| index := i; total := 2 |} = Normal subset /\
        (In "/tests/test1.spec.ts"%string subset <->
         In "/tests/test1.spec.ts"%string tests /\ i = j).
Proof.
  apply (C9_hash_deterministic 2 "/tests/test1.spec.ts"). lia.
Defined.

(** ** [acquireShardLock] without interference *)

Lemma relock_after_unlink (self : AutoShardCoordinator) (i : Z) (w : World) :
  set_locks (set_locks w (delete i (locks w)))
    (<[i := own_lock self (set_locks w (delete i (locks w)))]>
       (locks (set_locks w (delete i (locks w))))) = relock self i w.
Proof.
  unfold relock, set_locks, own_lock. simpl. rewrite insert_delete_eq. reflexivity.
Qed.

(** A call that unlinks the lock it found creates its own at once. *)
Lemma run_unlink (self : AutoShardCoordinator) (i : Z) (w : World)
    (c : call) (fuel : nat) :
  is_Some (locks w !! i) -> at_unlink (at_pc c) ->
  run_call self i (S (S fuel)) w c =
  (relock self i w, {| at_pc := Returned true; depth := S (depth c) |}).
Proof.
  intros [f Hf] Hc. rewrite <- (relock_after_unlink self i w).
  destruct c as [p d]. simpl in Hc.
  destruct Hc as [-> | [-> | ->]];
    cbn [run_call at_pc acquire_step]; unfold unlink_then; rewrite Hf;
    cbn [run_call recurse at_pc acquire_step set_locks locks depth goto];
    rewrite lookup_delete_eq; destruct fuel; reflexivity.
Qed.

Lemma run_call_unfold (self : AutoShardCoordinator) (i : Z) (fuel : nat)
    (w : World) (c : call) :
  run_call self i (S fuel) w c =
  match at_pc c with
  | Returned _ => (w, c)
  | _ => let '(w', c') := acquire_step self i w c in run_call self i fuel w' c'
  end.
Proof. reflexivity. Qed.

Ltac call_step :=
  rewrite run_call_unfold; cbn [at_pc enter goto acquire_step depth].

(** A call that runs alone returns within five accesses, after at most one
    recursive call. *)
Lemma run_enter_spec (self : AutoShardCoordinator) (i : Z) (w : World) :
  run_call self i 5 w enter =
  if lock_yields self i w then
    (relock self i w,
     {| at_pc := Returned true;
        depth := match locks w !! i with Some _ => 1 | None => 0 end |})
  else (w, {| at_pc := Returned false; depth := 0 |}).
Proof.
  unfold lock_yields.
  destruct (locks w !! i) as [[d|]|] eqn:Hl.
  - call_step. rewrite Hl. call_step. rewrite Hl.
    destruct (300000 <? now w - timestamp d).
    + rewrite run_unlink; [reflexivity|rewrite Hl; eauto|left; reflexivity].
    + destruct (win32 self); simpl negb; cbv iota.
      * reflexivity.
      * call_step.
        destruct (decide (lock_pid d ∈ live w)); [reflexivity|].
        rewrite run_unlink; [reflexivity|rewrite Hl; eauto|right; left; reflexivity].
  - call_step. rewrite Hl. call_step. rewrite Hl.
    rewrite run_unlink; [reflexivity|rewrite Hl; eauto|right; right; reflexivity].
  - call_step. rewrite Hl. reflexivity.
Qed.

Lemma acquireShardLock_spec (self : AutoShardCoordinator) (i : Z) (w : World) :
  acquireShardLock self i w =
  if lock_yields self i w then (Some true, relock self i w) else (Some false, w).
Proof.
  unfold acquireShardLock. rewrite run_enter_spec.
  destruct (lock_yields self i w); reflexivity.
Qed.

(** The call always reaches its [return]. *)
Lemma acquireShardLock_returns (self : AutoShardCoordinator) (i : Z) (w : World) :
  exists b w', acquireShardLock self i w = (Some b, w').
Proof.
  rewrite acquireShardLock_spec. destruct (lock_yields self i w); eauto.
Qed.


(** ** [determineNextAvailableShard] *)

Lemma scan_spec (self : AutoShardCoordinator) (statuses : gmap Z ShardStatus)
    (ids : list Z) (w : World) :
  scan self statuses ids w =
  match List.find (can_claim self statuses w) ids with
  | Some j => (Some j, grant self statuses w j)
  | None => (None, w)
  end.
Proof.
  induction ids as [|i ids IH]; [reflexivity|].
  simpl. unfold can_claim at 1, grant.
  destruct (statuses !! i) as [st|] eqn:Hst; [|exact IH].
  destruct (claimable_status (status st)); [|exact IH].
  rewrite acquireShardLock_spec.
  destruct (lock_yields self i w); simpl; [rewrite Hst; reflexivity|exact IH].
Qed.

Lemma init_fold_lookup (ids : list Z) (t : gmap Z ShardStatus) (k : Z) :
  foldl (fun t i => match t !! i with
                    | Some _ => t
                    | None => <[i := fresh_status i]> t
                    end) t ids !! k =
  match t !! k with
  | Some st => Some st
  | None => if decide (k ∈ ids) then Some (fresh_status k) else None
  end.
Proof.
  revert t. induction ids as [|i ids IH]; intros t; cbn [foldl].
  - destruct (t !! k); [reflexivity|]. rewrite decide_False; [reflexivity|].
    apply not_elem_of_nil.
  - rewrite IH. destruct (decide (i = k)) as [->|Hne].
    + destruct (t !! k) as [st|] eqn:Hk.
      * rewrite Hk. reflexivity.
      * rewrite lookup_insert_eq. rewrite decide_True; [reflexivity|]. left.
    + assert (Hk : (match t !! i with
                    | Some _ => t
                    | None => <[i := fresh_status i]> t
                    end) !! k = t !! k).
      { destruct (t !! i); [reflexivity|]. apply lookup_insert_ne. assumption. }
      rewrite Hk. destruct (t !! k); [reflexivity|].
      destruct (decide (k ∈ ids)) as [Hin|Hin].
      * rewrite decide_True; [reflexivity|]. right. assumption.
      * rewrite decide_False; [reflexivity|].
        rewrite elem_of_cons. intros [?|?]; [congruence|contradiction].
Qed.

Lemma init_statuses_lookup (total : Z) (t : gmap Z ShardStatus) (k : Z) :
  init_statuses total t !! k =
  match t !! k with
  | Some st => Some st
  | None => if decide (1 <= k <= total) then Some (fresh_status k) else None
  end.
Proof.
  unfold init_statuses. rewrite init_fold_lookup.
  destruct (t !! k); [reflexivity|].
  destruct (decide (k ∈ indices total)) as [Hin|Hin];
    rewrite list_elem_of_In, in_indices in Hin;
    [rewrite decide_True by assumption|rewrite decide_False by assumption]; reflexivity.
Qed.

(** Every id the scan visits has a record, which carries the status the
    table gives the id. *)
Lemma init_statuses_visit (total : Z) (w : World) (k : Z) :
  1 <= k <= total ->
  exists st, init_statuses total (readStatus w) !! k = Some st /\
             status st = status_at w k.
Proof.
  intros Hk. rewrite init_statuses_lookup. unfold status_at.
  destruct (readStatus w !! k) as [st|]; [eauto|].
  rewrite decide_True by assumption. eauto.
Qed.

Lemma init_statuses_state (total : Z) (w : World) (k : Z) (st : ShardStatus) :
  init_statuses total (readStatus w) !! k = Some st -> status st = status_at w k.
Proof.
  rewrite init_statuses_lookup. unfold status_at.
  destruct (readStatus w !! k) as [st'|]; [congruence|].
  destruct (decide _); [|discriminate]. intros [= <-]. reflexivity.
Qed.

Lemma claimable_alt (self : AutoShardCoordinator) (w : World) (i : Z) :
  claimable self w i = claimable_status (status_at w i) && lock_yields self i w.
Proof.
  unfold claimable. rewrite acquireShardLock_spec.
  destruct (lock_yields self i w); reflexivity.
Qed.

Lemma can_claim_claimable (self : AutoShardCoordinator) (w : World) (i : Z) :
  1 <= i <= totalShards self ->
  can_claim self (init_statuses (totalShards self) (readStatus w)) w i = claimable self w i.
Proof.
  intros Hi. rewrite claimable_alt. unfold can_claim.
  destruct (init_statuses_visit (totalShards self) w i Hi) as (st & -> & ->).
  reflexivity.
Qed.

Lemma find_ext_on {A : Type} (f g : A -> bool) (l : list A) :
  (forall x, In x l -> f x = g x) -> List.find f l = List.find g l.
Proof.
  induction l as [|a l IH]; intros H; simpl; [reflexivity|].
  rewrite (H a) by (left; reflexivity).
  destruct (g a); [reflexivity|]. apply IH. intros x Hx. apply H. right. exact Hx.
Qed.

(** What a call returns and leaves: the first claimable id of [1 .. total],
    granted, or nothing and the world as it was. *)
Lemma determineNext_spec (self : AutoShardCoordinator) (w : World) :
  determineNextAvailableShard self w =
  let statuses := init_statuses (totalShards self) (readStatus w) in
  match List.find (claimable self w) (indices (totalShards self)) with
  | Some j => (Some j, grant self statuses w j)
  | None => (None, w)
  end.
Proof.
  unfold determineNextAvailableShard. rewrite scan_spec. cbv zeta.
  rewrite (find_ext_on (can_claim self _ w) (claimable self w)); [reflexivity|].
  intros i Hi. apply can_claim_claimable, in_indices, Hi.
Qed.

Lemma find_seq (f : Z -> bool) (len a id : nat) :
  (a <= id < a + len)%nat -> f (Z.of_nat id) = true ->
  exists j, List.find f (List.map Z.of_nat (seq a len)) = Some (Z.of_nat j) /\
            (a <= j <= id)%nat /\
            forall k, (a <= k < j)%nat -> f (Z.of_nat k) = false.
Proof.
  revert a. induction len as [|len IH]; intros a Hid Hf; [lia|].
  simpl. destruct (f (Z.of_nat a)) eqn:Ha.
  - exists a. repeat split; [lia..|]. intros k Hk. lia.
  - assert (a <> id) by (intros ->; congruence).
    destruct (IH (S a) ltac:(lia) Hf) as (j & Hj & Hr & Hb).
    exists j. repeat split; [assumption|lia..|].
    intros k Hk. destruct (decide (k = a)) as [->|]; [assumption|]. apply Hb. lia.
Qed.

Lemma find_indices (f : Z -> bool) (n id : Z) :
  1 <= id <= n -> f id = true ->
  exists j, List.find f (indices n) = Some j /\ 1 <= j <= id /\
            forall k, 1 <= k < j -> f k = false.
Proof.
  intros Hid Hf. unfold indices.
  destruct (find_seq f (Z.to_nat n) 1 (Z.to_nat id)) as (j & Hj & Hr & Hb).
  - lia.
  - rewrite Z2Nat.id by lia. assumption.
  - exists (Z.of_nat j). repeat split; [assumption|lia..|].
    intros k Hk. rewrite <- (Z2Nat.id k) by lia. apply Hb. lia.
Qed.

Lemma grant_table (self : AutoShardCoordinator) (statuses : gmap Z ShardStatus)
    (w : World) (j : Z) (st : ShardStatus) :
  statuses !! j = Some st ->
  readStatus (grant self statuses w j) =
  <[j := claim self (relock self j w) st]> statuses.
Proof. intros H. unfold grant. rewrite H. reflexivity. Qed.

(** A call grants nothing and changes nothing, or grants an id of
    [1 .. total] that was pending or failed, makes it running and leaves
    the other records as they were. *)
Lemma determineNext_effect (self : AutoShardCoordinator) (w : World) :
  let '(r, w') := determineNextAvailableShard self w in
  match r with
  | None => w' = w
  | Some j =>
      1 <= j <= totalShards self /\
      claimable self w j = true /\
      status_at w' j = running /\
      (forall k, k <> j -> status_at w' k = status_at w k) /\
      (forall k st, k <> j -> readStatus w !! k = Some st -> readStatus w' !! k = Some st)
  end.
Proof.
  rewrite determineNext_spec. cbv zeta.
  destruct (List.find _ _) as [j|] eqn:Hf; [|reflexivity].
  apply find_some in Hf as [Hj Hc]. apply in_indices in Hj.
  destruct (init_statuses_visit (totalShards self) w j Hj) as (st & Hst & Hs).
  repeat split; try assumption; try lia.
  - unfold status_at. rewrite (grant_table _ _ _ _ _ Hst), lookup_insert_eq. reflexivity.
  - intros k Hk. unfold status_at at 1.
    rewrite (grant_table _ _ _ _ _ Hst), lookup_insert_ne by congruence.
    destruct (init_statuses _ _ !! k) as [st'|] eqn:Hk'.
    + eapply init_statuses_state; eassumption.
    + rewrite init_statuses_lookup in Hk'. unfold status_at.
      destruct (readStatus w !! k); [discriminate|reflexivity].
  - intros k st' Hk Hk'.
    rewrite (grant_table _ _ _ _ _ Hst), lookup_insert_ne by congruence.
    rewrite init_statuses_lookup, Hk'. reflexivity.
Qed.

Lemma claimable_status_at (self : AutoShardCoordinator) (w : World) (j : Z) :
  claimable self w j = true -> status_at w j = pending \/ status_at w j = failed.
Proof.
  rewrite claimable_alt. intros H. apply andb_true_iff in H as [H _].
  destruct (status_at w j); auto; discriminate.
Qed.

(** ** [markShardComplete] *)

Lemma markShardComplete_effect (w : World) (i e : Z) (st : ShardStatus) :
  readStatus w !! i = Some st ->
  let w' := markShardComplete w i e in
  statusFile w' = StatusTable (<[i := complete w e st]> (readStatus w)) /\
  locks w' = delete i (locks w) /\ now w' = now w /\ live w' = live w.
Proof. intros H. unfold markShardComplete. rewrite H. simpl. auto. Qed.

Lemma markShardComplete_status (w : World) (i e k : Z) :
  status_at (markShardComplete w i e) k =
  if decide (k = i) then
    match readStatus w !! i with
    | Some _ => if e =? 0 then completed else failed
    | None => pending
    end
  else status_at w k.
Proof.
  unfold markShardComplete, status_at.
  destruct (readStatus w !! i) as [st|] eqn:Hi.
  - change (readStatus (releaseShardLock (writeStatus w ?t) i)) with t.
    destruct (decide (k = i)) as [->|Hne].
    + rewrite lookup_insert_eq. reflexivity.
    + rewrite lookup_insert_ne by congruence. reflexivity.
  - destruct (decide (k = i)) as [->|Hne]; [rewrite Hi|]; reflexivity.
Qed.

Lemma exec_other_status (w : World) (o : op) (k : Z) :
  match o with Tick _ | Exit _ => True | _ => False end ->
  status_at (snd (exec w o)) k = status_at w k.
Proof. destruct o; simpl; intros H; try contradiction; reflexivity. Qed.

(** A completed shard stays completed, and is not granted, under every
    operation that does not mark it again. *)
Lemma completed_stays (w : World) (o : op) (id : Z) :
  ~ marks id o -> status_at w id = completed ->
  status_at (snd (exec w o)) id = completed /\ fst (exec w o) <> Some id.
Proof.
  intros Hm Hc. destruct o as [self|i e|dt|p]; simpl in *.
  - pose proof (determineNext_effect self w) as H.
    destruct (determineNextAvailableShard self w) as [[j|] w']; simpl.
    + destruct H as (_ & Hcl & _ & Hoth & _).
      apply claimable_status_at in Hcl.
      assert (j <> id) by (intros ->; rewrite Hc in Hcl; destruct Hcl; discriminate).
      split; [|congruence]. rewrite Hoth by congruence. assumption.
    + subst. split; [assumption|discriminate].
  - split; [|discriminate]. rewrite markShardComplete_status.
    rewrite decide_False by congruence. assumption.
  - split; [assumption|discriminate].
  - split; [assumption|discriminate].
Qed.

Lemma completed_never_granted (ops : list op) (w : World) (id : Z) :
  Forall (fun o => ~ marks id o) ops -> status_at w id = completed ->
  ~ In id (fst (run w ops)).
Proof.
  revert w. induction ops as [|o ops IH]; intros w Hm Hc; simpl; [auto|].
  apply Forall_cons in Hm as [Ho Hm].
  destruct (completed_stays w o id Ho Hc) as [Hc' Hr].
  destruct (exec w o) as [r w'] eqn:He. simpl in Hc', Hr.
  specialize (IH w' Hm Hc'). destruct (run w' ops) as [rs w'']. simpl in *.
  destruct r as [i|]; [|assumption].
  simpl. intros [->|H]; [congruence|contradiction].
Qed.

(** ** A claimable shard is granted in the end *)

Lemma determineNext_world (self : AutoShardCoordinator) (w w' : World) (j : Z) :
  determineNextAvailableShard self w = (Some j, w') ->
  locks w' = <[j := own_lock self w]> (locks w) /\ now w' = now w /\ live w' = live w.
Proof.
  rewrite determineNext_spec. cbv zeta.
  destruct (List.find _ _) as [j'|] eqn:Hf; [|discriminate].
  intros [= <- <-]. apply find_some in Hf as [Hj _]. apply in_indices in Hj.
  destruct (init_statuses_visit (totalShards self) w j' Hj) as (st & Hst & _).
  unfold grant. rewrite Hst. simpl. auto.
Qed.

Lemma lock_yields_ext (self : AutoShardCoordinator) (w w' : World) (k : Z) :
  locks w' !! k = locks w !! k -> now w' = now w -> live w' = live w ->
  lock_yields self k w' = lock_yields self k w.
Proof. intros Hl Hn Hv. unfold lock_yields. rewrite Hl, Hn, Hv. reflexivity. Qed.

Lemma claimable_after_grant (self : AutoShardCoordinator) (w w' : World) (j k : Z) :
  determineNextAvailableShard self w = (Some j, w') ->
  claimable self w' k = if decide (k = j) then false else claimable self w k.
Proof.
  intros Hd. pose proof (determineNext_effect self w) as He. rewrite Hd in He.
  destruct He as (_ & _ & Hrun & Hoth & _).
  destruct (determineNext_world self w w' j Hd) as (Hl & Hn & Hv).
  rewrite !claimable_alt. destruct (decide (k = j)) as [->|Hne].
  - rewrite Hrun. reflexivity.
  - rewrite Hoth by assumption. f_equal.
    apply lock_yields_ext; [|assumption..].
    rewrite Hl. apply lookup_insert_ne. congruence.
Qed.

(** Repeated calls grant the claimable ids in ascending order: an id that
    is claimable is granted after at most as many calls as there are ids up
    to it. *)
Lemma eventually_granted (self : AutoShardCoordinator) (id : Z) (gap : nat) (w : World) :
  1 <= id <= totalShards self ->
  claimable self w id = true ->
  (forall k, 1 <= k < id - Z.of_nat gap -> claimable self w k = false) ->
  exists n, (1 <= n <= S gap)%nat /\
            last (fst (run w (repeat (DetermineNext self) n))) = Some id.
Proof.
  intros Hid. revert w. induction gap as [|gap IH]; intros w Hcl Hlow.
  - destruct (find_indices (claimable self w) (totalShards self) id Hid Hcl)
      as (j & Hj & Hr & Hb).
    assert (j = id) as ->.
    { destruct (decide (j = id)); [assumption|]. apply find_some in Hj as [_ Hj].
      rewrite Hlow in Hj by lia. discriminate. }
    exists 1%nat. split; [lia|]. simpl. rewrite determineNext_spec. cbv zeta.
    rewrite Hj. reflexivity.
  - destruct (find_indices (claimable self w) (totalShards self) id Hid Hcl)
      as (j & Hj & Hr & Hb).
    assert (Hd : exists w1, determineNextAvailableShard self w = (Some j, w1)).
    { rewrite determineNext_spec. cbv zeta. rewrite Hj. eauto. }
    destruct Hd as [w1 Hd].
    destruct (decide (j = id)) as [->|Hne].
    + exists 1%nat. split; [lia|]. simpl. rewrite Hd. reflexivity.
    + assert (Hjlow : id - Z.of_nat (S gap) <= j).
      { destruct (Z.le_gt_cases (id - Z.of_nat (S gap)) j); [assumption|].
        apply find_some in Hj as [_ Hj]. rewrite Hlow in Hj by lia. discriminate. }
      destruct (IH w1) as (n & Hn & Hlast).
      * rewrite (claimable_after_grant self w w1 j id Hd).
        rewrite decide_False by congruence. assumption.
      * intros k Hk. rewrite (claimable_after_grant self w w1 j k Hd).
        destruct (decide (k = j)); [reflexivity|]. apply Hb. lia.
      * exists (S n). split; [lia|]. simpl. rewrite Hd.
        destruct (run w1 (repeat (DetermineNext self) n)) as [rs w2]. simpl in *.
        rewrite last_cons, Hlast. reflexivity.
Qed.

(** ** Checks of the embedding on a run of two processes *)

(** Two shards: alice is granted 1, bob 2; shard 1 completes, shard 2
    fails; the next call retries 2, and after that nothing is left. *)
Example two_process_run :
  fst (run empty_dir
         [DetermineNext alice; DetermineNext bob; MarkComplete 1 0; MarkComplete 2 1;
          Tick 60000; DetermineNext alice; DetermineNext bob]) = [1; 2; 2].
Proof. vm_compute. reflexivity. Qed.

(** A lock whose owner has exited is taken over, a lock whose owner is
    alive is not. *)
Example dead_owner_lock :
  fst (acquireShardLock bob 3 held_dir) = Some false /\
  fst (acquireShardLock bob 3 (snd (exec held_dir (Exit 101)))) = Some true.
Proof. split; vm_compute; reflexivity. Qed.

(** ** The properties of the coordinator *)

(** C4, as the code has it.  When the id has a record in the status table,
    [markShardComplete] sets the record to [completed] for the exit code 0
    and to [failed] for any other, records the end time and the exit code,
    writes the table with the other records unchanged, and deletes the lock
    file of the id and no other.  After a nonzero exit code an id of
    [1 .. total] is claimable again: the next [determineNextAvailableShard]
    returns it or a smaller id that is claimable too, and repeated calls
    return it after at most [id] of them.  After the exit code 0 no later
    [determineNextAvailableShard] returns the id, whatever calls, clock
    ticks and process exits come in between, as long as the id is not marked
    again. *)
Theorem C4_markShardComplete (self : AutoShardCoordinator) (w : World)
    (id code : Z) (st : ShardStatus) :
  readStatus w !! id = Some st ->
  let w' := markShardComplete w id code in
  (exists st', statusFile w' = StatusTable (<[id := st']> (readStatus w)) /\
     status st' = (if code =? 0 then completed else failed) /\
     endTime st' = Some (now w) /\ exitCode st' = Some code /\
     shardId st' = shardId st /\ pid st' = pid st /\ startTime st' = startTime st) /\
  locks w' = delete id (locks w) /\
  (code <> 0 -> 1 <= id <= totalShards self ->
   (exists j, fst (determineNextAvailableShard self w') = Some j /\ 1 <= j <= id /\
              ((forall k, 1 <= k < id -> claimable self w' k = false) -> j = id)) /\
   (exists n, (1 <= n <= Z.to_nat id)%nat /\
              last (fst (run w' (repeat (DetermineNext self) n))) = Some id)) /\
  (code = 0 ->
   forall ops, Forall (fun o => ~ marks id o) ops -> ~ In id (fst (run w' ops))).
Proof.
  intros Hst w'.
  destruct (markShardComplete_effect w id code st Hst) as (Hfile & Hlocks & _ & _).
  fold w' in Hfile, Hlocks.
  assert (Hstat : status_at w' id = if code =? 0 then completed else failed).
  { unfold w'. rewrite markShardComplete_status, decide_True, Hst; reflexivity. }
  split; [|split; [|split]].
  - exists (complete w code st). repeat split. assumption.
  - assumption.
  - intros Hcode Hid.
    assert (Hcl : claimable self w' id = true).
    { rewrite claimable_alt, Hstat.
      destruct (Z.eqb_spec code 0); [contradiction|]. simpl.
      unfold lock_yields. rewrite Hlocks, lookup_delete_eq. reflexivity. }
    split.
    + destruct (find_indices (claimable self w') (totalShards self) id Hid Hcl)
        as (j & Hj & Hr & Hb).
      exists j. rewrite determineNext_spec. cbv zeta. rewrite Hj.
      repeat split; [lia..|].
      intros Hnone. destruct (decide (j = id)) as [|Hne]; [assumption|].
      apply find_some in Hj as [_ Hj]. rewrite Hnone in Hj by lia. discriminate.
    + destruct (eventually_granted self id (Z.to_nat (id - 1)) w' Hid Hcl)
        as (n & Hn & Hlast).
      * intros k Hk. lia.
      * exists n. split; [lia|assumption].
  - intros -> ops Hops. apply completed_never_granted; assumption.
Qed.

Lemma C4_markShardComplete_witness :
  let w := snd (determineNextAvailableShard alice empty_dir) in
  let st := claim alice (relock alice 1 empty_dir) (fresh_status 1) in
  let w' := markShardComplete w 1 7 in
  (exists st', statusFile w' = StatusTable (<[1 := st']> (readStatus w)) /\
     status st' = (if 7 =? 0 then completed else failed) /\
     endTime st' = Some (now w) /\ exitCode st' = Some 7 /\
     shardId st' = shardId st /\ pid st' = pid st /\ startTime st' = startTime st) /\
  locks w' = delete 1 (locks w) /\
  (7 <> 0 -> 1 <= 1 <= totalShards alice ->
   (exists j, fst (determineNextAvailableShard alice w') = Some j /\ 1 <= j <= 1 /\
              ((forall k, 1 <= k < 1 -> claimable alice w' k = false) -> j = 1)) /\
   (exists n, (1 <= n <= Z.to_nat 1)%nat /\
              last (fst (run w' (repeat (DetermineNext alice) n))) = Some 1)) /\
  (7 = 0 ->
   forall ops, Forall (fun o => ~ marks 1 o) ops -> ~ In 1 (fst (run w' ops))).
Proof.
  intros w st w'.
  apply (C4_markShardComplete alice w 1 7 st).
  vm_compute. reflexivity.
Defined.

(** C4 as the specification states it fails on an id without a record:
    the call leaves the id pending and a later call returns it; and an id
    marked with the exit code 0 and then marked again with another code is
    returned too. *)
Lemma C4_counterexample :
  status_at (markShardComplete empty_dir 1 0) 1 = pending /\
  fst (determineNextAvailableShard alice (markShardComplete empty_dir 1 0)) = Some 1 /\
  fst (run (snd (determineNextAvailableShard alice empty_dir))
         [MarkComplete 1 0; MarkComplete 1 1; DetermineNext bob]) = [1].
Proof. repeat split; vm_compute; reflexivity. Qed.

(** One operation, with [markShardComplete] called only on a running
    shard, leaves the status of an id or moves it along an allowed
    transition, and does not grant a running id. *)
Lemma status_step (w : World) (o : op) (id : Z) :
  disciplined w o ->
  let w' := snd (exec w o) in
  (status_at w' id = status_at w id \/
   allowed (status_at w id) (status_at w' id) = true) /\
  (status_at w id = running ->
   fst (exec w o) <> Some id /\
   forall self, o = DetermineNext self -> readStatus w' !! id = readStatus w !! id).
Proof.
  intros Hd w'. unfold w'. destruct o as [self|i e|dt|p]; simpl in *.
  - pose proof (determineNext_effect self w) as H.
    destruct (determineNextAvailableShard self w) as [[j|] w1]; simpl.
    + destruct H as (_ & Hcl & Hrun & Hoth & Hrec).
      apply claimable_status_at in Hcl. split.
      * destruct (decide (id = j)) as [->|Hne].
        -- right. rewrite Hrun. destruct Hcl as [-> | ->]; reflexivity.
        -- left. apply Hoth. assumption.
      * intros Hr.
        assert (id <> j) by (intros ->; rewrite Hr in Hcl; destruct Hcl; discriminate).
        split; [congruence|]. intros _ _.
        unfold status_at in Hr. destruct (readStatus w !! id) as [st|] eqn:E;
          [|discriminate].
        apply Hrec; assumption.
    + subst. split; [left; reflexivity|].
      intros _. split; [discriminate|reflexivity].
  - split.
    + rewrite markShardComplete_status. destruct (decide (id = i)) as [->|]; [|auto].
      right. rewrite Hd. unfold status_at in Hd.
      destruct (readStatus w !! i); [|discriminate].
      destruct (e =? 0); reflexivity.
    + intros _. split; [discriminate|]. intros self [=].
  - split; [left; reflexivity|]. intros _. split; [discriminate|]. intros self [=].
  - split; [left; reflexivity|]. intros _. split; [discriminate|]. intros self [=].
Qed.

(** C8, as the code has it.  Along every sequence of operations in which
    [markShardComplete] is called only on a shard whose record is running,
    from any state of the directory, the status of every id stays or moves
    along pending to running, running to completed, running to failed or
    failed to running from one operation to the next; and an id whose status
    is running is not granted by the operation that follows. *)
Theorem C8_status_transitions (w : World) (ops : list op) (id : Z) :
  disciplined_run w ops ->
  forall (k : nat) (a b : Status),
    statuses_along w ops id !! k = Some a ->
    statuses_along w ops id !! S k = Some b ->
    (b = a \/ allowed a b = true) /\
    (a = running ->
     forall w1 o, worlds w ops !! k = Some w1 -> ops !! k = Some o ->
                  fst (exec w1 o) <> Some id).
Proof.
  revert w. induction ops as [|o ops IH]; intros w Hd k a b Ha Hb.
  - destruct k; discriminate.
  - destruct Hd as [Ho Hd]. destruct k as [|k].
    + unfold statuses_along in *. simpl in Ha, Hb.
      destruct ops; simpl in Hb; injection Ha as <-; injection Hb as <-;
        (destruct (status_step w o id Ho) as [Hstep Hrun]; split; [exact Hstep|]);
        intros Hr w1 o' [= <-] [= <-]; apply Hrun; assumption.
    + destruct (IH (snd (exec w o)) Hd k a b) as [Hstep Hrun].
      * exact Ha.
      * exact Hb.
      * split; [exact Hstep|]. intros Hr w1 o' Hw1 Ho'. apply Hrun; assumption.
Qed.

Lemma C8_status_transitions_witness :
  let ops := [DetermineNext alice; DetermineNext bob; MarkComplete 1 7;
              DetermineNext bob; MarkComplete 1 0] in
  (failed = running \/ allowed running failed = true) /\
  (running = running ->
   forall w1 o, worlds empty_dir ops !! 2%nat = Some w1 -> ops !! 2%nat = Some o ->
                fst (exec w1 o) <> Some 1).
Proof.
  intros ops.
  apply (C8_status_transitions empty_dir ops 1); vm_compute; repeat split.
Defined.

(** C8 as the specification states it fails: [markShardComplete] does not
    look at the status it overwrites, so that a call on a pending shard
    moves it to a terminal status at once, and a second call moves a
    completed shard to failed. *)
Lemma C8_counterexample :
  statuses_along empty_dir [DetermineNext alice; MarkComplete 2 0; MarkComplete 2 1] 2 =
    [pending; pending; completed; failed] /\
  allowed pending completed = false /\ allowed completed failed = false.
Proof. repeat split; vm_compute; reflexivity. Qed.

(** C10. Without a record for the id in the status table,
    [markShardComplete] changes nothing: no table is written, no record is
    made, and the lock file of the id stays where it is. *)
Theorem C10_markShardComplete_without_record (w : World) (id code : Z) :
  readStatus w !! id = None ->
  markShardComplete w id code = w /\
  statusFile (markShardComplete w id code) = statusFile w /\
  readStatus (markShardComplete w id code) !! id = None /\
  locks (markShardComplete w id code) !! id = locks w !! id.
Proof.
  intros H. unfold markShardComplete. rewrite H. auto.
Qed.

Lemma C10_markShardComplete_without_record_witness :
  markShardComplete held_dir 3 0 = held_dir /\
  statusFile (markShardComplete held_dir 3 0) = statusFile held_dir /\
  readStatus (markShardComplete held_dir 3 0) !! 3 = None /\
  locks (markShardComplete held_dir 3 0) !! 3 = locks held_dir !! 3.
Proof.
  apply (C10_markShardComplete_without_record held_dir 3 0).
  vm_compute. reflexivity.
Defined.

(** ** Calls that interleave *)

Lemma loser_step (self other : AutoShardCoordinator) (i : Z) (w : World) (p : pc) :
  process_pid other ∈ live w ->
  loser_pc (lock_data other w) p ->
  exists p', acquire_step self i (relock other i w) {| at_pc := p; depth := 0 |} =
             (relock other i w, {| at_pc := p'; depth := 0 |}) /\
             loser_pc (lock_data other w) p' /\
             (rank p' <= rank p - 1)%nat.
Proof.
  intros Hlive Hp.
  assert (Hl : locks (relock other i w) !! i = Some (Parsed (lock_data other w))).
  { unfold relock. simpl. rewrite lookup_insert_eq. reflexivity. }
  destruct Hp as [-> | [-> | [-> | ->]]]; cbn [acquire_step at_pc goto depth].
  - rewrite Hl. eexists. split; [reflexivity|]. split; [|simpl; lia].
    right; left; reflexivity.
  - rewrite Hl. cbn [timestamp lock_data relock set_locks now].
    rewrite Z.sub_diag. change (300000 <? 0) with false. cbv iota.
    destruct (win32 self); simpl negb; cbv iota;
      (eexists; split; [reflexivity|]); (split; [|simpl; lia]).
    + right; right; right; reflexivity.
    + right; right; left; reflexivity.
  - cbn [lock_pid lock_data relock set_locks live].
    rewrite decide_True by assumption.
    eexists. split; [reflexivity|]. split; [|simpl; lia].
    right; right; right; reflexivity.
  - eexists. split; [reflexivity|]. split; [|simpl; lia].
    right; right; right; reflexivity.
Qed.

(** A step keeps the race within [race_inv] and brings the thread that
    takes it closer to its [return]. *)
Lemma race_inv_step (a b : AutoShardCoordinator) (i : Z) (w : World)
    (s : system) (t : nat) :
  locks w !! i = None ->
  process_pid a ∈ live w -> process_pid b ∈ live w ->
  race_inv a b i w s ->
  race_inv a b i w (step_event s (Step t)) /\
  forall u, (rank_of (step_event s (Step t)) u <=
             rank_of s u - (if Nat.eqb t u then 1 else 0))%nat.
Proof.
  intros Hfree Ha Hb Hinv.
  destruct Hinv as [|p Hp|p Hp].
  - destruct t as [|[|t]]; cbn [step_event threads world lookup list_lookup].
    + unfold step_thread, spawn. cbn [owner target frame acquire_step at_pc enter].
      rewrite Hfree. cbn [goto depth]. split.
      * apply (race_first a b i w AtCreate). left; reflexivity.
      * intros [|[|u]]; vm_compute; lia.
    + unfold step_thread, spawn. cbn [owner target frame acquire_step at_pc enter].
      rewrite Hfree. cbn [goto depth]. split.
      * apply (race_second a b i w AtCreate). left; reflexivity.
      * intros [|[|u]]; vm_compute; lia.
    + split; [constructor|]. intros [|[|u]]; vm_compute; lia.
  - destruct t as [|[|t]]; cbn [step_event threads world lookup list_lookup].
    + split; [constructor; assumption|].
      intros [|[|u]]; unfold rank_of, pc_of; simpl; lia.
    + unfold step_thread. cbn [owner target frame].
      destruct (loser_step b a i w p Ha Hp) as (p' & -> & Hp' & Hr).
      split; [constructor; assumption|].
      intros [|[|u]]; unfold rank_of, pc_of; simpl; lia.
    + split; [constructor; assumption|].
      intros [|[|u]]; unfold rank_of, pc_of; simpl; lia.
  - destruct t as [|[|t]]; cbn [step_event threads world lookup list_lookup].
    + unfold step_thread. cbn [owner target frame].
      destruct (loser_step a b i w p Hb Hp) as (p' & -> & Hp' & Hr).
      split; [constructor; assumption|].
      intros [|[|u]]; unfold rank_of, pc_of; simpl; lia.
    + split; [constructor; assumption|].
      intros [|[|u]]; unfold rank_of, pc_of; simpl; lia.
    + split; [constructor; assumption|].
      intros [|[|u]]; unfold rank_of, pc_of; simpl; lia.
Qed.

Lemma steps_of_cons (u t : nat) (es : list event) :
  steps_of u (Step t :: es) = ((if Nat.eqb t u then 1 else 0) + steps_of u es)%nat.
Proof. unfold steps_of. simpl. destruct (Nat.eqb t u); reflexivity. Qed.

Lemma race_inv_run (a b : AutoShardCoordinator) (i : Z) (w : World)
    (es : list event) (s : system) :
  locks w !! i = None ->
  process_pid a ∈ live w -> process_pid b ∈ live w ->
  Forall is_step es -> race_inv a b i w s ->
  race_inv a b i w (run_events s es) /\
  forall u, (rank_of (run_events s es) u <= rank_of s u - steps_of u es)%nat.
Proof.
  intros Hfree Ha Hb Hes. revert s.
  induction Hes as [|e es He Hes IH]; intros s Hinv.
  - split; [assumption|]. intros u. change (steps_of u []) with 0%nat.
    change (run_events s []) with s. lia.
  - destruct e as [t| | |]; try contradiction.
    destruct (race_inv_step a b i w s t Hfree Ha Hb Hinv) as [Hinv' Hrank].
    destruct (IH _ Hinv') as [Hinv'' Hrank'']. split; [assumption|].
    intros u. specialize (Hrank u). specialize (Hrank'' u).
    change (run_events s (Step t :: es)) with (run_events (step_event s (Step t)) es).
    rewrite steps_of_cons. lia.
Qed.

Lemma rank_zero_returned (a b : AutoShardCoordinator) (i : Z) (w : World)
    (s : system) (u : nat) :
  race_inv a b i w s -> (u < 2)%nat -> rank_of s u = 0%nat ->
  exists r, outcome s u = Some r.
Proof.
  intros Hinv Hu Hr.
  destruct Hinv as [|p Hp|p Hp]; destruct u as [|[|u]]; try lia;
    unfold rank_of, pc_of, outcome in *; simpl in *; try discriminate; eauto;
    destruct Hp as [-> | [-> | [-> | ->]]]; simpl in *; try discriminate; eauto.
Qed.

(** Two live processes that race for a free lock, with nothing else
    touching it and within the staleness threshold: they are never both
    granted, the one that is refused has seen the other's lock, and once
    each has made three accesses one holds the shard and the other has
    observed the conflict. *)
Lemma free_lock_single_winner (a b : AutoShardCoordinator) (i : Z) (w : World)
    (es : list event) :
  locks w !! i = None ->
  process_pid a ∈ live w -> process_pid b ∈ live w ->
  Forall is_step es ->
  let s := run_events {| world := w; threads := [spawn a i; spawn b i] |} es in
  ~ (outcome s 0 = Some true /\ outcome s 1 = Some true) /\
  (outcome s 0 = Some false -> outcome s 1 = Some true) /\
  (outcome s 1 = Some false -> outcome s 0 = Some true) /\
  ((3 <= steps_of 0 es)%nat -> (3 <= steps_of 1 es)%nat ->
   (outcome s 0 = Some true /\ outcome s 1 = Some false) \/
   (outcome s 0 = Some false /\ outcome s 1 = Some true)).
Proof.
  intros Hfree Ha Hb Hes s.
  destruct (race_inv_run a b i w es _ Hfree Ha Hb Hes (race_start a b i w))
    as [Hinv Hrank]. fold s in Hinv, Hrank.
  assert (Hexcl : ~ (outcome s 0 = Some true /\ outcome s 1 = Some true) /\
                  (outcome s 0 = Some false -> outcome s 1 = Some true) /\
                  (outcome s 1 = Some false -> outcome s 0 = Some true)).
  { destruct Hinv as [|p Hp|p Hp]; unfold outcome; simpl.
    - repeat split; try discriminate. intros [? _]; discriminate.
    - repeat split; try discriminate; try reflexivity.
      intros [_ H]. destruct Hp as [-> | [-> | [-> | ->]]]; discriminate.
    - repeat split; try discriminate; try reflexivity.
      intros [H _]. destruct Hp as [-> | [-> | [-> | ->]]]; discriminate. }
  destruct Hexcl as (Hnot & H01 & H10). repeat split; try assumption.
  intros H0 H1.
  destruct (rank_zero_returned a b i w s 0 Hinv ltac:(lia)) as [r0 Hr0].
  { specialize (Hrank 0%nat).
    change (rank_of {| world := w; threads := [spawn a i; spawn b i] |} 0) with 3%nat in Hrank.
    lia. }
  destruct (rank_zero_returned a b i w s 1 Hinv ltac:(lia)) as [r1 Hr1].
  { specialize (Hrank 1%nat).
    change (rank_of {| world := w; threads := [spawn a i; spawn b i] |} 1) with 3%nat in Hrank.
    lia. }
  destruct r0, r1.
  - exfalso. apply Hnot. auto.
  - left. auto.
  - right. auto.
  - specialize (H01 Hr0). congruence.
Qed.






Lemma step_first (ta tb : thread) (w : World) :
  step_event {| world := w; threads := [ta; tb] |} (Step 0) =
  {| world := fst (acquire_step (owner ta) (target ta) w (frame ta));
     threads := [{| owner := owner ta; target := target ta;
                    frame := snd (acquire_step (owner ta) (target ta) w (frame ta)) |};
                 tb] |}.
Proof.
  unfold step_event, step_thread. simpl.
  destruct (acquire_step (owner ta) (target ta) w (frame ta)). reflexivity.
Qed.

Lemma step_second (ta tb : thread) (w : World) :
  step_event {| world := w; threads := [ta; tb] |} (Step 1) =
  {| world := fst (acquire_step (owner tb) (target tb) w (frame tb));
     threads := [ta;
                 {| owner := owner tb; target := target tb;
                    frame := snd (acquire_step (owner tb) (target tb) w (frame tb)) |}] |}.
Proof.
  unfold step_event, step_thread. simpl.
  destruct (acquire_step (owner tb) (target tb) w (frame tb)). reflexivity.
Qed.

(** Whatever the processes and the shard, a stale lock lets both calls of
    a race through: the check of the lock and its deletion are two
    accesses, and the second deletion removes the winner's lock. *)
Lemma stale_lock_double_grant (a b : AutoShardCoordinator) (i : Z) (w : World)
    (lockData : LockData) :
  locks w !! i = Some (Parsed lockData) ->
  300000 < now w - timestamp lockData ->
  let s := run_events {| world := w; threads := [spawn a i; spawn b i] |}
             racing_schedule in
  outcome s 0 = Some true /\ outcome s 1 = Some true /\
  locks (world s) !! i = Some (own_lock b w).
Proof.
  intros Hl Hstale s.
  assert (Hlt : (300000 <? now w - timestamp lockData) = true) by (apply Z.ltb_lt; assumption).
  assert (Hs : s = {| world := relock b i w;
                      threads := [returned a i true 1; returned b i true 1] |}).
  { unfold s, racing_schedule, run_events, spawn, enter. cbn [foldl].
    rewrite step_first. cbn [owner target frame acquire_step at_pc goto depth].
    rewrite Hl. cbn [fst snd].
    rewrite step_second. cbn [owner target frame acquire_step at_pc goto depth].
    rewrite Hl. cbn [fst snd].
    rewrite step_first. cbn [owner target frame acquire_step at_pc goto depth].
    rewrite Hl, Hlt. cbn [fst snd].
    rewrite step_second. cbn [owner target frame acquire_step at_pc goto depth].
    rewrite Hl, Hlt. cbn [fst snd].
    rewrite step_first. cbn [owner target frame acquire_step at_pc goto depth].
    unfold unlink_then. rewrite Hl. cbn [fst snd].
    rewrite step_first. cbn [owner target frame acquire_step at_pc goto depth recurse].
    cbn [set_locks locks]. rewrite lookup_delete_eq. cbn [fst snd].
    rewrite step_second. cbn [owner target frame acquire_step at_pc goto depth].
    unfold unlink_then. cbn [set_locks locks]. rewrite lookup_insert_eq.
    cbn [fst snd].
    rewrite step_second. cbn [owner target frame acquire_step at_pc goto depth recurse].
    cbn [set_locks locks]. rewrite lookup_delete_eq. cbn [fst snd].
    unfold relock, set_locks, own_lock, returned. cbn [locks statusFile now live depth].
    rewrite delete_insert_eq, delete_delete_eq, insert_delete_eq. reflexivity. }
  rewrite Hs. unfold outcome, relock. simpl. rewrite lookup_insert_eq. auto.
Qed.

(** C2, at the input where the code departs from it: two processes that
    claim shard 1 while a stale lock of a crashed run is in the directory
    are both granted the shard.  Each finds the lock, reads it and judges it
    stale; the first deletes it and creates its own; the second then
    deletes the lock of the first and creates its own. *)
Theorem C2_stale_lock_double_grant :
  let s := run_events
             {| world := stale_dir; threads := [spawn alice 1; spawn bob 1] |}
             racing_schedule in
  outcome s 0 = Some true /\ outcome s 1 = Some true /\
  locks (world s) !! 1 = Some (own_lock bob stale_dir).
Proof. repeat split; vm_compute; reflexivity. Qed.




(** ** How round-robin fills the shards *)

Lemma filter_from_app {A : Type} (pred : A -> Z -> bool) (k : Z) (l1 l2 : list A) :
  filter_from pred k (l1 ++ l2) =
  filter_from pred k l1 ++ filter_from pred (k + Z.of_nat (length l1)) l2.
Proof.
  revert k. induction l1 as [|x l1 IH]; intros k; simpl.
  - rewrite Z.add_0_r. reflexivity.
  - rewrite IH. replace (k + 1 + Z.of_nat (length l1)) with (k + Z.pos (Pos.of_succ_nat (length l1))) by lia.
    destruct (pred x k); reflexivity.
Qed.

Lemma rr_selects_iff (total j p : Z) :
  1 <= total -> 0 <= p -> 0 <= j < total ->
  rr_selects total j p = true <-> p mod total = j.
Proof.
  intros Ht Hp Hj. unfold rr_selects, js_rem.
  destruct (Z.eqb_spec total 0); [lia|]. simpl.
  rewrite Z.eqb_eq, Z.rem_mod_nonneg by lia. reflexivity.
Qed.

Lemma succ_div_mod (n t : Z) :
  0 <= n -> 1 <= t ->
  (n mod t + 1 < t /\ (n + 1) / t = n / t /\ (n + 1) mod t = n mod t + 1) \/
  (n mod t + 1 = t /\ (n + 1) / t = n / t + 1 /\ (n + 1) mod t = 0).
Proof.
  intros Hn Ht.
  pose proof (Z.mod_pos_bound n t ltac:(lia)) as Hb.
  pose proof (Z.div_mod n t ltac:(lia)) as Hdm.
  destruct (Z_lt_dec (n mod t + 1) t) as [Hlt|Hge].
  - left. split; [assumption|].
    assert (Hq : (n + 1) / t = n / t).
    { symmetry. apply (Z.div_unique (n + 1) t (n / t) (n mod t + 1)); lia. }
    split; [assumption|].
    symmetry. apply (Z.mod_unique (n + 1) t (n / t) (n mod t + 1)); lia.
  - right. split; [lia|].
    assert (Hq : (n + 1) / t = n / t + 1).
    { symmetry. apply (Z.div_unique (n + 1) t (n / t + 1) 0); lia. }
    split; [assumption|].
    symmetry. apply (Z.mod_unique (n + 1) t (n / t + 1) 0); lia.
Qed.

(** The shard at array index [j] receives one test in every [total], and
    one more when [j] is below the remainder. *)
Lemma rr_count (total j : Z) (tests : list string) :
  1 <= total -> 0 <= j < total ->
  let n := Z.of_nat (length tests) in
  Z.of_nat (length (filter_from (fun _ p => rr_selects total j p) 0 tests)) =
  n / total + (if j <? n mod total then 1 else 0).
Proof.
  intros Ht Hj. induction tests as [|x tests IH] using rev_ind; intros n.
  - unfold n. simpl. rewrite Z.div_0_l, Z.mod_0_l by lia.
    destruct (Z.ltb_spec j 0); lia.
  - unfold n. rewrite filter_from_app, !length_app. simpl.
    cbv zeta in IH.
    set (m := Z.of_nat (length tests)) in *.
    replace (Z.of_nat (length tests + 1)) with (m + 1) by lia.
    rewrite Nat2Z.inj_add, IH.
    assert (Hm : 0 <= m) by lia. rewrite Z.add_0_l.
    destruct (rr_selects total j m) eqn:Hsel.
    + apply rr_selects_iff in Hsel; [|lia..].
      destruct (succ_div_mod m total Hm Ht) as [(H1 & H2 & H3)|(H1 & H2 & H3)];
        rewrite H2, H3; cbn [length];
        destruct (Z.ltb_spec j (m mod total)), (Z.ltb_spec j (m mod total + 1));
        try destruct (Z.ltb_spec j 0); lia.
    + assert (Hne : m mod total <> j).
      { intros H. apply rr_selects_iff in H; [|lia..]. congruence. }
      destruct (succ_div_mod m total Hm Ht) as [(H1 & H2 & H3)|(H1 & H2 & H3)];
        rewrite H2, H3; cbn [length];
        destruct (Z.ltb_spec j (m mod total)), (Z.ltb_spec j (m mod total + 1));
        try destruct (Z.ltb_spec j 0); lia.
Qed.

(** X1. Round-robin is even: shard [i] of [total] gets [n / total] tests and
    one more when [i] is at most the remainder, so that two shards never
    differ by more than one test. *)
Theorem RoundRobin_even (tests : list string) (total i j : Z) :
  1 <= total -> 1 <= i <= total -> 1 <= j <= total ->
  let n := Z.of_nat (length tests) in
  let size k := Z.of_nat (length (RoundRobin_distributeTests tests
                                    {| index := k; total := total |})) in
  size i = n / total + (if i <=? n mod total then 1 else 0) /\
  Z.abs (size i - size j) <= 1 /\
  (i <= j -> size j <= size i).
Proof.
  intros Ht Hi Hj n size.
  assert (Hsize : forall k, 1 <= k <= total ->
            size k = n / total + (if k <=? n mod total then 1 else 0)).
  { intros k Hk. unfold size, RoundRobin_distributeTests, js_filter. simpl.
    pose proof (rr_count total (k - 1) tests Ht ltac:(lia)) as H. cbv zeta in H.
    unfold rr_selects in H. rewrite H. fold n.
    destruct (Z.ltb_spec (k - 1) (n mod total)), (Z.leb_spec k (n mod total)); lia. }
  rewrite (Hsize i Hi), (Hsize j Hj).
  repeat split;
    destruct (Z.leb_spec i (n mod total)), (Z.leb_spec j (n mod total)); lia.
Qed.

Lemma RoundRobin_even_witness :
  let n := Z.of_nat (length scenario_tests) in
  let size k := Z.of_nat (length (RoundRobin_distributeTests scenario_tests
                                    {| index := k; total := 4 |})) in
  size 2 = n / 4 + (if 2 <=? n mod 4 then 1 else 0) /\
  Z.abs (size 2 - size 3) <= 1 /\
  (2 <= 3 -> size 3 <= size 2).
Proof. apply (RoundRobin_even scenario_tests 4 2 3); lia. Defined.

(** ** The greedy assignment on costs that are all equal *)

Lemma filter_all {A : Type} (f : A -> bool) (l : list A) :
  (forall x, In x l -> f x = true) -> List.filter f l = l.
Proof.
  induction l as [|a l IH]; intros H; simpl; [reflexivity|].
  rewrite (H a) by (left; reflexivity). f_equal. apply IH.
  intros x Hx. apply H. right. exact Hx.
Qed.

Lemma sort_desc_uniform (c : Z) (files : list (string * Z)) :
  (forall f, In f files -> f.2 = c) -> sort_desc files = files.
Proof.
  intros Hc.
  rewrite <- (filter_all (of_cost c) (sort_desc files)).
  - rewrite sort_desc_stable. apply filter_all.
    intros f Hf. unfold of_cost. apply Z.eqb_eq, Hc, Hf.
  - intros f Hf. unfold of_cost. apply Z.eqb_eq, Hc.
    eapply Permutation_in; [apply sort_desc_perm|exact Hf].
Qed.

Lemma minShard_unique (shards : list shard) (m : nat) (s : shard) :
  shards !! m = Some s ->
  (forall j s', shards !! j = Some s' -> totalSize s <= totalSize s') ->
  (forall j s', (j < m)%nat -> shards !! j = Some s' -> totalSize s < totalSize s') ->
  minShard shards = m.
Proof.
  intros Hm Hle Hlt.
  assert (Hne : shards <> []) by (intros ->; discriminate).
  destruct (minShard_spec shards Hne) as (s0 & H0 & Hle0 & Hlt0).
  destruct (Nat.lt_trichotomy (minShard shards) m) as [H|[H|H]]; [|assumption|].
  - specialize (Hlt _ _ H H0). specialize (Hle0 _ _ Hm). lia.
  - specialize (Hlt0 _ _ H Hm). specialize (Hle _ _ H0). lia.
Qed.

Lemma uniform_shards_lookup (c total : Z) (processed : list string) (j : nat) :
  (j < Z.to_nat total)%nat ->
  uniform_shards c total processed !! j = Some (uniform_shard c total processed j).
Proof.
  intros Hj. unfold uniform_shards.
  rewrite list_lookup_fmap, lookup_seq_lt by assumption. reflexivity.
Qed.

Lemma uniform_shards_length (c total : Z) (processed : list string) :
  length (uniform_shards c total processed) = Z.to_nat total.
Proof. unfold uniform_shards. rewrite length_fmap, length_seq. reflexivity. Qed.

Lemma uniform_shard_size (c total : Z) (processed : list string) (j : nat) :
  1 <= total -> (j < Z.to_nat total)%nat ->
  let n := Z.of_nat (length processed) in
  totalSize (uniform_shard c total processed j) =
  c * (n / total + (if Z.of_nat j <? n mod total then 1 else 0)).
Proof.
  intros Ht Hj n. unfold uniform_shard. simpl.
  rewrite (rr_count total (Z.of_nat j) processed Ht ltac:(lia)). reflexivity.
Qed.

Lemma uniform_shard_snoc (c total : Z) (processed : list string) (x : string) (j : nat) :
  1 <= total -> (j < Z.to_nat total)%nat ->
  uniform_shard c total (processed ++ [x]) j =
  if decide (j = Z.to_nat (Z.of_nat (length processed) mod total))
  then add_file (uniform_shard c total processed j) (x, c)
  else uniform_shard c total processed j.
Proof.
  intros Ht Hj. unfold uniform_shard, add_file. cbn [paths totalSize fst snd].
  rewrite filter_from_app. cbn [filter_from]. rewrite Z.add_0_l.
  pose proof (Z.mod_pos_bound (Z.of_nat (length processed)) total ltac:(lia)) as Hb.
  destruct (rr_selects total (Z.of_nat j) (Z.of_nat (length processed))) eqn:Hsel.
  - apply rr_selects_iff in Hsel; [|lia..].
    rewrite decide_True by lia. f_equal. rewrite length_app. simpl. lia.
  - assert (Hne : Z.of_nat (length processed) mod total <> Z.of_nat j).
    { intros H. apply rr_selects_iff in H; [|lia..]. congruence. }
    rewrite decide_False by lia. rewrite app_nil_r. reflexivity.
Qed.

(** With equal positive costs the next test goes to the shard after the
    one that got the previous test. *)
Lemma place_uniform (c total : Z) (processed : list string) (x : string) :
  0 < c -> 1 <= total ->
  place (uniform_shards c total processed) (x, c) =
  Normal (uniform_shards c total (processed ++ [x])).
Proof.
  intros Hc Ht.
  set (n := Z.of_nat (length processed)).
  pose proof (Z.mod_pos_bound n total ltac:(lia)) as Hb.
  set (r := Z.to_nat (n mod total)).
  assert (Hr : (r < Z.to_nat total)%nat) by (unfold r; lia).
  assert (Hmin : minShard (uniform_shards c total processed) = r).
  { apply (minShard_unique _ r (uniform_shard c total processed r)).
    - apply uniform_shards_lookup. assumption.
    - intros j s' Hj. pose proof (lookup_lt_Some _ _ _ Hj) as Hlt.
      rewrite uniform_shards_length in Hlt.
      rewrite uniform_shards_lookup in Hj by assumption. injection Hj as <-.
      rewrite !uniform_shard_size by assumption. fold n.
      destruct (Z.ltb_spec (Z.of_nat r) (n mod total)); [unfold r in *; lia|].
      destruct (Z.ltb_spec (Z.of_nat j) (n mod total)); nia.
    - intros j s' Hjr Hj.
      rewrite uniform_shards_lookup in Hj by lia. injection Hj as <-.
      rewrite !uniform_shard_size by lia. fold n.
      destruct (Z.ltb_spec (Z.of_nat r) (n mod total)); [unfold r in *; lia|].
      destruct (Z.ltb_spec (Z.of_nat j) (n mod total)); [nia|unfold r in *; lia]. }
  unfold place. rewrite Hmin, uniform_shards_lookup by assumption. f_equal.
  apply list_eq. intros j.
  destruct (decide (j < Z.to_nat total)%nat) as [Hj|Hj].
  - rewrite uniform_shards_lookup, uniform_shard_snoc by assumption. fold n r.
    destruct (decide (j = r)) as [->|Hne].
    + rewrite list_lookup_insert_eq by (rewrite uniform_shards_length; assumption).
      reflexivity.
    + rewrite list_lookup_insert_ne by congruence.
      apply uniform_shards_lookup. assumption.
  - rewrite !lookup_ge_None_2; [reflexivity| |].
    + rewrite uniform_shards_length. lia.
    + rewrite length_insert, uniform_shards_length. lia.
Qed.

Lemma place_all_uniform (c total : Z) (rest processed : list string) :
  0 < c -> 1 <= total ->
  place_all (uniform_shards c total processed) (List.map (fun p => (p, c)) rest) =
  Normal (uniform_shards c total (processed ++ rest)).
Proof.
  intros Hc Ht. revert processed. induction rest as [|x rest IH]; intros processed.
  - simpl. rewrite app_nil_r. reflexivity.
  - simpl. rewrite place_uniform by assumption. simpl.
    rewrite IH, <- app_assoc. reflexivity.
Qed.

Lemma fresh_shards_uniform (c total : Z) :
  fresh_shards total = uniform_shards c total [].
Proof.
  unfold fresh_shards, uniform_shards.
  generalize 0%nat. induction (Z.to_nat total) as [|n IH]; intros k; [reflexivity|].
  simpl. rewrite <- IH. f_equal. unfold uniform_shard, empty_shard. simpl.
  f_equal. lia.
Qed.

(** Costs that are all the same positive number make the greedy
    assignment round-robin. *)
Lemma greedy_uniform (c : Z) (tests : list string) (info : ShardInfo) :
  0 < c -> 1 <= index info <= total info ->
  greedy (List.map (fun p => (p, c)) tests) info =
  Normal (RoundRobin_distributeTests tests info).
Proof.
  intros Hc Hi. unfold greedy.
  rewrite (sort_desc_uniform c).
  2:{ intros f Hf. apply in_map_iff in Hf as (p & <- & _). reflexivity. }
  rewrite (fresh_shards_uniform c), (place_all_uniform c (total info) tests [])
    by lia.
  simpl. unfold array_get.
  destruct (Z.ltb_spec (index info - 1) 0); [lia|].
  rewrite uniform_shards_lookup by lia.
  unfold uniform_shard, RoundRobin_distributeTests, js_filter, rr_selects. simpl.
  rewrite Z2Nat.id by lia. reflexivity.
Qed.

(** ** The greedy assignment on costs that are all zero *)

Lemma place_first_only (total : Z) (processed : list string) (x : string) :
  place (first_shard_only total processed) (x, 0) =
  Normal (first_shard_only total (processed ++ [x])).
Proof.
  assert (Hmin : minShard (first_shard_only total processed) = 0%nat).
  { apply (minShard_unique _ 0%nat {| paths := processed; totalSize := 0 |}).
    - reflexivity.
    - intros [|j] s' Hj; simpl in Hj.
      + injection Hj as <-. simpl. lia.
      + apply lookup_replicate in Hj as [-> _]. simpl. lia.
    - intros j s' Hj. lia. }
  unfold place. rewrite Hmin. simpl. unfold add_file. simpl. reflexivity.
Qed.

Lemma place_all_first_only (total : Z) (rest processed : list string) :
  place_all (first_shard_only total processed) (List.map (fun p => (p, 0)) rest) =
  Normal (first_shard_only total (processed ++ rest)).
Proof.
  revert processed. induction rest as [|x rest IH]; intros processed.
  - simpl. rewrite app_nil_r. reflexivity.
  - simpl. rewrite place_first_only. simpl. rewrite IH, <- app_assoc. reflexivity.
Qed.

Lemma greedy_zero (tests : list string) (info : ShardInfo) :
  1 <= index info <= total info ->
  greedy (List.map (fun p => (p, 0)) tests) info =
  Normal (if index info =? 1 then tests else []).
Proof.
  intros Hi. unfold greedy.
  rewrite (sort_desc_uniform 0).
  2:{ intros f Hf. apply in_map_iff in Hf as (p & <- & _). reflexivity. }
  assert (Hfresh : fresh_shards (total info) = first_shard_only (total info) []).
  { unfold fresh_shards, first_shard_only.
    destruct (Z.to_nat (total info)) as [|n] eqn:E; [lia|].
    simpl. rewrite Nat.sub_0_r. reflexivity. }
  rewrite Hfresh, place_all_first_only. simpl. unfold array_get.
  destruct (Z.ltb_spec (index info - 1) 0); [lia|].
  destruct (Z.eqb_spec (index info) 1) as [->|Hne].
  - reflexivity.
  - destruct (Z.to_nat (index info - 1)) as [|k] eqn:E; [lia|].
    simpl. rewrite lookup_replicate_2 by lia. reflexivity.
Qed.

(** ** The greedy strategies on degenerate and on arbitrary costs *)

(** X2. Where all the tests of the list cost the same positive amount,
    [FileSizeStrategy] (files of one size) and [SmartStrategy] (tests of
    one effective duration, as on a first run without any history) return
    for every index in [1 .. total] exactly what [RoundRobinStrategy]
    returns. *)
Theorem equal_costs_round_robin (fs : FileSizeStrategy) (sm : SmartStrategy)
    (c d : Z) (tests : list string) (info : ShardInfo) :
  0 < c -> 0 < d ->
  (forall p, In p tests -> getFileSize fs p = c) ->
  (forall p, In p tests -> duration sm p = d) ->
  1 <= index info <= total info ->
  distributeTests fs tests info = distributeTests new_RoundRobinStrategy tests info /\
  distributeTests sm tests info = distributeTests new_RoundRobinStrategy tests info.
Proof.
  intros Hc Hd Hfs Hsm Hi.
  unfold distributeTests, FileSize_strategy, Smart_strategy, RoundRobin_strategy,
    FileSize_distributeTests, Smart_distributeTests.
  split.
  - rewrite (map_ext_in _ (fun p => (p, c))).
    + apply greedy_uniform; assumption.
    + intros p Hp. rewrite (Hfs p Hp). reflexivity.
  - rewrite (map_ext_in _ (fun p => (p, d))).
    + apply greedy_uniform; assumption.
    + intros p Hp. rewrite (Hsm p Hp). reflexivity.
Qed.

Lemma equal_costs_round_robin_witness :
  let fs := {| stat_size := fun _ => Some 512%N |} in
  let sm := {| testHistory := ∅ |} in
  let info := {| index := 2; total := 4 |} in
  distributeTests fs scenario_tests info =
    distributeTests new_RoundRobinStrategy scenario_tests info /\
  distributeTests sm scenario_tests info =
    distributeTests new_RoundRobinStrategy scenario_tests info.
Proof.
  intros fs sm info.
  apply (equal_costs_round_robin fs sm 512 1000 scenario_tests info).
  - lia.
  - lia.
  - intros p _. reflexivity.
  - intros p _. reflexivity.
  - simpl. lia.
Defined.

(** X3. Where [fs.statSync] raises for every test of the list, or every
    file is empty, [FileSizeStrategy] gives the whole list, in its order,
    to shard 1 and nothing to the other shards. *)
Theorem FileSize_no_sizes_first_shard (fs : FileSizeStrategy)
    (tests : list string) (info : ShardInfo) :
  (forall p, In p tests -> stat_size fs p = None \/ stat_size fs p = Some 0%N) ->
  1 <= index info <= total info ->
  distributeTests fs tests info = Normal (if index info =? 1 then tests else []).
Proof.
  intros Hfs Hi.
  unfold distributeTests, FileSize_strategy, FileSize_distributeTests.
  rewrite (map_ext_in _ (fun p => (p, 0))).
  - apply greedy_zero; assumption.
  - intros p Hp. unfold getFileSize. destruct (Hfs p Hp) as [-> | ->]; reflexivity.
Qed.

Lemma FileSize_no_sizes_first_shard_witness :
  let fs := {| stat_size := fun _ => None |} in
  distributeTests fs scenario_tests {| index := 1; total := 2 |} = Normal scenario_tests /\
  distributeTests fs scenario_tests {| index := 2; total := 2 |} = Normal [].
Proof.
  intros fs. split.
  - apply (FileSize_no_sizes_first_shard fs scenario_tests {| index := 1; total := 2 |}).
    + intros p _. left. reflexivity.
    + simpl. lia.
  - apply (FileSize_no_sizes_first_shard fs scenario_tests {| index := 2; total := 2 |}).
    + intros p _. left. reflexivity.
    + simpl. lia.
Defined.

(** *** The load of a shard against the mean *)

Lemma sum_cost_perm (cost : string -> Z) (l1 l2 : list string) :
  Permutation l1 l2 -> sum_cost cost l1 = sum_cost cost l2.
Proof.
  unfold sum_cost. induction 1; simpl; lia.
Qed.

Lemma sum_cost_concat (cost : string -> Z) (shards : list shard) :
  Forall (accounted cost) shards ->
  sum_cost cost (concat (List.map paths shards)) = foldr Z.add 0 (totalSize <$> shards).
Proof.
  induction 1 as [|s shards Hs _ IH]; [reflexivity|].
  simpl. rewrite sum_cost_app, IH, Hs. reflexivity.
Qed.

Lemma sum_within (m x : Z) (l : list Z) :
  (forall y, y ∈ l -> x - y <= m) ->
  Z.of_nat (length l) * x <= foldr Z.add 0 l + Z.of_nat (length l) * m.
Proof.
  induction l as [|y l IH]; intros H; [simpl; lia|].
  assert (Hy : x - y <= m) by (apply H; left).
  assert (Hl : forall z, z ∈ l -> x - z <= m) by (intros z Hz; apply H; right; exact Hz).
  specialize (IH Hl). cbn [length foldr]. lia.
Qed.

Lemma sum_within_member (m x : Z) (l : list Z) :
  x ∈ l -> (forall y, y ∈ l -> x - y <= m) ->
  Z.of_nat (length l) * x <= foldr Z.add 0 l + (Z.of_nat (length l) - 1) * m.
Proof.
  intros Hx H. apply list_elem_of_split in Hx as (l1 & l2 & ->).
  pose proof (sum_within m x l1
    ltac:(intros y Hy; apply H; apply elem_of_app; left; exact Hy)) as H1.
  pose proof (sum_within m x l2
    ltac:(intros y Hy; apply H; apply elem_of_app; right; right; exact Hy)) as H2.
  rewrite foldr_app. cbn [foldr].
  assert (Hf : forall a k, foldr Z.add a k = foldr Z.add 0 k + a).
  { intros a k. induction k as [|z k IHk]; simpl; lia. }
  rewrite (Hf (x + _)). rewrite length_app. cbn [length]. lia.
Qed.

(** The shards the loop ends with: their running totals are the summed
    costs of their paths and lie within the largest cost of each other. *)
Lemma greedy_loads (cost : string -> Z) (tests : list string) (total : Z) :
  (forall p, In p tests -> 0 <= cost p) ->
  1 <= total ->
  exists shards,
    place_all (fresh_shards total) (sort_desc (List.map (fun p => (p, cost p)) tests)) =
      Normal shards /\
    length shards = Z.to_nat total /\
    Permutation (concat (List.map paths shards)) tests /\
    Forall (accounted cost) shards /\
    balanced (max_cost cost tests) shards.
Proof.
  intros Hpos Ht. set (files := List.map (fun p => (p, cost p)) tests).
  destruct (greedy_shards files total Ht) as (shards & Hrun & Hlen & Hp).
  assert (Hfst : List.map fst files = tests).
  { unfold files. rewrite List.map_map. simpl. apply map_id. }
  rewrite Hfst in Hp.
  destruct (place_all_loads cost (max_cost cost tests) (sort_desc files)
              (fresh_shards total) shards) as [Hacc Hbal]; try assumption.
  - apply fresh_shards_nonempty; lia.
  - rewrite sort_desc_perm. unfold files. apply Forall_forall.
    intros f Hf. apply list_elem_of_In, in_map_iff in Hf as (p & <- & _). reflexivity.
  - rewrite sort_desc_perm. unfold files. apply Forall_forall.
    intros f Hf. apply list_elem_of_In, in_map_iff in Hf as (p & <- & Hin). simpl.
    split; [apply Hpos; assumption|apply max_cost_bound; assumption].
  - unfold fresh_shards. apply Forall_replicate. reflexivity.
  - intros s1 s2 H1 H2. unfold fresh_shards in *.
    apply elem_of_replicate in H1 as [-> _], H2 as [-> _]. simpl.
    pose proof (max_cost_nonneg cost tests). lia.
  - exists shards. auto.
Qed.

Lemma greedy_mean (cost : string -> Z) (tests : list string) (info : ShardInfo) :
  (forall p, In p tests -> 0 <= cost p) ->
  1 <= index info <= total info ->
  exists a,
    greedy (List.map (fun p => (p, cost p)) tests) info = Normal a /\
    total info * sum_cost cost a <=
      sum_cost cost tests + (total info - 1) * max_cost cost tests.
Proof.
  intros Hpos Hi. destruct info as [i total]. simpl in *.
  destruct (greedy_loads cost tests total Hpos ltac:(lia))
    as (shards & Hrun & Hlen & Hp & Hacc & Hbal).
  destruct (lookup_lt_is_Some_2 shards (Z.to_nat (i - 1)) ltac:(lia)) as [a Ha].
  exists (paths a).
  pose proof (greedy_at _ total shards _ a Hrun Ha) as Ga.
  replace (Z.of_nat (S (Z.to_nat (i - 1)))) with i in Ga by lia.
  split; [assumption|].
  rewrite <- (sum_cost_perm cost _ _ Hp), (sum_cost_concat cost shards Hacc).
  assert (Ha' : a ∈ shards) by (eapply list_elem_of_lookup_2; eassumption).
  rewrite Forall_forall in Hacc. rewrite <- (Hacc a Ha').
  pose proof (sum_within_member (max_cost cost tests) (totalSize a) (totalSize <$> shards)) as H.
  rewrite length_fmap, Hlen in H.
  replace (Z.of_nat (Z.to_nat total)) with total in H by lia.
  apply H.
  - apply list_elem_of_fmap. exists a. auto.
  - intros y Hy. apply list_elem_of_fmap in Hy as (b & -> & Hb). apply Hbal; assumption.
Qed.

(** X4. For every number of shards, the summed file size of a shard of
    [FileSizeStrategy] exceeds the mean over the shards by less than the
    largest file; the same holds for the summed durations of a shard of
    [SmartStrategy] when no recorded duration is negative. *)
Theorem shard_load_near_mean (fs : FileSizeStrategy) (sm : SmartStrategy)
    (tests : list string) (info : ShardInfo) :
  map_Forall (fun _ d => 0 <= d) (testHistory sm) ->
  1 <= index info <= total info ->
  (exists a, distributeTests fs tests info = Normal a /\
     total info * sum_cost (getFileSize fs) a <=
       sum_cost (getFileSize fs) tests +
       (total info - 1) * max_cost (getFileSize fs) tests) /\
  (exists a, distributeTests sm tests info = Normal a /\
     total info * sum_cost (duration sm) a <=
       sum_cost (duration sm) tests +
       (total info - 1) * max_cost (duration sm) tests).
Proof.
  intros Hh Hi. split.
  - apply (greedy_mean (getFileSize fs)); [|assumption].
    intros p _. apply getFileSize_nonneg.
  - apply (greedy_mean (duration sm)); [|assumption].
    intros p _. apply duration_nonneg. intros q d Hq. apply (Hh q d Hq).
Qed.

Lemma shard_load_near_mean_witness :
  let info := {| index := 3; total := 4 |} in
  (exists a, distributeTests scenario_sizes scenario_tests info = Normal a /\
     total info * sum_cost (getFileSize scenario_sizes) a <=
       sum_cost (getFileSize scenario_sizes) scenario_tests +
       (total info - 1) * max_cost (getFileSize scenario_sizes) scenario_tests) /\
  (exists a, distributeTests scenario_history scenario_tests info = Normal a /\
     total info * sum_cost (duration scenario_history) a <=
       sum_cost (duration scenario_history) scenario_tests +
       (total info - 1) * max_cost (duration scenario_history) scenario_tests).
Proof.
  intros info.
  apply (shard_load_near_mean scenario_sizes scenario_history scenario_tests info).
  - apply (bool_decide_unpack _). vm_compute. exact I.
  - simpl. lia.
Defined.

(** *** A shard count that is not positive *)

Lemma filter_from_ext {A : Type} (f g : A -> Z -> bool) (i : Z) (l : list A) :
  (forall x k, f x k = g x k) -> filter_from f i l = filter_from g i l.
Proof.
  intros H. revert i. induction l as [|x l IH]; intros i; simpl; [reflexivity|].
  rewrite H, IH. reflexivity.
Qed.

Lemma js_rem_opp (a b : Z) : js_rem a (- b) = js_rem a b.
Proof.
  unfold js_rem. destruct (Z.eqb_spec b 0) as [->|Hb]; [reflexivity|].
  destruct (Z.eqb_spec (- b) 0); [lia|]. rewrite Z.rem_opp_r by assumption. reflexivity.
Qed.

(** X5. A shard count that is not positive: [FileSizeStrategy] and
    [SmartStrategy] raise a [TypeError] for every index and list;
    [RoundRobinStrategy] and [HashBasedStrategy] return the empty list for
    the count 0, and for a negative count what they return for its
    absolute value. *)
Theorem not_positive_total (fs : FileSizeStrategy) (sm : SmartStrategy)
    (tests : list string) (info : ShardInfo) :
  total info <= 0 ->
  let mirrored := {| index := index info; total := - total info |} in
  distributeTests fs tests info = Throws TypeError /\
  distributeTests sm tests info = Throws TypeError /\
  distributeTests new_RoundRobinStrategy tests info =
    (if total info =? 0 then Normal []
     else distributeTests new_RoundRobinStrategy tests mirrored) /\
  distributeTests new_HashBasedStrategy tests info =
    (if total info =? 0 then Normal []
     else distributeTests new_HashBasedStrategy tests mirrored).
Proof.
  intros Ht mirrored.
  unfold distributeTests, FileSize_strategy, Smart_strategy, RoundRobin_strategy,
    HashBased_strategy, FileSize_distributeTests, Smart_distributeTests.
  split; [|split; [|split]].
  - apply greedy_out_of_range. lia.
  - apply greedy_out_of_range. lia.
  - destruct (Z.eqb_spec (total info) 0) as [E|E]; f_equal.
    + unfold RoundRobin_distributeTests, js_filter. rewrite E.
      apply filter_from_false. intros x k. reflexivity.
    + unfold RoundRobin_distributeTests, js_filter, mirrored. simpl.
      apply filter_from_ext. intros x k. rewrite js_rem_opp. reflexivity.
  - destruct (Z.eqb_spec (total info) 0) as [E|E]; f_equal.
    + unfold HashBased_distributeTests.
      induction tests as [|p tests IH]; [reflexivity|]. simpl.
      unfold hash_selects at 1. rewrite E.
      destruct (hashNum p); exact IH.
    + unfold HashBased_distributeTests. apply filter_ext.
      intros p. unfold hash_selects, mirrored. simpl.
      destruct (hashNum p); [|reflexivity]. rewrite js_rem_opp. reflexivity.
Qed.

Lemma not_positive_total_witness :
  let info := {| index := 2; total := -3 |} in
  let mirrored := {| index := 2; total := 3 |} in
  distributeTests scenario_sizes scenario_tests info = Throws TypeError /\
  distributeTests scenario_history scenario_tests info = Throws TypeError /\
  distributeTests new_RoundRobinStrategy scenario_tests info =
    distributeTests new_RoundRobinStrategy scenario_tests mirrored /\
  distributeTests new_HashBasedStrategy scenario_tests info =
    distributeTests new_HashBasedStrategy scenario_tests mirrored.
Proof.
  intros info mirrored.
  apply (not_positive_total scenario_sizes scenario_history scenario_tests info).
  simpl. lia.
Defined.

(** ** The history file and the reporter *)

(** X6. A [SmartStrategy] built on a missing or an unparsable history
    file, as every shard of a first run builds it, returns for every
    index in [1 .. total] and every test list what [RoundRobinStrategy]
    returns. *)
Theorem Smart_without_history_file (file : HistoryFile)
    (tests : list string) (info : ShardInfo) :
  file = NoHistoryFile \/ file = BadHistoryFile ->
  1 <= index info <= total info ->
  distributeTests (new_SmartStrategy file) tests info =
  distributeTests new_RoundRobinStrategy tests info.
Proof.
  intros Hf Hi.
  unfold distributeTests, Smart_strategy, RoundRobin_strategy, Smart_distributeTests.
  rewrite (map_ext_in _ (fun p => (p, 1000))).
  - apply greedy_uniform; [lia|assumption].
  - intros p _. unfold duration, new_SmartStrategy. simpl.
    destruct Hf as [-> | ->]; simpl; rewrite lookup_empty; reflexivity.
Qed.

Lemma Smart_without_history_file_witness :
  distributeTests (new_SmartStrategy BadHistoryFile) scenario_tests
    {| index := 3; total := 4 |} =
  distributeTests new_RoundRobinStrategy scenario_tests {| index := 3; total := 4 |}.
Proof.
  apply (Smart_without_history_file BadHistoryFile scenario_tests {| index := 3; total := 4 |}).
  - right. reflexivity.
  - simpl. lia.
Defined.

(** X7. Two strategy objects on one history file, as the reporters of two
    shards have them: when each records the duration of a test of its own
    and the first write comes first, the file ends with the second
    object's map, and the duration the first one recorded is in it only if
    the file held it from the start. *)
Theorem history_lost_update (file : HistoryFile) (pA pB : string) (dA dB : Z) :
  pA <> pB ->
  let a := new_SmartStrategy file in
  let b := new_SmartStrategy file in
  let '(a', file1) := updateTestDuration_saved a pA dA true file in
  let '(b', file2) := updateTestDuration_saved b pB dB true file1 in
  loadHistory file1 !! pA = Some dA /\
  loadHistory file2 !! pA = loadHistory file !! pA /\
  loadHistory file2 !! pB = Some dB /\
  new_SmartStrategy file2 = b'.
Proof.
  intros Hne. simpl. repeat split.
  - apply lookup_insert_eq.
  - apply lookup_insert_ne. congruence.
  - apply lookup_insert_eq.
Qed.

Lemma history_lost_update_witness :
  let '(a', file1) :=
    updateTestDuration_saved (new_SmartStrategy NoHistoryFile) "a" 5000 true NoHistoryFile in
  let '(b', file2) :=
    updateTestDuration_saved (new_SmartStrategy NoHistoryFile) "b" 100 true file1 in
  loadHistory file1 !! "a"%string = Some 5000 /\
  loadHistory file2 !! "a"%string = None /\
  loadHistory file2 !! "b"%string = Some 100 /\
  new_SmartStrategy file2 = b'.
Proof.
  apply (history_lost_update NoHistoryFile "a" "b" 5000 100). discriminate.
Defined.

(** *** The durations the reporter records *)

Lemma report_keeps (clock : Z) (started : gset string)
    (st : JestShardReporter * HistoryFile) (calls : list reporter_call) :
  0 < clock ->
  well_timed clock started calls ->
  timed clock started (fst st) ->
  nonneg_history (testHistory (shardingStrategy (fst st))) ->
  nonneg_history (loadHistory (snd st)) ->
  nonneg_history (testHistory (shardingStrategy (fst (report_all st calls)))) /\
  nonneg_history (loadHistory (snd (report_all st calls))).
Proof.
  revert clock started st.
  induction calls as [|c calls IH]; intros clock started [self file] Hc Hw Ht Hh Hf.
  - auto.
  - destruct c as [path t|path t1 t2 writable]; simpl in Hw.
    + destruct Hw as [Hle Hw]. unfold report_all. simpl.
      apply (IH t ({[path]} ∪ started)); try assumption; [lia|].
      intros p Hp. simpl.
      destruct (decide (p = path)) as [->|Hne].
      * exists t. rewrite lookup_insert_eq. split; [reflexivity|lia].
      * rewrite lookup_insert_ne by congruence.
        apply elem_of_union in Hp as [Hp|Hp]; [set_solver|].
        destruct (Ht p Hp) as (u & Hu & Hb). exists u. simpl in Hu. split; [assumption|lia].
    + destruct Hw as (Hle & H12 & Hs & Hw). unfold report_all. simpl.
      destruct (Ht path Hs) as (u & Hu & Hb). simpl in Hu.
      assert (Hm : 0 <= measured self path t1 t2).
      { unfold measured. rewrite Hu. destruct (Z.eqb_spec u 0); lia. }
      assert (Hh' : nonneg_history
                (<[path := measured self path t1 t2]> (testHistory (shardingStrategy self)))).
      { apply map_Forall_insert_2; assumption. }
      apply (IH t2 started); try assumption.
      * lia.
      * intros p Hp. destruct (Ht p Hp) as (v & Hv & Hbv). exists v. simpl in *.
        split; [assumption|lia].
      * simpl. unfold saveHistory. destruct writable; assumption.
Qed.

(** X8. While the clock is positive and does not go back, and Jest
    reports the result of a test only after its start, no duration that
    the reporter records is negative: a history without negative entries,
    in the object and in the file, stays one over any sequence of
    [onTestStart] and [onTestResult] calls, whether or not the writes to
    the file succeed. *)
Theorem reporter_history_nonneg (file : HistoryFile) (clock : Z)
    (calls : list reporter_call) :
  0 < clock ->
  well_timed clock ∅ calls ->
  nonneg_history (loadHistory file) ->
  let '(self, file') := report_all (new_JestShardReporter file, file) calls in
  nonneg_history (testHistory (shardingStrategy self)) /\
  nonneg_history (loadHistory file').
Proof.
  intros Hc Hw Hf.
  pose proof (report_keeps clock ∅ (new_JestShardReporter file, file) calls Hc Hw) as H.
  destruct (report_all _ calls) as [self file']. simpl in H. apply H.
  - intros p Hp. set_solver.
  - assumption.
  - assumption.
Qed.

Lemma reporter_history_nonneg_witness :
  let calls := [TestStart "a" 100; TestStart "b" 105; TestResult "b" 130 130 true;
                TestResult "a" 250 251 false] in
  let '(self, file') := report_all (new_JestShardReporter NoHistoryFile, NoHistoryFile) calls in
  nonneg_history (testHistory (shardingStrategy self)) /\
  nonneg_history (loadHistory file').
Proof.
  intros calls.
  apply (reporter_history_nonneg NoHistoryFile 1 calls).
  - lia.
  - simpl. repeat split; try lia; set_solver.
  - apply map_Forall_empty.
Defined.

(** X9. A result that is reported for a test without a start, when the
    clock moves between the two readings of [onTestResult], is recorded
    with a negative duration. *)
Theorem result_without_start_negative (self : JestShardReporter) (path : string)
    (clock1 clock2 : Z) (file : HistoryFile) :
  testDurations self !! path = None ->
  clock1 < clock2 ->
  let '(self', file') := onTestResult self path clock1 clock2 true file in
  testHistory (shardingStrategy self') !! path = Some (clock1 - clock2) /\
  loadHistory file' !! path = Some (clock1 - clock2) /\
  clock1 - clock2 < 0 /\
  ~ nonneg_history (loadHistory file').
Proof.
  intros Hn Hlt. simpl. unfold measured. rewrite Hn.
  repeat split; try apply lookup_insert_eq; [lia|].
  intros H. specialize (H path (clock1 - clock2) (lookup_insert_eq _ _ _)). simpl in H. lia.
Qed.

Lemma result_without_start_negative_witness :
  let '(self', file') :=
    onTestResult (new_JestShardReporter NoHistoryFile) "a" 100 101 true NoHistoryFile in
  testHistory (shardingStrategy self') !! "a"%string = Some (100 - 101) /\
  loadHistory file' !! "a"%string = Some (100 - 101) /\
  100 - 101 < 0 /\
  ~ nonneg_history (loadHistory file').
Proof.
  apply (result_without_start_negative (new_JestShardReporter NoHistoryFile) "a" 100 101
           NoHistoryFile).
  - reflexivity.
  - lia.
Defined.

(** X10. A test that starts and ends on one reading of the clock is
    recorded with the duration 0, and [SmartStrategy] then costs it 1000,
    as it costs a test it has no record of. *)
Theorem instant_test_costed_as_unknown (self : JestShardReporter) (path : string)
    (clock : Z) (writable : bool) (file : HistoryFile) :
  let '(self', _) :=
    onTestResult (onTestStart self path clock) path clock clock writable file in
  testHistory (shardingStrategy self') !! path = Some 0 /\
  duration (shardingStrategy self') path = 1000.
Proof.
  simpl. unfold measured, duration. simpl. rewrite !lookup_insert_eq.
  destruct (Z.eqb_spec clock 0); rewrite Z.sub_diag; split; reflexivity.
Qed.

(** ** [getShardStatus] *)

Lemma tally_count (s : Status) (l : list ShardStatus) (c : StatusCounts) :
  count_of (foldl tally c l) s =
  count_of c s + Z.of_nat (length (filter (fun st => status st = s) l)).
Proof.
  revert c. induction l as [|st l IH]; intros c; simpl; [lia|].
  rewrite IH. rewrite filter_cons.
  unfold tally. destruct (status st) eqn:E, s;
    destruct (decide _) as [D|D]; try congruence; simpl; lia.
Qed.

Lemma filter_snd_length {A B : Type} (P : B -> Prop) `{!forall b, Decision (P b)}
    (l : list (A * B)) :
  length (filter P l.*2) = length (filter (fun kv => P kv.2) l).
Proof.
  induction l as [|[a b] l IH]; [reflexivity|].
  rewrite fmap_cons, !filter_cons. simpl.
  destruct (decide (P b)); simpl; rewrite IH; reflexivity.
Qed.

Lemma size_filter_list {A : Type} (P : Z * A -> Prop) `{!forall x, Decision (P x)}
    (m : gmap Z A) :
  size (filter P m) = length (filter P (map_to_list m)).
Proof.
  rewrite <- length_map_to_list, map_filter_alt.
  apply Permutation_length, map_to_list_to_map.
  assert (Hs : (filter P (map_to_list m)).*1 `sublist_of` (map_to_list m).*1)
    by apply fmap_sublist, sublist_filter.
  refine (sublist_NoDup _ _ _ Hs). apply NoDup_fst_map_to_list.
Qed.

Lemma getShardStatus_count (w : World) (s : Status) :
  count_of (getShardStatus w) s = Z.of_nat (size (with_status s (readStatus w))).
Proof.
  unfold getShardStatus, with_status. rewrite tally_count.
  rewrite (filter_snd_length (fun st => status st = s)).
  rewrite size_filter_list. destruct s; reflexivity.
Qed.

Lemma getShardStatus_none (w : World) (s : Status) :
  (forall i st, readStatus w !! i = Some st -> status st <> s) ->
  count_of (getShardStatus w) s = 0.
Proof.
  intros H. rewrite getShardStatus_count.
  replace (with_status s (readStatus w)) with (∅ : gmap Z ShardStatus); [reflexivity|].
  symmetry. apply map_empty. intros i. unfold with_status.
  apply map_lookup_filter_None. destruct (readStatus w !! i) as [st|] eqn:E; [right|left; reflexivity].
  intros x Hx. injection Hx as <-. simpl. apply (H i st E).
Qed.

(** ** [runAllShards] *)

Lemma find_pending_spec (self : AutoShardCoordinator) (statuses : gmap Z ShardStatus)
    (ids : list Z) (w : World) :
  find_pending self statuses ids w =
  match List.find (fun i => startable statuses i && lock_yields self i w) ids with
  | Some i => (Some i, relock self i w)
  | None => (None, w)
  end.
Proof.
  induction ids as [|i ids IH]; [reflexivity|].
  simpl. destruct (startable statuses i); simpl; [|exact IH].
  rewrite acquireShardLock_spec. destruct (lock_yields self i w); [reflexivity|exact IH].
Qed.

Lemma filter_length_lt {A : Type} (f g : A -> bool) (l : list A) (x : A) :
  (forall y, g y = true -> f y = true) ->
  In x l -> f x = true -> g x = false ->
  (length (List.filter g l) < length (List.filter f l))%nat.
Proof.
  intros Hgf. induction l as [|y l IH]; intros Hx Hfx Hgx; [contradiction|].
  assert (Hle : forall k : list A, (length (List.filter g k) <= length (List.filter f k))%nat).
  { induction k as [|z k IHk]; simpl; [lia|].
    destruct (g z) eqn:Eg; [rewrite (Hgf z Eg); simpl; lia|].
    destruct (f z); simpl; lia. }
  simpl. destruct Hx as [->|Hx].
  - rewrite Hfx, Hgx. simpl. specialize (Hle l). lia.
  - specialize (IH Hx Hfx Hgx).
    destruct (g y) eqn:Eg; [rewrite (Hgf y Eg); simpl; lia|].
    destruct (f y); simpl; lia.
Qed.

Lemma startable_started (statuses : gmap Z ShardStatus) (st : ShardStatus) (i j : Z) :
  status st = running ->
  startable (<[i := st]> statuses) j = if decide (j = i) then false else startable statuses j.
Proof.
  intros Hs. unfold startable. destruct (decide (j = i)) as [->|Hne].
  - rewrite lookup_insert_eq. rewrite Hs. reflexivity.
  - rewrite lookup_insert_ne by congruence. reflexivity.
Qed.

Lemma readStatus_start (self : AutoShardCoordinator) (env : RunEnv) (r : RunState)
    (i : Z) (w : World) :
  readStatus (dir (start_shard env i (relock self i w) r)) =
  <[i := running_status env (relock self i w) i]> (readStatus w).
Proof. reflexivity. Qed.

Lemma open_shards_start (self : AutoShardCoordinator) (env : RunEnv) (r : RunState) (i : Z) :
  In i (indices (totalShards self)) ->
  startable (readStatus (dir r)) i = true ->
  (open_shards self (dir (start_shard env i (relock self i (dir r)) r))
   < open_shards self (dir r))%nat.
Proof.
  intros Hin Hst. unfold open_shards. rewrite readStatus_start.
  apply (filter_length_lt _ _ _ i); try assumption.
  - intros y. rewrite startable_started by reflexivity.
    destruct (decide (y = i)); [discriminate|auto].
  - rewrite startable_started by reflexivity. rewrite decide_True; reflexivity.
Qed.

Lemma check_loop_some (self : AutoShardCoordinator) (env : RunEnv) (fuel : nat) (r : RunState) :
  (open_shards self (dir r) < fuel)%nat -> is_Some (check_loop fuel self env r).
Proof.
  revert r. induction fuel as [|fuel IH]; intros r Hm; [lia|].
  simpl. destruct (_ <? _); [|eexists; reflexivity].
  rewrite find_pending_spec.
  destruct (List.find _ _) as [i|] eqn:F; [|eexists; reflexivity].
  apply find_some in F as [Hin Hp]. apply andb_true_iff in Hp as [Hst _].
  apply IH. pose proof (open_shards_start self env r i Hin Hst). lia.
Qed.

Lemma check_loop_more (self : AutoShardCoordinator) (env : RunEnv) (fuel : nat)
    (r r' : RunState) :
  check_loop fuel self env r = Some r' -> check_loop (S fuel) self env r = Some r'.
Proof.
  revert r. induction fuel as [|fuel IH]; intros r H; [discriminate|].
  simpl in H. change (check_loop (S (S fuel)) self env r) with
    (if Z.of_nat (size (runningShards r)) <? maxParallel env then
       match find_pending self (readStatus (dir r)) (indices (totalShards self)) (dir r) with
       | (Some nextShard, w) => check_loop (S fuel) self env (start_shard env nextShard w r)
       | (None, w) => Some (finish w r)
       end
     else Some r).
  destruct (_ <? _); [|assumption].
  destruct (find_pending _ _ _ _) as [[i|] w]; [|assumption].
  apply IH, H.
Qed.

Lemma open_shards_bound (self : AutoShardCoordinator) (w : World) :
  (open_shards self w <= Z.to_nat (totalShards self))%nat.
Proof.
  unfold open_shards.
  etransitivity; [apply List.filter_length_le|].
  unfold indices. rewrite length_map, length_seq. lia.
Qed.

(** X11. The [while] loop of [checkAndStartShards] ends, in every state
    of the promise and of the directory: it spawns at most one child per
    shard id before it returns, so one iteration more than there are
    shards is enough, and more change nothing. *)
Theorem checkAndStartShards_returns (self : AutoShardCoordinator) (env : RunEnv)
    (r : RunState) :
  exists r', checkAndStartShards self env r = Some r' /\
    forall fuel, (Z.to_nat (totalShards self) < fuel)%nat ->
                 check_loop fuel self env r = Some r'.
Proof.
  unfold checkAndStartShards.
  destruct (check_loop_some self env (S (Z.to_nat (totalShards self))) r) as [r' Hr'].
  { pose proof (open_shards_bound self (dir r)). lia. }
  exists r'. split; [assumption|].
  intros fuel Hf.
  replace fuel with ((fuel - S (Z.to_nat (totalShards self))) + S (Z.to_nat (totalShards self)))%nat
    by lia.
  induction (fuel - S (Z.to_nat (totalShards self)))%nat as [|d IHd]; [assumption|].
  simpl. apply check_loop_more in IHd. exact IHd.
Qed.

(** *** What holds in every state of a run *)

Lemma elem_of_started (k : nat) (i : Z) :
  i ∈ Z.of_nat <$> seq 1 k <-> 1 <= i <= Z.of_nat k.
Proof.
  rewrite list_elem_of_fmap. split.
  - intros (n & -> & Hn). apply elem_of_seq in Hn. lia.
  - intros Hi. exists (Z.to_nat i). split; [lia|]. apply elem_of_seq. lia.
Qed.

Lemma started_snoc (k : nat) :
  (Z.of_nat <$> seq 1 k) ++ [Z.of_nat (S k)] = Z.of_nat <$> seq 1 (S k).
Proof. rewrite seq_S, fmap_app. reflexivity. Qed.

Lemma inv_initial (self : AutoShardCoordinator) (env : RunEnv) (w : World) :
  run_inv self env (initial w).
Proof.
  split; simpl.
  - exists 0%nat. split; [lia|reflexivity].
  - intros i Hi. inversion Hi.
  - intros i _. split; apply lookup_empty.
  - intros i [x Hx]. rewrite lookup_empty in Hx. discriminate.
  - intros i [x Hx]. rewrite lookup_empty in Hx. discriminate.
  - rewrite map_size_empty. lia.
  - constructor.
  - intros i. split; [intros Hi; inversion Hi|intros [Hi _]; inversion Hi].
  - intros i c Hi. inversion Hi.
Qed.

(** The scan finds the shard after the last one started. *)
Lemma find_pending_next (self : AutoShardCoordinator) (env : RunEnv) (r : RunState) (k : nat) :
  run_inv self env r ->
  started r = Z.of_nat <$> seq 1 k ->
  List.find (fun i => startable (readStatus (dir r)) i && lock_yields self i (dir r))
    (indices (totalShards self)) =
  if (k <? Z.to_nat (totalShards self))%nat then Some (Z.of_nat (S k)) else None.
Proof.
  intros Hinv Hk.
  set (f := fun i => startable (readStatus (dir r)) i && lock_yields self i (dir r)).
  assert (Hold : forall i, 1 <= i <= Z.of_nat k -> f i = false).
  { intros i Hi. destruct (inv_record _ _ _ Hinv i) as (st & Hst & Hnp & _).
    - rewrite Hk. apply elem_of_started. assumption.
    - unfold f, startable. rewrite Hst.
      rewrite bool_decide_eq_false_2 by assumption. reflexivity. }
  assert (Hnew : forall i, Z.of_nat k < i -> f i = true).
  { intros i Hi. destruct (inv_fresh _ _ _ Hinv i) as [Hst Hl].
    - rewrite Hk, elem_of_started. lia.
    - unfold f, startable, lock_yields. rewrite Hst, Hl. reflexivity. }
  destruct (Nat.ltb_spec k (Z.to_nat (totalShards self))) as [Hlt|Hge].
  - destruct (find_indices f (totalShards self) (Z.of_nat (S k)) ltac:(lia)
                (Hnew (Z.of_nat (S k)) ltac:(lia))) as (j & Hj & Hb & Hbelow).
    rewrite Hj. f_equal.
    destruct (Z_lt_le_dec (Z.of_nat k) j) as [H|H]; [lia|].
    apply find_some in Hj as [_ Hfj]. rewrite Hold in Hfj by lia. discriminate.
  - destruct (List.find f _) as [j|] eqn:F; [|reflexivity].
    apply find_some in F as [Hin Hfj]. apply in_indices in Hin.
    rewrite Hold in Hfj by lia. discriminate.
Qed.

Lemma start_inv (self : AutoShardCoordinator) (env : RunEnv) (r : RunState) (k : nat) :
  run_inv self env r ->
  started r = Z.of_nat <$> seq 1 k ->
  (k < Z.to_nat (totalShards self))%nat ->
  Z.of_nat (size (runningShards r)) < maxParallel env ->
  run_inv self env (start_shard env (Z.of_nat (S k)) (relock self (Z.of_nat (S k)) (dir r)) r).
Proof.
  intros Hinv Hk Hlt Hsz. set (i := Z.of_nat (S k)).
  assert (Hi : i ∉ started r) by (rewrite Hk, elem_of_started; lia).
  assert (Hrun : runningShards r !! i = None).
  { destruct (runningShards r !! i) eqn:E; [|reflexivity].
    exfalso. apply Hi, (inv_running _ _ _ Hinv). eexists; eassumption. }
  split.
  - exists (S k). split; [lia|]. simpl. rewrite Hk. apply started_snoc.
  - intros j Hj. simpl in Hj. rewrite readStatus_start. simpl.
    apply elem_of_app in Hj as [Hj|Hj].
    + assert (j <> i) by (intros ->; contradiction).
      rewrite !lookup_insert_ne by congruence.
      apply (inv_record _ _ _ Hinv j Hj).
    + apply list_elem_of_singleton in Hj as ->.
      rewrite !lookup_insert_eq. eexists. split; [reflexivity|]. simpl.
      split; [discriminate|]. split; [eexists; reflexivity|reflexivity].
  - intros j Hj. simpl in Hj. rewrite readStatus_start. simpl.
    assert (Hji : j <> i).
    { intros ->. apply Hj, elem_of_app. right. apply list_elem_of_singleton. reflexivity. }
    assert (Hjs : j ∉ started r).
    { intros H. apply Hj, elem_of_app. left. exact H. }
    rewrite !lookup_insert_ne by congruence.
    apply (inv_fresh _ _ _ Hinv j Hjs).
  - intros j Hj. simpl in *. apply elem_of_app.
    destruct (decide (j = i)) as [->|Hne].
    + right. apply list_elem_of_singleton. reflexivity.
    + left. rewrite lookup_insert_ne in Hj by congruence.
      apply (inv_running _ _ _ Hinv j Hj).
  - intros j Hj. simpl in *.
    destruct (decide (j = i)) as [->|Hne].
    + rewrite lookup_insert_eq. eexists; reflexivity.
    + rewrite lookup_insert_ne in Hj by congruence.
      rewrite lookup_insert_ne by congruence.
      apply (inv_locks _ _ _ Hinv j Hj).
  - simpl. rewrite map_size_insert_None by assumption. lia.
  - simpl. apply (inv_reported_nodup _ _ _ Hinv).
  - intros j. simpl. rewrite (inv_reported _ _ _ Hinv j). split.
    + intros [Hj Hn]. assert (j <> i) by (intros ->; contradiction).
      split; [apply elem_of_app; left; assumption|].
      rewrite lookup_insert_ne by congruence. assumption.
    + intros [Hj Hn].
      destruct (decide (j = i)) as [->|Hne]; [rewrite lookup_insert_eq in Hn; discriminate|].
      rewrite lookup_insert_ne in Hn by congruence.
      apply elem_of_app in Hj as [Hj|Hj]; [auto|].
      apply list_elem_of_singleton in Hj. contradiction.
  - intros j c Hj. simpl in Hj. rewrite readStatus_start.
    assert (Hji : j <> i).
    { intros ->. apply Hi.
      apply (inv_reported _ _ _ Hinv i). apply list_elem_of_fmap.
      exists (i, c). auto. }
    rewrite lookup_insert_ne by congruence.
    apply (inv_exit _ _ _ Hinv j c Hj).
Qed.

Lemma finish_inv (self : AutoShardCoordinator) (env : RunEnv) (r : RunState) :
  run_inv self env r -> run_inv self env (finish (dir r) r).
Proof. intros []. split; assumption. Qed.

Lemma record_started (self : AutoShardCoordinator) (env : RunEnv) (r : RunState)
    (i : Z) (st : ShardStatus) :
  run_inv self env r -> readStatus (dir r) !! i = Some st ->
  status st <> pending /\ (status st = running -> is_Some (runningShards r !! i)).
Proof.
  intros Hinv Hst.
  destruct (decide (i ∈ started r)) as [Hi|Hi].
  - destruct (inv_record _ _ _ Hinv i Hi) as (st' & Hst' & Hnp & Hr).
    rewrite Hst in Hst'. injection Hst' as <-. split; [assumption|apply Hr].
  - destruct (inv_fresh _ _ _ Hinv i Hi) as [Hn _]. congruence.
Qed.

Lemma finish_resolves (self : AutoShardCoordinator) (env : RunEnv) (r : RunState) :
  run_inv self env r -> runningShards r = ∅ -> resolved (finish (dir r) r) = true.
Proof.
  intros Hinv He. unfold finish. simpl.
  rewrite He, map_size_empty, bool_decide_eq_true_2 by reflexivity.
  assert (Hp : count_pending (getShardStatus (dir r)) = 0).
  { apply (getShardStatus_none (dir r) pending).
    intros i st Hst. apply (record_started _ _ _ _ _ Hinv Hst). }
  assert (Hr : count_running (getShardStatus (dir r)) = 0).
  { apply (getShardStatus_none (dir r) running).
    intros i st Hst Hs.
    destruct (record_started _ _ _ _ _ Hinv Hst) as [_ Hr].
    destruct (Hr Hs) as [x Hx]. rewrite He, lookup_empty in Hx. discriminate. }
  rewrite Hp, Hr. apply orb_true_r.
Qed.

Lemma check_loop_inv (self : AutoShardCoordinator) (env : RunEnv) (fuel : nat)
    (r r' : RunState) :
  run_inv self env r ->
  check_loop fuel self env r = Some r' ->
  run_inv self env r' /\
  immediates r' = immediates r /\
  reported r' = reported r /\
  (resolved r = true -> resolved r' = true) /\
  (1 <= maxParallel env -> runningShards r' = ∅ ->
   resolved r' = true /\ length (started r') = Z.to_nat (totalShards self)).
Proof.
  revert r. induction fuel as [|fuel IH]; intros r Hinv Hrun; [discriminate|].
  simpl in Hrun.
  destruct (Z.ltb_spec (Z.of_nat (size (runningShards r))) (maxParallel env)) as [Hsz|Hsz].
  - rewrite find_pending_spec in Hrun.
    destruct (inv_started _ _ _ Hinv) as (k & Hk & Hst).
    rewrite (find_pending_next self env r k Hinv Hst) in Hrun.
    destruct (Nat.ltb_spec k (Z.to_nat (totalShards self))) as [Hlt|Hge].
    + pose proof (start_inv self env r k Hinv Hst Hlt Hsz) as Hinv'.
      destruct (IH _ Hinv' Hrun) as (H1 & H2 & H3 & H4 & H5).
      split; [assumption|]. split; [assumption|]. split; [assumption|].
      split; [intros Hr; apply H4; exact Hr|]. exact H5.
    + injection Hrun as <-. split; [apply finish_inv; assumption|].
      split; [reflexivity|]. split; [reflexivity|]. split.
      * simpl. intros ->. reflexivity.
      * intros _ He. split.
        -- apply (finish_resolves self env); assumption.
        -- simpl. rewrite Hst, length_fmap, length_seq. lia.
  - injection Hrun as <-. split; [assumption|].
    split; [reflexivity|]. split; [reflexivity|]. split; [auto|].
    intros Hm He. rewrite He, map_size_empty in Hsz. lia.
Qed.

Lemma exit_inv (self : AutoShardCoordinator) (env : RunEnv) (r : RunState)
    (i : Z) (code : option Z) :
  run_inv self env r -> is_Some (runningShards r !! i) ->
  run_inv self env (on_exit i code r).
Proof.
  intros Hinv Hrun.
  pose proof (inv_running _ _ _ Hinv i Hrun) as Hi.
  destruct (inv_record _ _ _ Hinv i Hi) as (st & Hst & Hnp & Hr).
  destruct (markShardComplete_effect (dir r) i (exit_code code) st Hst) as (Hsf & Hl & _ & _).
  assert (Hread : readStatus (dir (on_exit i code r)) =
                  <[i := complete (dir r) (exit_code code) st]> (readStatus (dir r))).
  { simpl. unfold readStatus at 1. simpl. rewrite Hsf. reflexivity. }
  assert (Hlocks : locks (dir (on_exit i code r)) = delete i (delete i (locks (dir r)))).
  { simpl. rewrite Hl. reflexivity. }
  split.
  - apply (inv_started _ _ _ Hinv).
  - intros j Hj. rewrite Hread. simpl.
    destruct (decide (j = i)) as [->|Hne].
    + rewrite lookup_insert_eq, lookup_delete_eq. eexists. split; [reflexivity|]. simpl.
      destruct (exit_code code =? 0); (split; [discriminate|]);
        (split; [discriminate|intros [x Hx]; discriminate]).
    + rewrite lookup_insert_ne, lookup_delete_ne by congruence.
      apply (inv_record _ _ _ Hinv j Hj).
  - intros j Hj. rewrite Hread, Hlocks.
    assert (j <> i) by (intros ->; contradiction).
    rewrite lookup_insert_ne, !lookup_delete_ne by congruence.
    apply (inv_fresh _ _ _ Hinv j Hj).
  - intros j Hj. simpl in *.
    destruct (decide (j = i)) as [->|Hne]; [assumption|].
    rewrite lookup_delete_ne in Hj by congruence.
    apply (inv_running _ _ _ Hinv j Hj).
  - intros j Hj. rewrite Hlocks in Hj. simpl.
    destruct (decide (j = i)) as [->|Hne].
    + rewrite lookup_delete_eq in Hj. destruct Hj as [x Hx]. discriminate.
    + rewrite !lookup_delete_ne in Hj by congruence.
      rewrite lookup_delete_ne by congruence.
      apply (inv_locks _ _ _ Hinv j Hj).
  - simpl. pose proof (inv_size _ _ _ Hinv).
    rewrite map_size_delete. destruct (runningShards r !! i); simpl; lia.
  - simpl. rewrite fmap_app. simpl. apply NoDup_app. split; [|split].
    + apply (inv_reported_nodup _ _ _ Hinv).
    + intros j Hj Hj'. apply list_elem_of_singleton in Hj' as ->.
      apply (inv_reported _ _ _ Hinv i) in Hj as [_ Hn].
      destruct Hrun as [x Hx]. congruence.
    + apply NoDup_singleton.
  - intros j. simpl. rewrite fmap_app, elem_of_app. simpl.
    rewrite (inv_reported _ _ _ Hinv j), list_elem_of_singleton.
    destruct (decide (j = i)) as [->|Hne].
    + rewrite lookup_delete_eq. split; auto.
    + rewrite lookup_delete_ne by congruence. split; [intros [H|H]; [assumption|contradiction]|auto].
  - intros j c Hj. rewrite Hread. simpl in Hj.
    apply elem_of_app in Hj as [Hj|Hj].
    + assert (Hji : j <> i).
      { intros ->.
        assert (Hin : i ∈ (reported r).*1) by (apply list_elem_of_fmap; exists (i, c); auto).
        apply (inv_reported _ _ _ Hinv i) in Hin as [_ Hn].
        destruct Hrun as [x Hx]. congruence. }
      rewrite lookup_insert_ne by congruence.
      apply (inv_exit _ _ _ Hinv j c Hj).
    + apply list_elem_of_singleton in Hj. injection Hj as -> ->.
      rewrite lookup_insert_eq. eexists. split; [reflexivity|]. simpl. auto.
Qed.

Lemma elapse_inv (self : AutoShardCoordinator) (env : RunEnv) (r : RunState) (dt : Z) :
  run_inv self env r -> run_inv self env (elapse r dt).
Proof. intros []. split; assumption. Qed.

Lemma dequeue_inv (self : AutoShardCoordinator) (env : RunEnv) (r : RunState) (n : nat) :
  run_inv self env r -> run_inv self env (dequeue r n).
Proof. intros []. split; assumption. Qed.

Lemma step_inv (self : AutoShardCoordinator) (env : RunEnv) (r r' : RunState) (e : run_event) :
  run_inv self env r -> resolves_when_idle self env r ->
  run_step self env r e = Some r' ->
  run_inv self env r' /\ resolves_when_idle self env r'.
Proof.
  intros Hinv Hset Hstep. destruct e as [i code| |dt]; simpl in Hstep.
  - destruct (runningShards r !! i) as [p|] eqn:E; [|discriminate].
    injection Hstep as <-. split.
    + apply exit_inv; [assumption|eexists; eassumption].
    + intros _ [_ Hq]. simpl in Hq. discriminate.
  - destruct (immediates r) as [|n] eqn:E; [discriminate|].
    unfold checkAndStartShards in Hstep.
    destruct (check_loop_inv self env _ _ _ (dequeue_inv self env r n Hinv) Hstep)
      as (H1 & _ & _ & _ & H5).
    split; [assumption|]. intros Hm [Hq _]. apply H5; assumption.
  - injection Hstep as <-. split; [apply elapse_inv; assumption|].
    intros Hm [Hq Hi]. simpl in *. apply (Hset Hm). split; assumption.
Qed.

Lemma steps_inv (self : AutoShardCoordinator) (env : RunEnv) (es : list run_event)
    (r r' : RunState) :
  run_inv self env r -> resolves_when_idle self env r ->
  run_steps self env r es = Some r' ->
  run_inv self env r' /\ resolves_when_idle self env r'.
Proof.
  revert r. induction es as [|e es IH]; intros r Hinv Hset Hrun; simpl in Hrun.
  - injection Hrun as <-. auto.
  - destruct (run_step self env r e) as [r1|] eqn:E; [|discriminate].
    destruct (step_inv self env r r1 e Hinv Hset E) as [H1 H2].
    apply (IH r1 H1 H2 Hrun).
Qed.

Lemma reachable_inv (self : AutoShardCoordinator) (env : RunEnv) (w : World) (r : RunState) :
  reachable self env w r -> run_inv self env r /\ resolves_when_idle self env r.
Proof.
  intros (es & Hes). unfold run_from in Hes.
  destruct (runAllShards self env w) as [r0|] eqn:H0; [|discriminate].
  destruct (check_loop_inv self env _ _ _ (inv_initial self env w) H0)
    as (H1 & _ & _ & _ & H5).
  apply (steps_inv self env es r0 r); try assumption.
  intros Hm [Hq _]. apply H5; assumption.
Qed.

Lemma fmap_map {A B : Type} (f : A -> B) (l : list A) : f <$> l = List.map f l.
Proof. reflexivity. Qed.

(** X12. At no moment of a run are more children running than
    [maxParallel], whatever the order in which children exit and queued
    callbacks run. *)
Theorem runAllShards_parallel_bound (self : AutoShardCoordinator) (env : RunEnv)
    (w : World) (r : RunState) :
  reachable self env w r ->
  Z.of_nat (size (runningShards r)) <= Z.max 0 (maxParallel env).
Proof.
  intros Hr. destruct (reachable_inv self env w r Hr) as [Hinv _].
  apply (inv_size _ _ _ Hinv).
Qed.

Lemma runAllShards_parallel_bound_witness :
  Z.of_nat (size (runningShards
    (state_after three_shards two_at_a_time empty_dir [Clock 10; ChildExit 2 (Some 1)])))
  <= Z.max 0 (maxParallel two_at_a_time).
Proof.
  apply (runAllShards_parallel_bound three_shards two_at_a_time empty_dir).
  exists [Clock 10; ChildExit 2 (Some 1)]. vm_compute. reflexivity.
Defined.





(** X15. A child that a signal ends exits with the code [null]; the
    handler records it with exit code 0, so its shard counts as
    [completed], and reports 0 to [onShardComplete]. *)
Theorem signal_exit_counts_as_completed (self : AutoShardCoordinator) (env : RunEnv)
    (w : World) (r : RunState) (i : Z) :
  reachable self env w r ->
  is_Some (runningShards r !! i) ->
  exists r', run_step self env r (ChildExit i None) = Some r' /\
    status_at (dir r') i = completed /\
    reported r' = reported r ++ [(i, 0)] /\
    count_failed (getShardStatus (dir r')) = count_failed (getShardStatus (dir r)).
Proof.
  intros Hr Hrun. destruct (reachable_inv self env w r Hr) as [Hinv _].
  destruct Hrun as [p Hp]. exists (on_exit i None r). simpl. rewrite Hp.
  split; [reflexivity|].
  pose proof (inv_running _ _ _ Hinv i ltac:(eexists; eassumption)) as Hi.
  destruct (inv_record _ _ _ Hinv i Hi) as (st & Hst & Hnp & Hrn).
  destruct (markShardComplete_effect (dir r) i 0 st Hst) as (Hsf & _).
  assert (Hread : readStatus (releaseShardLock (markShardComplete (dir r) i 0) i) =
                  <[i := complete (dir r) 0 st]> (readStatus (dir r))).
  { unfold readStatus at 1. simpl. rewrite Hsf. reflexivity. }
  split; [|split; [reflexivity|]].
  - unfold status_at. rewrite Hread, lookup_insert_eq. reflexivity.
  - change (count_of (getShardStatus (releaseShardLock (markShardComplete (dir r) i 0) i)) failed
            = count_of (getShardStatus (dir r)) failed).
    rewrite !getShardStatus_count, Hread. f_equal. f_equal.
    unfold with_status.
    rewrite map_filter_insert_False by (simpl; discriminate).
    rewrite map_filter_delete_not; [reflexivity|].
    intros y Hy. rewrite Hst in Hy. injection Hy as <-. simpl.
    assert (status st = running) by (apply Hrn; eexists; eassumption). congruence.
Qed.

Lemma signal_exit_counts_as_completed_witness :
  let r := state_after three_shards two_at_a_time empty_dir [Clock 10] in
  exists r', run_step three_shards two_at_a_time r (ChildExit 1 None) = Some r' /\
    status_at (dir r') 1 = completed /\
    reported r' = reported r ++ [(1, 0)] /\
    count_failed (getShardStatus (dir r')) = count_failed (getShardStatus (dir r)).
Proof.
  apply (signal_exit_counts_as_completed three_shards two_at_a_time empty_dir).
  - exists [Clock 10]. vm_compute. reflexivity.
  - vm_compute. eexists. reflexivity.
Defined.

(** X16. With a [maxParallel] that is not positive, as a negative option
    gives it, [runAllShards] spawns nothing and its promise is never
    resolved. *)
Theorem not_positive_maxParallel_hangs (self : AutoShardCoordinator) (env : RunEnv)
    (w : World) (r : RunState) :
  maxParallel env <= 0 ->
  reachable self env w r ->
  resolved r = false /\ started r = [] /\ quiescent r.
Proof.
  intros Hm (es & Hes). unfold run_from, runAllShards, checkAndStartShards in Hes.
  simpl in Hes. rewrite map_size_empty in Hes.
  destruct (Z.ltb_spec (Z.of_nat 0) (maxParallel env)) as [H|_]; [simpl in H; lia|].
  assert (Hgen : forall r0, resolved r0 = false /\ started r0 = [] /\ quiescent r0 ->
                 run_steps self env r0 es = Some r ->
                 resolved r = false /\ started r = [] /\ quiescent r).
  { clear Hes. induction es as [|e es IH]; intros r0 H0 Hrun; simpl in Hrun.
    - injection Hrun as <-. assumption.
    - destruct H0 as (H1 & H2 & H3 & H4).
      destruct e as [i code| |dt]; simpl in Hrun.
      + rewrite H3, lookup_empty in Hrun. discriminate.
      + rewrite H4 in Hrun. discriminate.
      + apply (IH (elapse r0 dt)); [|assumption].
        repeat split; assumption. }
  apply (Hgen (initial w)); [|exact Hes].
  repeat split; reflexivity.
Qed.

Lemma not_positive_maxParallel_hangs_witness :
  let env := {| options_maxParallel := Num (-1); config_maxParallel := Num 4; cpus := 8;
                child_pid := fun i => Some (500 + i) |} in
  let r := state_after three_shards env empty_dir [Clock 1000; Clock 1000] in
  resolved r = false /\ started r = [] /\ quiescent r.
Proof.
  intros env.
  apply (not_positive_maxParallel_hangs three_shards env empty_dir).
  - vm_compute. discriminate.
  - exists [Clock 1000; Clock 1000]. vm_compute. reflexivity.
Defined.

(** *** How long a run can be *)

Lemma steps_count (self : AutoShardCoordinator) (env : RunEnv) (es : list run_event)
    (r r' : RunState) :
  run_inv self env r ->
  run_steps self env r es = Some r' ->
  length (reported r') = (length (reported r) + exits es)%nat /\
  (callbacks es + immediates r' = immediates r + exits es)%nat.
Proof.
  revert r. induction es as [|e es IH]; intros r Hinv Hrun; simpl in Hrun.
  - injection Hrun as <-. unfold exits, callbacks. simpl. lia.
  - destruct (run_step self env r e) as [r1|] eqn:E; [|discriminate].
    assert (Hinv1 : run_inv self env r1).
    { destruct e as [i code| |dt]; simpl in E.
      - destruct (runningShards r !! i) eqn:E'; [|discriminate]. injection E as <-.
        apply exit_inv; [assumption|eexists; eassumption].
      - destruct (immediates r) as [|n]; [discriminate|].
        apply (check_loop_inv self env _ _ _ (dequeue_inv self env r n Hinv) E).
      - injection E as <-. apply elapse_inv. assumption. }
    destruct (IH r1 Hinv1 Hrun) as [H1 H2].
    destruct e as [i code| |dt]; simpl in E; unfold exits, callbacks in *; simpl.
    + destruct (runningShards r !! i); [|discriminate]. injection E as <-.
      simpl in H1, H2. rewrite length_app in H1. simpl in H1. lia.
    + destruct (immediates r) as [|n] eqn:En; [discriminate|].
      destruct (check_loop_inv self env _ _ _ (dequeue_inv self env r n Hinv) E)
        as (_ & Hi & Hrep & _).
      simpl in Hi, Hrep. rewrite Hrep in H1. lia.
    + injection E as <-. simpl in H1, H2. lia.
Qed.

(** X17. A run is finite: at most [totalShards] children exit in it, one
    exit per reported shard, and a callback runs only for an exit that
    came before it, so at most [totalShards] callbacks run. *)
Theorem runAllShards_bounded (self : AutoShardCoordinator) (env : RunEnv)
    (w : World) (es : list run_event) (r : RunState) :
  run_from self env w es = Some r ->
  exits es = length (reported r) /\
  (exits es <= Z.to_nat (totalShards self))%nat /\
  (callbacks es + immediates r = exits es)%nat.
Proof.
  intros Hes.
  destruct (reachable_inv self env w r ltac:(exists es; exact Hes)) as [Hinv _].
  unfold run_from in Hes.
  destruct (runAllShards self env w) as [r0|] eqn:H0; [|discriminate].
  destruct (check_loop_inv self env _ _ _ (inv_initial self env w) H0)
    as (Hinv0 & Hi0 & Hrep0 & _).
  destruct (steps_count self env es r0 r Hinv0 Hes) as [H1 H2].
  rewrite Hrep0 in H1. rewrite Hi0 in H2. simpl in H1, H2.
  split; [lia|]. split; [|lia].
  rewrite <- H1. rewrite <- (length_fmap fst).
  destruct (inv_started _ _ _ Hinv) as (k & Hk & Hst).
  transitivity (length (started r)).
  - apply submseteq_length, NoDup_submseteq; [apply (inv_reported_nodup _ _ _ Hinv)|].
    intros i Hi. apply (inv_reported _ _ _ Hinv i) in Hi. apply Hi.
  - rewrite Hst, length_fmap, length_seq. assumption.
Qed.

Lemma runAllShards_bounded_witness :
  let r := state_after three_shards two_at_a_time empty_dir three_shard_run in
  exits three_shard_run = length (reported r) /\
  (exits three_shard_run <= Z.to_nat (totalShards three_shards))%nat /\
  (callbacks three_shard_run + immediates r = exits three_shard_run)%nat.
Proof.
  apply (runAllShards_bounded three_shards two_at_a_time empty_dir).
  vm_compute. reflexivity.
Defined.

(** ** The coordinator: counts and grants *)

Lemma tally_sum (l : list ShardStatus) (c : StatusCounts) :
  count_sum (foldl tally c l) = count_sum c + Z.of_nat (length l).
Proof.
  revert c. induction l as [|st l IH]; intros c; [simpl; lia|].
  cbn [foldl length]. rewrite IH. unfold count_sum, tally.
  destruct (status st); simpl; lia.
Qed.

(** X18. [getShardStatus] counts records: each of its four numbers is the
    number of records of the status file with that status, and together
    they are the number of records, which is not [totalShards]: a shard
    that has no record yet is in none of the counts. *)
Theorem getShardStatus_counts_records (w : World) :
  (forall s, count_of (getShardStatus w) s =
             Z.of_nat (size (with_status s (readStatus w)))) /\
  count_sum (getShardStatus w) = Z.of_nat (size (readStatus w)) /\
  (statusFile w = NoStatusFile -> getShardStatus w = no_counts).
Proof.
  split; [|split].
  - intros s. apply getShardStatus_count.
  - unfold getShardStatus. rewrite tally_sum, length_fmap, length_map_to_list.
    reflexivity.
  - intros H. unfold getShardStatus, readStatus. rewrite H.
    rewrite map_to_list_empty. reflexivity.
Qed.

(** X19. [runSingleShard] returns the least id in [1 .. totalShards] that
    is claimable, which [determineNextAvailableShard] has then marked
    [running]; it returns 0, which is no shard id, exactly when no id is
    claimable, and has then changed nothing. *)
Theorem runSingleShard_least_claimable (self : AutoShardCoordinator) (w : World) :
  let '(id, w') := runSingleShard self w in
  if id =? 0 then
    w' = w /\ forall i, 1 <= i <= totalShards self -> claimable self w i = false
  else
    1 <= id <= totalShards self /\
    claimable self w id = true /\
    (forall k, 1 <= k < id -> claimable self w k = false) /\
    status_at w' id = running.
Proof.
  unfold runSingleShard.
  pose proof (determineNext_effect self w) as He.
  pose proof (determineNext_spec self w) as Hs. simpl in Hs.
  destruct (determineNextAvailableShard self w) as [[j|] w'].
  - destruct He as (Hr & Hc & Hrun & _).
    destruct (Z.eqb_spec j 0) as [->|_]; [lia|].
    split; [assumption|]. split; [assumption|]. split; [|assumption].
    destruct (find_indices (claimable self w) (totalShards self) j Hr Hc)
      as (j' & Hj' & _ & Hbelow).
    rewrite Hj' in Hs. injection Hs as Hjj _. subst j'. exact Hbelow.
  - simpl. split; [assumption|]. intros i Hi.
    destruct (List.find (claimable self w) (indices (totalShards self))) as [j|] eqn:F;
      [discriminate|].
    apply (find_none _ _ F). apply in_indices. assumption.
Qed.

Lemma run_cons (w : World) (o : op) (ops : list op) :
  fst (run w (o :: ops)) =
  match fst (exec w o) with
  | Some i => i :: fst (run (snd (exec w o)) ops)
  | None => fst (run (snd (exec w o)) ops)
  end.
Proof.
  simpl. destruct (exec w o) as [r w']. simpl.
  destruct (run w' ops) as [rs w'']. destruct r; reflexivity.
Qed.

Lemma grants_fresh (ops : list op) (w : World) :
  Forall not_a_mark ops ->
  NoDup (fst (run w ops)) /\ forall i, i ∈ fst (run w ops) -> status_at w i <> running.
Proof.
  revert w. induction ops as [|o ops IH]; intros w Hf.
  - simpl. split; [constructor|]. intros i Hi. inversion Hi.
  - apply Forall_cons in Hf as [Ho Hf]. rewrite run_cons.
    destruct (IH (snd (exec w o)) Hf) as [Hnd Hst].
    destruct o as [self|i e|dt|p]; [|contradiction|exact (conj Hnd Hst)|exact (conj Hnd Hst)].
    cbn [exec] in *. pose proof (determineNext_effect self w) as He.
    destruct (determineNextAvailableShard self w) as [[j|] w']; cbn [fst snd] in *.
    + destruct He as (_ & Hc & Hrun & Hoth & _). split.
      * apply NoDup_cons. split; [|assumption].
        intros Hj. apply (Hst j Hj). assumption.
      * intros i Hi. apply elem_of_cons in Hi as [->|Hi].
        -- apply claimable_status_at in Hc. destruct Hc as [-> | ->]; discriminate.
        -- destruct (decide (i = j)) as [->|Hne]; [exfalso; apply (Hst j Hi); assumption|].
           rewrite <- (Hoth i Hne). apply Hst. assumption.
    + subst w'. split; assumption.
Qed.

(** X20. Between two calls of [markShardComplete] no shard is granted
    twice: [determineNextAvailableShard] does not give out again a shard
    that it has marked [running], whichever processes call it, however
    much time passes and whichever processes end, the one that holds the
    shard included. *)
Theorem no_second_grant (ops : list op) (w : World) :
  Forall not_a_mark ops -> NoDup (fst (run w ops)).
Proof. intros Hf. apply (grants_fresh ops w Hf). Qed.

Lemma no_second_grant_witness :
  NoDup (fst (run empty_dir
    [DetermineNext alice; Exit 101; Tick 400000; DetermineNext bob; DetermineNext bob;
     DetermineNext alice])).
Proof.
  apply (no_second_grant _ empty_dir).
  repeat constructor.
Defined.

(** ** The shard count and the parallel limit of a run *)

Lemma detectOptimalShardCount_range (cpuCount testCount : Z) :
  1 <= cpuCount ->
  let n := detectOptimalShardCount cpuCount testCount in
  1 <= n <= 8 /\ n <= cpuCount /\ (n = 1 \/ 10 * n <= testCount).
Proof.
  intros Hc. unfold detectOptimalShardCount.
  pose proof (Z.div_mod testCount 10 ltac:(lia)) as Hd.
  pose proof (Z.mod_pos_bound testCount 10 ltac:(lia)) as Hm.
  lia.
Qed.

(** X21. On a machine with at least one CPU [detectOptimalShardCount]
    gives between 1 and 8 shards, at most one per CPU, and more than one
    only if that leaves at least 10 test files per shard; when the test
    files cannot be listed it gives 4 shards, or one per CPU if there are
    fewer than 4. *)
Theorem detectOptimalShardCount_bounds (cpuCount : Z) (listed : option Z) :
  1 <= cpuCount ->
  let n := detectOptimalShardCount cpuCount (estimateTestCount listed) in
  1 <= n <= 8 /\ n <= cpuCount /\
  (n = 1 \/ 10 * n <= estimateTestCount listed) /\
  (listed = None -> n = Z.min cpuCount 4).
Proof.
  intros Hc n.
  destruct (detectOptimalShardCount_range cpuCount (estimateTestCount listed) Hc)
    as (H1 & H2 & H3).
  split; [assumption|]. split; [assumption|]. split; [assumption|].
  intros ->. unfold n, detectOptimalShardCount. simpl.
  change (40 / 10) with 4. lia.
Qed.

Lemma detectOptimalShardCount_bounds_witness :
  let n := detectOptimalShardCount 16 (estimateTestCount (Some 57)) in
  1 <= n <= 8 /\ n <= 16 /\
  (n = 1 \/ 10 * n <= estimateTestCount (Some 57)) /\
  (Some 57 = None -> n = Z.min 16 4).
Proof.
  apply (detectOptimalShardCount_bounds 16 (Some 57)). lia.
Defined.

(** X22. The [run] command ends with [process.exit(1)] only for a shard
    count or a parallel limit that is a negative number.  A count of 0 and
    one that is not a number pass the validation and are replaced by the
    detected count and the CPU count.  On a machine with at least one CPU
    the coordinator is therefore made with at least one shard, and its
    [runAllShards] runs with a parallel limit of at least 1. *)
Theorem run_command_counts (shards parallel : jsnum) (cpuCount : Z) (listed : option Z)
    (pids : Z -> option Z) :
  1 <= cpuCount ->
  match run_command shards parallel cpuCount listed pids with
  | Some (n, env) =>
      1 <= n /\ 1 <= Runner.maxParallel env /\
      (truthy shards = false ->
       n = detectOptimalShardCount cpuCount (estimateTestCount listed)) /\
      (truthy parallel = false -> Runner.maxParallel env = cpuCount)
  | None =>
      (exists z, shards = Num z /\ z < 0) \/ (exists z, parallel = Num z /\ z < 0)
  end.
Proof.
  intros Hc.
  destruct (detectOptimalShardCount_range cpuCount (estimateTestCount listed) Hc)
    as (Hd & _).
  unfold run_command, runner_totalShards, Runner.maxParallel, invalid_count.
  destruct shards as [| |s]; destruct parallel as [| |p]; simpl;
    repeat match goal with
           | |- context [?a =? ?b] => destruct (Z.eqb_spec a b); simpl
           | |- context [?a <? ?b] => destruct (Z.ltb_spec a b); simpl
           end;
    try (left; eexists; split; [reflexivity|lia]);
    try (right; eexists; split; [reflexivity|lia]);
    repeat split; try lia; try discriminate; try reflexivity.
Qed.

Lemma run_command_counts_witness :
  match run_command (Num 0) NaN 4 None (fun _ => None) with
  | Some (n, env) =>
      1 <= n /\ 1 <= Runner.maxParallel env /\
      (truthy (Num 0) = false ->
       n = detectOptimalShardCount 4 (estimateTestCount None)) /\
      (truthy NaN = false -> Runner.maxParallel env = 4)
  | None =>
      (exists z, Num 0 = Num z /\ z < 0) \/ (exists z, NaN = Num z /\ z < 0)
  end.
Proof.
  apply (run_command_counts (Num 0) NaN 4 None (fun _ => None)). lia.
Defined.

(** ** When the coverage of the shards is merged *)

Lemma handle_all_lookup {Cov : Type} (total : Z) (ended : list (Z * Cov))
    (files : gmap Z Cov) (j : nat) (m : option (gmap Z Cov)) :
  NoDup ended.*1 ->
  (forall i, i ∈ ended.*1 -> files !! i = None) ->
  handle_all default_options total ended files !! j = Some m ->
  m = if Z.of_nat (size files) + Z.of_nat j + 1 =? total
      then Some (collected files (take (S j) ended)) else None.
Proof.
  revert files j. induction ended as [|[i c] ended IH]; intros files j Hnd Hfresh Hj.
  - discriminate.
  - rewrite fmap_cons in Hnd. apply NoDup_cons in Hnd as [Hi Hnd].
    assert (Hfi : files !! i = None) by (apply Hfresh; left).
    assert (Hsz : size (<[i := c]> files) = S (size files))
      by (apply map_size_insert_None; assumption).
    assert (Hstep : handleCoverage default_options {| index := i; total := total |}
                      (Some c) files =
                    (<[i := c]> files,
                     if Z.of_nat (size files) + 1 =? total
                     then Some (<[i := c]> files) else None)).
    { unfold handleCoverage, isAllShardsComplete, getShardCount, mergeCoverage,
        collectShardCoverage. simpl. rewrite Hsz.
      replace (Z.of_nat (S (size files))) with (Z.of_nat (size files) + 1) by lia.
      rewrite orb_false_r.
      destruct (_ =? _); [|reflexivity]. reflexivity. }
    cbn [handle_all] in Hj. rewrite Hstep in Hj.
    destruct j as [|j].
    + simpl in Hj. injection Hj as <-. rewrite Z.add_0_r. reflexivity.
    + simpl in Hj. apply IH in Hj; [|assumption|].
      * rewrite Hj, Hsz.
        replace (Z.of_nat (S (size files)) + Z.of_nat j + 1)
          with (Z.of_nat (size files) + Z.of_nat (S j) + 1) by lia.
        reflexivity.
      * intros k Hk. rewrite lookup_insert_ne; [apply Hfresh; right; assumption|].
        intros ->. contradiction.
Qed.

(** X23. Whether [handleCoverage] merges depends on a count alone.  With
    the options of the repository's configuration, when shards with
    different indices end one after the other, each for the first time,
    the merge is started by the shard that brings the number of files in
    the directory to [total], and by no other: files that an earlier run
    left behind are counted and merged with the others, and the shards
    that end after the merge are not in it. *)
Theorem merge_started_by_count {Cov : Type} (total : Z) (ended : list (Z * Cov))
    (files : gmap Z Cov) (j : nat) (m : option (gmap Z Cov)) :
  NoDup ended.*1 ->
  (forall i, i ∈ ended.*1 -> files !! i = None) ->
  handle_all default_options total ended files !! j = Some m ->
  (is_Some m <-> Z.of_nat (size files) + Z.of_nat j + 1 = total) /\
  (forall merged, m = Some merged -> merged = collected files (take (S j) ended)).
Proof.
  intros Hnd Hf Hj. rewrite (handle_all_lookup total ended files j m Hnd Hf Hj).
  destruct (Z.eqb_spec (Z.of_nat (size files) + Z.of_nat j + 1) total) as [E|E].
  - split; [split; [auto|eexists; reflexivity]|]. intros merged [= <-]. reflexivity.
  - split; [split; [intros [x Hx]; discriminate|contradiction]|]. discriminate.
Qed.

Lemma merge_started_by_count_witness :
  let stale : gmap Z string := {[5 := "old"%string]} in
  let ended := [(2, "b"); (1, "a"); (3, "c")]%string in
  let m := Some ({[5 := "old"; 2 := "b"; 1 := "a"]}%string : gmap Z string) in
  (is_Some m <-> Z.of_nat (size stale) + Z.of_nat 1 + 1 = 3) /\
  (forall merged, m = Some merged -> merged = collected stale (take 2 ended)).
Proof.
  intros stale ended m.
  apply (merge_started_by_count 3 ended stale 1 m).
  - apply (bool_decide_unpack _). vm_compute. exact I.
  - intros i Hi. apply lookup_singleton_ne. intros <-.
    simpl in Hi. repeat (apply elem_of_cons in Hi as [Hi|Hi]; [discriminate|]).
    inversion Hi.
  - vm_compute. reflexivity.
Defined.

Lemma handle_all_fresh {Cov : Type} (total : Z) (ended : list (Z * Cov))
    (files : gmap Z Cov) :
  NoDup ended.*1 ->
  (forall i, i ∈ ended.*1 -> files !! i = None) ->
  ended <> [] ->
  Z.of_nat (size files) + Z.of_nat (length ended) = total ->
  handle_all default_options total ended files =
  replicate (length ended - 1) None ++ [Some (collected files ended)].
Proof.
  intros Hnd Hf Hne Hlen. apply list_eq. intros j.
  destruct (handle_all default_options total ended files !! j) as [m|] eqn:E.
  - pose proof (lookup_lt_Some _ _ _ E) as Hlt.
    rewrite (handle_all_lookup total ended files j m Hnd Hf E).
    assert (Hl : length (handle_all default_options total ended files) = length ended).
    { clear. revert files. induction ended as [|[i c] ended IH]; intros files; [reflexivity|].
      cbn [handle_all]. destruct (handleCoverage _ _ _ _) as [f' mm]. simpl.
      rewrite IH. reflexivity. }
    rewrite Hl in Hlt.
    destruct (decide (j = length ended - 1)%nat) as [->|Hj].
    + rewrite lookup_app_r by (rewrite length_replicate; lia).
      rewrite length_replicate, Nat.sub_diag. simpl.
      destruct (Z.eqb_spec (Z.of_nat (size files) + Z.of_nat (length ended - 1) + 1) total);
        [|lia].
      rewrite firstn_all2 by lia. reflexivity.
    + rewrite lookup_app_l by (rewrite length_replicate; lia).
      rewrite lookup_replicate_2 by lia.
      destruct (Z.eqb_spec (Z.of_nat (size files) + Z.of_nat j + 1) total); [lia|].
      reflexivity.
  - apply lookup_ge_None in E.
    assert (Hl : length (handle_all default_options total ended files) = length ended).
    { clear. revert files. induction ended as [|[i c] ended IH]; intros files; [reflexivity|].
      cbn [handle_all]. destruct (handleCoverage _ _ _ _) as [f' mm]. simpl.
      rewrite IH. reflexivity. }
    rewrite Hl in E. symmetry. apply lookup_ge_None.
    rewrite length_app, length_replicate. simpl.
    destruct ended; [congruence|simpl in *; lia].
Qed.

(** X24. In a directory without shard files, when each of the [total]
    shards hands in its coverage once, in any order, the coverage is
    merged once: by the shard that ends last, from the files of all the
    shards. *)
Theorem coverage_merged_once_by_last {Cov : Type} (total : Z) (ended : list (Z * Cov)) :
  1 <= total ->
  Permutation ended.*1 (indices total) ->
  handle_all default_options total ended ∅ =
    replicate (length ended - 1) None ++ [Some (collected ∅ ended)] /\
  dom (collected (∅ : gmap Z Cov) ended) = list_to_set (indices total).
Proof.
  intros Ht Hp.
  assert (Hlen : Z.of_nat (length ended) = total).
  { rewrite <- (length_fmap fst), (Permutation_length Hp). apply indices_length. lia. }
  split.
  - apply handle_all_fresh.
    + rewrite Hp. apply indices_NoDup.
    + intros i _. apply lookup_empty.
    + intros ->. simpl in Hlen. lia.
    + rewrite map_size_empty. lia.
  - assert (Hdom : forall (l : list (Z * Cov)) (f : gmap Z Cov),
              dom (collected f l) = list_to_set l.*1 ∪ dom f).
    { induction l as [|[i c] l IH]; intros f; simpl.
      - rewrite (left_id_L ∅ (∪)). reflexivity.
      - unfold collected in *. simpl. rewrite IH. unfold collectShardCoverage. simpl.
        rewrite dom_insert_L, (assoc_L (∪)), (comm_L (∪) _ {[i]}). reflexivity. }
    rewrite Hdom, dom_empty_L, (right_id_L ∅ (∪)).
    apply set_eq. intros x. rewrite !elem_of_list_to_set, Hp. reflexivity.
Qed.

Lemma coverage_merged_once_by_last_witness :
  let ended := [(2, "b"); (3, "c"); (1, "a")]%string in
  handle_all default_options 3 ended ∅ =
    replicate (length ended - 1) None ++ [Some (collected ∅ ended)] /\
  dom (collected (∅ : gmap Z string) ended) = list_to_set (indices 3).
Proof.
  intros ended.
  apply (coverage_merged_once_by_last 3 ended).
  - lia.
  - simpl. change (indices 3) with [1; 2; 3].
    apply Permutation_sym, (Permutation_cons_app [2; 3] []). reflexivity.
Defined.

(** ** The order of the tests within a shard *)

Lemma StronglySorted_sublist {A : Type} (R : A -> A -> Prop) (l k : list A) :
  l `sublist_of` k -> StronglySorted R k -> StronglySorted R l.
Proof.
  induction 1 as [|x l k Hs IH|x l k Hs IH]; intros Hk.
  - constructor.
  - inversion Hk as [|? ? Hk' Hx]; subst. constructor; [apply IH; assumption|].
    rewrite List.Forall_forall in *. intros y Hy. apply Hx.
    apply list_elem_of_In. apply list_elem_of_In in Hy.
    eapply elem_of_sublist; eassumption.
  - inversion Hk; subst. apply IH. assumption.
Qed.

Lemma sorted_paths (cost : string -> Z) (files : list (string * Z)) :
  List.Forall (priced cost) files -> StronglySorted desc files ->
  StronglySorted (by_cost_desc cost) (List.map fst files).
Proof.
  intros Hp Hs. induction Hs as [|f files Hs IH Hf]; [constructor|].
  inversion Hp as [|? ? Hpf Hp']; subst. simpl. constructor; [apply IH; assumption|].
  rewrite List.Forall_forall in *. intros p Hin.
  apply in_map_iff in Hin as (g & <- & Hg).
  unfold by_cost_desc. specialize (Hf g Hg). unfold desc in Hf.
  rewrite <- (Hp' g Hg), <- Hpf. assumption.
Qed.

Lemma place_all_sublist (files : list (string * Z)) (shards shards' : list shard)
    (processed : list string) :
  (forall s, s ∈ shards -> paths s `sublist_of` processed) ->
  place_all shards files = Normal shards' ->
  forall s, s ∈ shards' -> paths s `sublist_of` processed ++ List.map fst files.
Proof.
  revert shards processed. induction files as [|f files IH]; intros shards processed Hsub Hrun.
  - simpl in Hrun. injection Hrun as <-. simpl. rewrite app_nil_r. assumption.
  - simpl in Hrun. unfold place in Hrun at 1.
    destruct (shards !! minShard shards) as [s0|] eqn:E; [|discriminate].
    simpl in Hrun. intros s Hs.
    replace (processed ++ List.map fst (f :: files))
      with ((processed ++ [f.1]) ++ List.map fst files)
      by (rewrite <- app_assoc; reflexivity).
    refine (IH _ (processed ++ [f.1]) _ Hrun s Hs).
    intros s' Hs'. apply elem_of_insert_inv in Hs' as [->|Hs'].
    + simpl. apply sublist_app; [|reflexivity].
      apply Hsub. eapply list_elem_of_lookup_2; eassumption.
    + apply sublist_inserts_r, Hsub, Hs'.
Qed.

Lemma greedy_order (cost : string -> Z) (tests : list string) (info : ShardInfo) :
  1 <= index info <= total info ->
  exists a,
    greedy (List.map (fun p => (p, cost p)) tests) info = Normal a /\
    a `sublist_of` List.map fst (sorted_records cost tests) /\
    StronglySorted (by_cost_desc cost) a.
Proof.
  intros Hi. destruct info as [i total]. simpl in Hi.
  set (files := List.map (fun p => (p, cost p)) tests).
  destruct (greedy_shards files total ltac:(lia)) as (shards & Hrun & Hlen & _).
  destruct (lookup_lt_is_Some_2 shards (Z.to_nat (i - 1)) ltac:(lia)) as [a Ha].
  exists (paths a).
  pose proof (greedy_at files total shards _ a Hrun Ha) as Ga.
  replace (Z.of_nat (S (Z.to_nat (i - 1)))) with i in Ga by lia.
  split; [assumption|].
  assert (Hsub : paths a `sublist_of` List.map fst (sort_desc files)).
  { refine (place_all_sublist (sort_desc files) (fresh_shards total) shards [] _ Hrun a _).
    - intros s Hs. unfold fresh_shards in Hs. apply elem_of_replicate in Hs as [-> _].
      simpl. reflexivity.
    - eapply list_elem_of_lookup_2; eassumption. }
  split; [assumption|].
  apply (StronglySorted_sublist _ _ _ Hsub).
  apply sorted_paths; [|apply sort_desc_sorted].
  apply List.Forall_forall. intros f Hf.
  apply (Permutation_in _ (sort_desc_perm files)) in Hf.
  apply in_map_iff in Hf as (p & <- & _). reflexivity.
Qed.

(** X25. The list that [FileSizeStrategy] or [SmartStrategy] returns for
    a shard is in the order of the sorted records: the largest file, or
    the longest test, comes first, the tests of equal cost in the order of
    the input. *)
Theorem shard_in_descending_cost (fs : FileSizeStrategy) (sm : SmartStrategy)
    (tests : list string) (info : ShardInfo) :
  1 <= index info <= total info ->
  (exists a, distributeTests fs tests info = Normal a /\
     a `sublist_of` List.map fst (sorted_records (getFileSize fs) tests) /\
     StronglySorted (by_cost_desc (getFileSize fs)) a) /\
  (exists a, distributeTests sm tests info = Normal a /\
     a `sublist_of` List.map fst (sorted_records (duration sm) tests) /\
     StronglySorted (by_cost_desc (duration sm)) a).
Proof.
  intros Hi. split.
  - apply (greedy_order (getFileSize fs)); assumption.
  - apply (greedy_order (duration sm)); assumption.
Qed.

Lemma shard_in_descending_cost_witness :
  let info := {| index := 1; total := 2 |} in
  (exists a, distributeTests scenario_sizes scenario_tests info = Normal a /\
     a `sublist_of` List.map fst (sorted_records (getFileSize scenario_sizes) scenario_tests) /\
     StronglySorted (by_cost_desc (getFileSize scenario_sizes)) a) /\
  (exists a, distributeTests scenario_history scenario_tests info = Normal a /\
     a `sublist_of` List.map fst (sorted_records (duration scenario_history) scenario_tests) /\
     StronglySorted (by_cost_desc (duration scenario_history)) a).
Proof.
  intros info.
  apply (shard_in_descending_cost scenario_sizes scenario_history scenario_tests info).
  simpl. lia.
Defined.

(** ** A lock that is held *)

(** X26. Between calls that do not interleave, a lock that a process has
    just taken keeps every process out, its owner included, for 300000
    milliseconds, provided the owner stays alive or the caller runs on
    Windows; one millisecond later any caller takes it, although the owner
    is alive. *)
Theorem lock_held_for_five_minutes (a b : AutoShardCoordinator) (i : Z) (w : World) (dt : Z) :
  lock_yields a i w = true ->
  win32 b = true \/ process_pid a ∈ live w ->
  let w1 := snd (acquireShardLock a i w) in
  let w2 := later w1 dt in
  fst (acquireShardLock a i w) = Some true /\
  acquireShardLock b i w2 =
    if dt <=? 300000 then (Some false, w2) else (Some true, relock b i w2).
Proof.
  intros Hy Hlive. rewrite (acquireShardLock_spec a i w), Hy. simpl.
  split; [reflexivity|].
  rewrite acquireShardLock_spec. unfold lock_yields, later. simpl.
  rewrite lookup_insert_eq. simpl.
  replace (now w + dt - now w) with dt by lia.
  destruct (Z.ltb_spec 300000 dt), (Z.leb_spec dt 300000); try lia; [reflexivity|].
  destruct (win32 b) eqn:Ew; [reflexivity|].
  destruct Hlive as [Hl|Hl]; [discriminate|].
  rewrite decide_True by assumption. reflexivity.
Qed.

Lemma lock_held_for_five_minutes_witness :
  let w1 := snd (acquireShardLock alice 1 empty_dir) in
  let w2 := later w1 300001 in
  fst (acquireShardLock alice 1 empty_dir) = Some true /\
  acquireShardLock bob 1 w2 =
    if 300001 <=? 300000 then (Some false, w2) else (Some true, relock bob 1 w2).
Proof.
  apply (lock_held_for_five_minutes alice bob 1 empty_dir 300001).
  - reflexivity.
  - right. vm_compute. set_solver.
Defined.

(** ** The preview of [analyze] *)

Lemma ceil_div_spec (a b : Z) :
  0 < b -> a <= b * ceil_div a b /\ b * (ceil_div a b - 1) < a.
Proof.
  intros Hb. unfold ceil_div.
  pose proof (Z.div_mod (- a) b ltac:(lia)) as Hd.
  pose proof (Z.mod_pos_bound (- a) b Hb) as Hm.
  lia.
Qed.

Lemma sum_snoc (l : list Z) (x : Z) : foldr Z.add 0 (l ++ [x]) = foldr Z.add 0 l + x.
Proof. induction l as [|y l IH]; simpl; lia. Qed.

Lemma preview_full (n r t : Z) (k : nat) :
  t = ceil_div n r -> 0 <= t -> Z.of_nat k * t <= n ->
  foldr Z.add 0 (List.map (preview_count n r) (List.map Z.of_nat (seq 1 k))) =
    Z.of_nat k * t /\
  Forall (fun c => 0 <= c) (List.map (preview_count n r) (List.map Z.of_nat (seq 1 k))).
Proof.
  intros Ht Hpos. induction k as [|k IH]; intros Hk.
  - simpl. split; [lia|constructor].
  - destruct IH as [IHs IHf]; [nia|].
    rewrite seq_S, !map_app. cbn [List.map]. rewrite sum_snoc, IHs.
    change (1 + k)%nat with (S k).
    assert (Hc : preview_count n r (Z.of_nat (S k)) = t).
    { unfold preview_count. rewrite <- Ht. simpl. nia. }
    rewrite Hc. split; [nia|].
    apply Forall_app. split; [assumption|]. constructor; [lia|constructor].
Qed.

(** X27. On a machine with at most 21 CPUs the numbers that [analyze]
    prints under "Distribution preview" are not negative and add up to the
    number of test files. *)
Theorem preview_adds_up (cpuCount n : Z) :
  1 <= cpuCount <= 21 -> 0 <= n ->
  Forall (fun c => 0 <= c) (distribution_preview cpuCount n) /\
  foldr Z.add 0 (distribution_preview cpuCount n) = n.
Proof.
  intros Hc Hn. unfold distribution_preview.
  set (r := recommendedShards cpuCount n).
  set (t := ceil_div n r).
  destruct (ceil_div_spec n 20 ltac:(lia)) as [H20a H20b].
  assert (Hr : 1 <= r <= 21 /\ (r = 1 \/ r <= ceil_div n 20)).
  { unfold r, recommendedShards. lia. }
  destruct (ceil_div_spec n r ltac:(lia)) as [Hta Htb]. fold t in Hta, Htb.
  assert (Ht : 0 <= t) by nia.
  assert (Hlast : (r - 1) * t <= n).
  { destruct Hr as [Hr [->|Hr']]; [lia|].
    assert (Hrt : r - 1 <= t) by nia. nia. }
  unfold indices.
  replace (Z.to_nat r) with (S (Z.to_nat (r - 1))) by lia.
  rewrite seq_S, !map_app. cbn [List.map]. rewrite sum_snoc.
  destruct (preview_full n r t (Z.to_nat (r - 1)) eq_refl Ht ltac:(nia)) as [Hs Hf].
  rewrite Hs.
  assert (Hcount : preview_count n r (Z.of_nat (1 + Z.to_nat (r - 1))) = n - (r - 1) * t).
  { unfold preview_count. fold t.
    replace (Z.of_nat (1 + Z.to_nat (r - 1))) with r by lia. nia. }
  rewrite Hcount. split.
  - apply Forall_app. split; [assumption|]. constructor; [lia|constructor].
  - nia.
Qed.

Lemma preview_adds_up_witness :
  Forall (fun c => 0 <= c) (distribution_preview 8 57) /\
  foldr Z.add 0 (distribution_preview 8 57) = 57.
Proof. apply (preview_adds_up 8 57); lia. Defined.

(** With 30 CPUs and 601 test files the preview shows shard 30 with -8
    tests, and its numbers add up to 593. *)
Example preview_negative :
  last (distribution_preview 30 601) = Some (-8) /\
  foldr Z.add 0 (distribution_preview 30 601) = 593.
Proof. split; vm_compute; reflexivity. Qed.
